(** * yaml-api: the text normaliser, the inverted index and the AND query engine

    A shallow embedding of package [storage] (index.go and storage.go) and
    the properties of its indexing and search paths, of its validation of
    documents, and of the POST handler of package [server] that calls both.

    Conventions of the embedding.
    - A Go [string] is the sequence of its code points ([list Z], a [rune]
      being an [int32]); a literal is written [str "title"].
    - A [*Metadata] is an address ([positive]); posting lists hold addresses
      and compare them with [=], as Go compares pointers.
    - A Go map is a [gmap]; a missing key reads as the zero value ([!!!]).
      A nil slice and an empty slice are both [[]].
    - [range] over a map visits the keys in an order the language leaves
      open: the order is an explicit argument ([order], a [Schedule]) of
      every function that ranges over a map, and the statements hold for
      every order that visits each key once ([range_of]).
    - A search also returns the reads it has made of the posting stores,
      which the source does not return: the statements about what a
      rejected query reads are made on them.
    - The packages [unicode] and [snowball] are not part of the repository:
      they are the fields of the class [Imports]; so are [semver], [url]
      and [net] ([ValidationImports]) and [yaml] ([ServerImports]). The
      pattern of [emailRegex] is in the source: it is embedded as a syntax
      tree and matched by derivatives.
    - Requests are served one after the other. *)

From Stdlib Require Import ZArith String Ascii.
From stdpp Require Import base option list strings gmap.

Abbreviation rune := Z (only parsing).
Abbreviation gostring := (list Z) (only parsing).

(** A string literal of the source, as code points (ASCII literals only). *)
Definition str (s : string) : gostring :=
  (λ a, Z.of_N (N_of_ascii a)) <$> list_ascii_of_string s.

(** ** Imported packages *)

(** What the code imports from outside the repository: the Unicode tables
    of package [unicode] beyond ASCII, and [snowball.Stem], which returns a
    stem or an error message. *)
Class Imports := {
  unicode_IsLetter : rune → bool;
  unicode_IsNumber : rune → bool;
  unicode_ToLower : rune → rune;
  snowball_Stem : gostring → gostring → bool → gostring + string;
}.

(** Errors built by the package. *)
Inductive error :=
| ErrStem (msg : string)
    (* fmt.Errorf("unable to stem token: %s", err.Error()) *)
| ErrUnknownAttribute.
    (* errors.New("cannot retrieve documents by unknown attribute type") *)

Global Instance error_eq_dec : EqDecision error.
Proof. solve_decision. Defined.

Section Normalizer.
Context `{Imports}.

(** [unicode.IsLetter], [unicode.IsNumber] and [unicode.ToLower]: the
    ASCII range is written out, the rest is the imported table. *)
Definition IsLetter (r : rune) : bool :=
  if bool_decide (0 ≤ r < 128)%Z
  then bool_decide (65 ≤ r ≤ 90)%Z || bool_decide (97 ≤ r ≤ 122)%Z
  else unicode_IsLetter r.

Definition IsNumber (r : rune) : bool :=
  if bool_decide (0 ≤ r < 128)%Z
  then bool_decide (48 ≤ r ≤ 57)%Z
  else unicode_IsNumber r.

Definition ToLower_rune (r : rune) : rune :=
  if bool_decide (r < 128)%Z
  then (if bool_decide (65 ≤ r ≤ 90)%Z then r + 32 else r)%Z
  else unicode_ToLower r.

(** [strings.ToLower]. *)
Definition ToLower (s : gostring) : gostring := ToLower_rune <$> s.

(** [strings.FieldsFunc]: the maximal runs of runes that [f] rejects;
    [cur] is the run being read. *)
Fixpoint FieldsFunc_from (f : rune → bool) (cur : gostring) (s : gostring)
  : list gostring :=
  match s with
  | [] => match cur with [] => [] | _ => [cur] end
  | r :: s' =>
      if f r
      then match cur with
           | [] => FieldsFunc_from f [] s'
           | _ => cur :: FieldsFunc_from f [] s'
           end
      else FieldsFunc_from f (cur ++ [r]) s'
  end.

Definition FieldsFunc (s : gostring) (f : rune → bool) : list gostring :=
  FieldsFunc_from f [] s.

Definition tokenize (text : gostring) : list gostring :=
  FieldsFunc text (λ r, negb (IsLetter r) && negb (IsNumber r)).

Definition toLowercase (tokens : list gostring) : list gostring :=
  foldl (λ lowercaseTokens token, lowercaseTokens ++ [ToLower token])
        [] tokens.

(** Top 15 words (OEC rank), as the source lists them. *)
Definition commonWords : gmap gostring bool :=
  list_to_map
    [ (str "the", true); (str "be", true); (str "to", true);
      (str "of", true); (str "and", true); (str "a", true);
      (str "in", true); (str "that", true); (str "have", true);
      (str "I", true); (str "it", true); (str "for", true);
      (str "not", true); (str "on", true); (str "with", true) ].

Definition removeCommonWords (tokens : list gostring) : list gostring :=
  foldl (λ tokensWithoutCommonWords token,
           match commonWords !! token with
           | Some _ => tokensWithoutCommonWords
           | None => tokensWithoutCommonWords ++ [token]
           end)
        [] tokens.

(** The loop of [stem]: [stemmedTokens] is the slice built so far; the
    first token the stemmer rejects ends the call with an error. *)
Fixpoint stem_loop (stemmedTokens : list gostring) (tokens : list gostring)
  : list gostring + error :=
  match tokens with
  | [] => inl stemmedTokens
  | token :: rest =>
      match snowball_Stem token (str "english") true with
      | inr msg => inr (ErrStem msg)
      | inl stemmedToken => stem_loop (stemmedTokens ++ [stemmedToken]) rest
      end
  end.

Definition stem (tokens : list gostring) : list gostring + error :=
  stem_loop [] tokens.

Definition processText (text : gostring) : list gostring + error :=
  let tokens := tokenize text in
  let tokens := toLowercase tokens in
  let tokens := removeCommonWords tokens in
  match stem tokens with
  | inr err => inr err
  | inl tokens => inl tokens
  end.
End Normalizer.

(** An excerpt of the English stemmer, for the examples: the words of the
    package's own test and two more of the stemmer's published vocabulary
    ("its" gives "it", "having" gives "have"); every other word is returned
    as it is. A language other than "english" is outside the excerpt and
    rejected. The texts of the examples are ASCII, so the Unicode tables
    of [excerpt_imports] are never consulted. *)
Definition excerpt_Stem (word language : gostring) (stemStopWords : bool)
  : gostring + string :=
  if decide (language = str "english") then
    inl (if decide (word = str "jumped") then str "jump"
         else if decide (word = str "things") then str "thing"
         else if decide (word = str "rocks") then str "rock"
         else if decide (word = str "emailed") then str "email"
         else if decide (word = str "its") then str "it"
         else if decide (word = str "having") then str "have"
         else word)
  else inr "Unknown language"%string.

Definition excerpt_imports : Imports :=
  {| unicode_IsLetter := λ _, false;
     unicode_IsNumber := λ _, false;
     unicode_ToLower := λ r, r;
     snowball_Stem := excerpt_Stem |}.


(** ** The documents and the index *)

(** A [*Metadata]: the address of a document. *)
Abbreviation MetadataPtr := positive (only parsing).

(** A posting store, [map[string][]*Metadata]. *)
Abbreviation postings := (gmap (list Z) (list positive)) (only parsing).

Record Maintainer := {
  Maintainer_Name : gostring;
  Maintainer_Email : gostring;
}.

Record Metadata := {
  Metadata_Title : gostring;
  Metadata_Version : gostring;
  Metadata_Maintainers : list Maintainer;
  Metadata_Company : gostring;
  Metadata_Website : gostring;
  Metadata_Source : gostring;
  Metadata_License : gostring;
  Metadata_Description : gostring;
}.

(** [type attribute string] and its nine constants. *)
Definition Title : gostring := str "title".
Definition Version : gostring := str "version".
Definition MaintainerName : gostring := str "maintainer_name".
Definition MaintainerEmail : gostring := str "maintainer_email".
Definition Company : gostring := str "company".
Definition Website : gostring := str "website".
Definition Source : gostring := str "source".
Definition License : gostring := str "license".
Definition Description : gostring := str "description".

(** [type index struct]; a [Storage] holds nothing but its index. *)
Record index := {
  title : postings;
  version : postings;
  maintainerName : postings;
  maintainerEmail : postings;
  company : postings;
  website : postings;
  source : postings;
  license : postings;
  description : postings;
}.

Definition NewStorage : index :=
  {| title := ∅; version := ∅; maintainerName := ∅; maintainerEmail := ∅;
     company := ∅; website := ∅; source := ∅; license := ∅;
     description := ∅ |}.

(** Assignment to one map of the index (the maps are mutated in place). *)
Definition set_title (f : postings) (s : index) : index :=
  {| title := f; version := version s; maintainerName := maintainerName s;
     maintainerEmail := maintainerEmail s; company := company s;
     website := website s; source := source s; license := license s;
     description := description s |}.
Definition set_version (f : postings) (s : index) : index :=
  {| title := title s; version := f; maintainerName := maintainerName s;
     maintainerEmail := maintainerEmail s; company := company s;
     website := website s; source := source s; license := license s;
     description := description s |}.
Definition set_maintainerName (f : postings) (s : index) : index :=
  {| title := title s; version := version s; maintainerName := f;
     maintainerEmail := maintainerEmail s; company := company s;
     website := website s; source := source s; license := license s;
     description := description s |}.
Definition set_maintainerEmail (f : postings) (s : index) : index :=
  {| title := title s; version := version s;
     maintainerName := maintainerName s; maintainerEmail := f;
     company := company s; website := website s; source := source s;
     license := license s; description := description s |}.
Definition set_company (f : postings) (s : index) : index :=
  {| title := title s; version := version s;
     maintainerName := maintainerName s;
     maintainerEmail := maintainerEmail s; company := f;
     website := website s; source := source s; license := license s;
     description := description s |}.
Definition set_website (f : postings) (s : index) : index :=
  {| title := title s; version := version s;
     maintainerName := maintainerName s;
     maintainerEmail := maintainerEmail s; company := company s;
     website := f; source := source s; license := license s;
     description := description s |}.
Definition set_source (f : postings) (s : index) : index :=
  {| title := title s; version := version s;
     maintainerName := maintainerName s;
     maintainerEmail := maintainerEmail s; company := company s;
     website := website s; source := f; license := license s;
     description := description s |}.
Definition set_license (f : postings) (s : index) : index :=
  {| title := title s; version := version s;
     maintainerName := maintainerName s;
     maintainerEmail := maintainerEmail s; company := company s;
     website := website s; source := source s; license := f;
     description := description s |}.
Definition set_description (f : postings) (s : index) : index :=
  {| title := title s; version := version s;
     maintainerName := maintainerName s;
     maintainerEmail := maintainerEmail s; company := company s;
     website := website s; source := source s; license := license s;
     description := f |}.

(** A field of the index: how to read it and how to assign it. *)
Record field_of_index := {
  fld_get : index → postings;
  fld_set : postings → index → index;
}.

Definition f_title := {| fld_get := title; fld_set := set_title |}.
Definition f_version := {| fld_get := version; fld_set := set_version |}.
Definition f_maintainerName :=
  {| fld_get := maintainerName; fld_set := set_maintainerName |}.
Definition f_maintainerEmail :=
  {| fld_get := maintainerEmail; fld_set := set_maintainerEmail |}.
Definition f_company := {| fld_get := company; fld_set := set_company |}.
Definition f_website := {| fld_get := website; fld_set := set_website |}.
Definition f_source := {| fld_get := source; fld_set := set_source |}.
Definition f_license := {| fld_get := license; fld_set := set_license |}.
Definition f_description :=
  {| fld_get := description; fld_set := set_description |}.

(** ** Indexing *)

(** A call that mutates the index and returns an [error]. *)
Definition Update := index → index * option error.

(** [err := m; if err != nil { return err }; k] *)
Definition andThen (m k : Update) : Update :=
  λ s, match m s with
       | (s', Some err) => (s', Some err)
       | (s', None) => k s'
       end.
Notation "m >>- k" := (andThen m k) (at level 90, right associativity).

Section Indexer.
Context `{Imports}.

(** One round of the loop of [indexField] over the tokens. *)
Definition indexToken (metadata : MetadataPtr) (field : postings)
    (token : gostring) : postings :=
  let field :=
    match field !! token with
    | Some _ => field
    | None => <[token := []]> field
    end in
  if bool_decide (0 < length (field !!! token))
     && bool_decide ((field !!! token) !! (length (field !!! token) - 1)
                     = Some metadata)
  then field (* continue *)
  else <[token := (field !!! token) ++ [metadata]]> field.

Definition indexField (text : gostring) (field : postings)
    (metadata : MetadataPtr) (tokenize_ : bool) : postings * option error :=
  if tokenize_ then
    match processText text with
    | inr err => (field, Some err)
    | inl tokens => (foldl (indexToken metadata) field tokens, None)
    end
  else
    let field :=
      match field !! text with
      | Some _ => field
      | None => <[text := []]> field
      end in
    (<[text := (field !!! text) ++ [metadata]]> field, None).

(** [err = indexField(text, s.index.f, metadata, tokenize)] *)
Definition indexInto (f : field_of_index) (text : gostring)
    (metadata : MetadataPtr) (tokenize_ : bool) : Update :=
  λ s, let '(field, err) := indexField text (fld_get f s) metadata tokenize_
       in (fld_set f field s, err).

(** The loop of [AddMetadata] over the maintainers. *)
Fixpoint indexMaintainers (maintainers : list Maintainer)
    (metadata : MetadataPtr) : Update :=
  match maintainers with
  | [] => λ s, (s, None)
  | maintainer :: rest =>
      indexInto f_maintainerName (Maintainer_Name maintainer) metadata true >>-
      indexInto f_maintainerEmail (Maintainer_Email maintainer) metadata true >>-
      indexMaintainers rest metadata
  end.

(** [AddMetadata]: [metadata] is the pointer and [md] the document it
    points to. *)
Definition AddMetadata (s : index) (metadata : MetadataPtr) (md : Metadata)
  : index * option error :=
  (indexInto f_title (Metadata_Title md) metadata true >>-
   indexInto f_version (Metadata_Version md) metadata false >>-
   indexMaintainers (Metadata_Maintainers md) metadata >>-
   indexInto f_company (Metadata_Company md) metadata true >>-
   indexInto f_website (Metadata_Website md) metadata true >>-
   indexInto f_source (Metadata_Source md) metadata true >>-
   indexInto f_license (Metadata_License md) metadata true >>-
   indexInto f_description (Metadata_Description md) metadata true) s.

(** A client that submits documents one after the other, whatever each
    call returns. *)
Definition AddAll (s : index) (docs : list (MetadataPtr * Metadata))
  : index :=
  foldl (λ s d, (AddMetadata s d.1 d.2).1) s docs.

(** A client that submits documents until a call fails. *)
Fixpoint AddUntilError (s : index) (docs : list (MetadataPtr * Metadata))
  : index * option error :=
  match docs with
  | [] => (s, None)
  | d :: rest =>
      match AddMetadata s d.1 d.2 with
      | (s', Some err) => (s', Some err)
      | (s', None) => AddUntilError s' rest
      end
  end.
End Indexer.

(** ** Searching *)

(** The order in which one [range] loop visits the keys of its map. *)
Definition range_order (V : Type) := gmap (list Z) V → list (list Z).

(** What the language guarantees of it: every key, once. *)
Definition range_of {V} (order : range_order V) : Prop :=
  ∀ m, order m ≡ₚ (map_to_list m).*1.

(** A read of a posting store: the attribute of the store and the key. *)
Abbreviation access := (list Z * list Z)%type (only parsing).

(** The three kinds of [range] loops a call of [LookupMetadata] runs: its
    own loop over [attrsAndValues], the loop of [matchAllTerms] inside the
    [retrieveDocuments] call of each attribute, and the loop of the final
    [matchAllTerms]. *)
Record Schedule := {
  outer : range_order (list Z);
  inner : list Z → range_order (list positive);
  final : range_order (list positive);
}.

Definition schedule_ok (sched : Schedule) : Prop :=
  range_of (outer sched) ∧ (∀ k, range_of (inner sched k))
  ∧ range_of (final sched).

Definition intersection (slice1 slice2 : list MetadataPtr)
  : list MetadataPtr :=
  let exists_ : gmap positive bool :=
    foldl (λ exists_ md, <[md := true]> exists_) ∅ slice1 in
  foldl (λ intersection md,
           match exists_ !! md with
           | Some _ => intersection ++ [md]
           | None => intersection
           end)
        [] slice2.

(** [keys] is filled by [range resultSet]. *)
Definition matchAllTerms (order : range_order (list MetadataPtr))
    (resultSet : postings) : list MetadataPtr :=
  let keys := order resultSet in
  match keys with
  | [] => []
  | [k0] => resultSet !!! k0
  | k0 :: k1 :: rest =>
      foldl (λ result k, intersection result (resultSet !!! k))
            (intersection (resultSet !!! k0) (resultSet !!! k1)) rest
  end.

(** The reduction in the words of section 4.3 of the specification: it
    stops with the empty list once a pairwise intersection is empty. The
    source, [matchAllTerms] above, runs every intersection; the two are
    compared in [matchAllTerms_short_circuit_eq]. *)
Fixpoint reduce_short_circuit (resultSet : postings)
    (result : list MetadataPtr) (keys : list gostring) : list MetadataPtr :=
  match keys with
  | [] => result
  | k :: rest =>
      match result with
      | [] => []
      | _ => reduce_short_circuit resultSet
               (intersection result (resultSet !!! k)) rest
      end
  end.

Definition matchAllTerms_short_circuit (order : range_order (list MetadataPtr))
    (resultSet : postings) : list MetadataPtr :=
  match order resultSet with
  | [] => []
  | [k0] => resultSet !!! k0
  | k0 :: k1 :: rest =>
      reduce_short_circuit resultSet
        (intersection (resultSet !!! k0) (resultSet !!! k1)) rest
  end.

Section Query.
Context `{Imports}.

(** Returns the new [resultSet], the error and the keys read in [field]. *)
Definition getResultsByToken (searchInput : gostring)
    (resultSet field : postings)
  : postings * option error * list gostring :=
  match processText searchInput with
  | inr err => (resultSet, Some err, [])
  | inl tokens =>
      (foldl (λ resultSet token,
                <[token := [] ++ (field !!! token)]> resultSet)
             resultSet tokens,
       None, tokens)
  end.

(** Returns what the source returns, and the reads of the posting stores
    the call has made. *)
Definition retrieveDocuments (order : range_order (list MetadataPtr))
    (s : index) (attr searchInput : gostring)
  : (list MetadataPtr + error) * list access :=
  let resultSet : postings := ∅ in
  let byToken (field : postings) :=
    match getResultsByToken searchInput resultSet field with
    | (_, Some err, reads) => (inr err, (λ k, (attr, k)) <$> reads)
    | (resultSet, None, reads) =>
        (inl (matchAllTerms order resultSet), (λ k, (attr, k)) <$> reads)
    end in
  if decide (attr = Title) then byToken (title s)
  else if decide (attr = Version) then
    let resultSet :=
      <[searchInput := (resultSet !!! searchInput)
                       ++ (version s !!! searchInput)]> resultSet in
    (inl (matchAllTerms order resultSet), [(attr, searchInput)])
  else if decide (attr = MaintainerName) then byToken (maintainerName s)
  else if decide (attr = MaintainerEmail) then byToken (maintainerEmail s)
  else if decide (attr = Company) then byToken (company s)
  else if decide (attr = Website) then byToken (website s)
  else if decide (attr = Source) then byToken (source s)
  else if decide (attr = License) then byToken (license s)
  else if decide (attr = Description) then byToken (description s)
  else (inr ErrUnknownAttribute, []).

(** The loop of [LookupMetadata]; [ks] is what is left of the keys, in
    the order [range attrsAndValues] gives them. *)
Fixpoint LookupMetadata_loop (sched : Schedule) (s : index)
    (attrsAndValues : gmap gostring gostring) (ks : list gostring)
    (resultSet : postings) : (postings + error) * list access :=
  match ks with
  | [] => (inl resultSet, [])
  | k :: rest =>
      let v := attrsAndValues !!! k in
      match retrieveDocuments (inner sched k) s k v with
      | (inr err, reads) => (inr err, reads)
      | (inl result, reads) =>
          let '(r, reads') :=
            LookupMetadata_loop sched s attrsAndValues rest
                                (<[k := result]> resultSet) in
          (r, reads ++ reads')
      end
  end.

Definition LookupMetadata (sched : Schedule) (s : index)
    (attrsAndValues : gmap gostring gostring)
  : (list MetadataPtr + error) * list access :=
  match LookupMetadata_loop sched s attrsAndValues
          (outer sched attrsAndValues) ∅ with
  | (inr err, reads) => (inr err, reads)
  | (inl resultSet, reads) =>
      (inl (matchAllTerms (final sched) resultSet), reads)
  end.
End Query.

(** The order of the map's own enumeration, and the same with one key
    moved to the front: two of the orders [range] may take. *)
Definition canonical_order {V} : range_order V := λ m, (map_to_list m).*1.

Definition first_order {V} (k : gostring) : range_order V :=
  λ m, filter (λ k', k' = k) (canonical_order m)
       ++ filter (λ k', ¬ k' = k) (canonical_order m).

Definition canonical_schedule : Schedule :=
  {| outer := canonical_order; inner := λ _, canonical_order;
     final := canonical_order |}.

Definition first_schedule (k : gostring) : Schedule :=
  {| outer := first_order k; inner := λ _, canonical_order;
     final := canonical_order |}.

(** ** Vocabulary of the statements *)

(** The stores that [retrieveDocuments] reads after normalising the query,
    by attribute; [version] is the one store it reads with the raw text. *)
Definition tokenized_fields : list (gostring * field_of_index) :=
  [ (Title, f_title); (MaintainerName, f_maintainerName);
    (MaintainerEmail, f_maintainerEmail); (Company, f_company);
    (Website, f_website); (Source, f_source); (License, f_license);
    (Description, f_description) ].

Definition all_fields : list (gostring * field_of_index) :=
  (Version, f_version) :: tokenized_fields.

(** The recognised field names. *)
Definition recognized (attr : gostring) : Prop := attr ∈ all_fields.*1.

(** The calls of [indexField] that [AddMetadata] makes for a document, in
    the order of the source: attribute, store, text, [tokenize]. *)
Definition steps_after_version (md : Metadata)
  : list (gostring * field_of_index * gostring * bool) :=
  (Metadata_Maintainers md ≫= λ maintainer,
     [ (MaintainerName, f_maintainerName, Maintainer_Name maintainer, true);
       (MaintainerEmail, f_maintainerEmail, Maintainer_Email maintainer,
        true) ])
  ++ [ (Company, f_company, Metadata_Company md, true);
       (Website, f_website, Metadata_Website md, true);
       (Source, f_source, Metadata_Source md, true);
       (License, f_license, Metadata_License md, true);
       (Description, f_description, Metadata_Description md, true) ].

Definition indexing_steps (md : Metadata)
  : list (gostring * field_of_index * gostring * bool) :=
  [ (Title, f_title, Metadata_Title md, true);
    (Version, f_version, Metadata_Version md, false) ]
  ++ steps_after_version md.

(** A step on one of the nine stores; only the version is not tokenised. *)
Definition step_ok (st : list Z * field_of_index * list Z * bool) : Prop :=
  (st.1.1.1, st.1.1.2) ∈ all_fields
  ∧ (st.2 = false ↔ st.1.1.1 = Version).

(** A step on a tokenised store. *)
Definition tokenized_step (st : list Z * field_of_index * list Z * bool)
  : Prop :=
  (st.1.1.1, st.1.1.2) ∈ tokenized_fields ∧ st.2 = true.

Section Steps.
Context `{Imports}.

(** The calls of a list of steps, each one made only if the ones before
    returned no error. *)
Fixpoint runSteps (metadata : MetadataPtr)
    (steps : list (gostring * field_of_index * gostring * bool)) : Update :=
  match steps with
  | [] => λ s, (s, None)
  | (_, f, text, tokenize_) :: rest =>
      indexInto f text metadata tokenize_ >>- runSteps metadata rest
  end.
End Steps.

(** The [resultSet] that [getResultsByToken] leaves for the tokens of a
    query: each token with a copy of its posting list in [field]. *)
Definition resultSet_of (field : postings) (tokens : list gostring)
  : postings :=
  foldl (λ resultSet token, <[token := [] ++ (field !!! token)]> resultSet)
        ∅ tokens.

(** No document at two consecutive positions of a posting list. *)
Definition no_adjacent_dup (l : list MetadataPtr) : Prop :=
  ∀ i md, l !! i = Some md → l !! S i ≠ Some md.

Section Matching.
Context `{Imports}.

(** A document matches a query on a field: it is posted under the raw
    text for the version, and under every token of the normalised text,
    of which there is one at least, for the other fields. *)
Definition matches (s : index) (attr searchInput : gostring)
    (md : MetadataPtr) : Prop :=
  (attr = Version ∧ md ∈ version s !!! searchInput)
  ∨ ∃ f tokens,
      (attr, f) ∈ tokenized_fields
      ∧ processText searchInput = inl tokens
      ∧ tokens ≠ []
      ∧ ∀ t, t ∈ tokens → md ∈ fld_get f s !!! t.

(** A query on a field is rejected with [err]: the field is unknown, or
    the text of a tokenised field does not normalise. *)
Definition query_fails (attr searchInput : gostring) (err : error) : Prop :=
  (¬ recognized attr ∧ err = ErrUnknownAttribute)
  ∨ ∃ f, (attr, f) ∈ tokenized_fields ∧ processText searchInput = inr err.
End Matching.

(** ** Data of the examples *)

(** A stemmer that rejects one word, to run the error paths. *)
Definition rejecting_Stem (word language : gostring) (stemStopWords : bool)
  : gostring + string :=
  if decide (word = str "unstemmable") then inr "rejected"%string
  else inl word.

Definition rejecting_imports : Imports :=
  {| unicode_IsLetter := λ _, false;
     unicode_IsNumber := λ _, false;
     unicode_ToLower := λ r, r;
     snowball_Stem := rejecting_Stem |}.

(** A document with one maintainer, given by the texts that matter in the
    examples. *)
Definition document (title_ version_ description_ : string) : Metadata :=
  {| Metadata_Title := str title_;
     Metadata_Version := str version_;
     Metadata_Maintainers :=
       [ {| Maintainer_Name := str "Bill Bob";
            Maintainer_Email := str "bill@gmail.com" |} ];
     Metadata_Company := str "BigCorp";
     Metadata_Website := str "https://www.wikipedia.com";
     Metadata_Source := str "https://github.com";
     Metadata_License := str "MIT";
     Metadata_Description := str description_ |}.

(** The two documents of the package's search tests (their titles,
    versions and the last sentence of their descriptions), submitted in
    turn to a new store with the excerpt of the stemmer. *)
Definition app_title_1 : Metadata :=
  document "App title 1" "1.0.0" "The quick blue fox jumped on the hen.".

Definition app_title_2 : Metadata :=
  document "App title 2" "2.0.1" "The quick brown fox jumped on the hen.".

Definition two_documents : list (MetadataPtr * Metadata) :=
  [ (1%positive, app_title_1); (2%positive, app_title_2) ].

Definition two_documents_store : index :=
  @AddAll excerpt_imports NewStorage two_documents.

(** The first of them submitted again after the second, under the same
    pointer. *)
Definition resubmitted_documents : list (MetadataPtr * Metadata) :=
  two_documents ++ [ (1%positive, app_title_1) ].

(** Two lookups of the examples: a recognised field with a field that does
    not exist, and the title alone. *)
Definition title_and_unknown : gmap gostring gostring :=
  {[ Title := str "app"; str "nope" := str "x" ]}.

Definition title_only : gmap gostring gostring := {[ Title := str "app" ]}.

(** A pointer submitted twice, with another document in between. *)
Definition fox_hen_documents : list (MetadataPtr * Metadata) :=
  [ (1%positive, document "fox hen" "1.0.0" "text");
    (2%positive, document "fox" "1.0.0" "text");
    (1%positive, document "fox hen" "1.0.0" "text") ].

(** ** Vocabulary of the further properties *)

Section MoreVocabulary.
Context `{Imports}.

(** The separators of [tokenize]: neither a letter nor a number. *)
Definition separator (r : rune) : bool :=
  negb (IsLetter r) && negb (IsNumber r).

(** The tokens of a text that reach the stemmer. *)
Definition surviving (text : gostring) : list gostring :=
  removeCommonWords (toLowercase (tokenize text)).

(** [t] is a token of the document [md] in the tokenised field [F]: a token
    of one of the texts that [AddMetadata] indexes into the store of [F]. *)
Definition field_token (md : Metadata) (F : gostring) (f : field_of_index)
    (t : gostring) : Prop :=
  ∃ V tokens, (F, f, V, true) ∈ indexing_steps md
              ∧ processText V = inl tokens ∧ t ∈ tokens.
End MoreVocabulary.

(** ** The regular expression of the email addresses *)

(** The syntax of package [regexp] that [emailRegex] uses, with the two
    forms that only the derivatives below produce. A pattern between [^]
    and [$] matches a whole text. *)
Inductive regexp :=
| Fail                                      (* no text *)
| Empty                                     (* the empty text *)
| Lit (c : ascii)                           (* one rune *)
| Class (ranges : list (ascii * ascii)) (chars : string)
                                            (* [a-z...] *)
| Cat (r1 r2 : regexp)                      (* r1r2 *)
| Alt (r1 r2 : regexp)                      (* r1|r2 *)
| Star (r : regexp)                         (* r* *)
| Plus (r : regexp)                         (* r+ *)
| Quest (r : regexp)                        (* r? *)
| Repeat0 (max : nat) (r : regexp).         (* r{0,max} *)

Definition rune_of (a : ascii) : rune := Z.of_N (N_of_ascii a).

Definition in_class (ranges : list (ascii * ascii)) (chars : string)
    (c : rune) : bool :=
  existsb (λ lo_hi, bool_decide (rune_of lo_hi.1 ≤ c ≤ rune_of lo_hi.2)%Z)
          ranges
  || bool_decide (c ∈ str chars).

(** Matching by derivatives: [nullable re] tells whether [re] matches the
    empty text, [deriv c re] matches what [re] matches after a [c]. *)
Fixpoint nullable (re : regexp) : bool :=
  match re with
  | Fail | Lit _ | Class _ _ => false
  | Empty | Star _ | Quest _ | Repeat0 _ _ => true
  | Cat r1 r2 => nullable r1 && nullable r2
  | Alt r1 r2 => nullable r1 || nullable r2
  | Plus r => nullable r
  end.

Fixpoint deriv (c : rune) (re : regexp) : regexp :=
  match re with
  | Fail | Empty => Fail
  | Lit c' => if bool_decide (c = rune_of c') then Empty else Fail
  | Class ranges chars => if in_class ranges chars c then Empty else Fail
  | Cat r1 r2 =>
      if nullable r1 then Alt (Cat (deriv c r1) r2) (deriv c r2)
      else Cat (deriv c r1) r2
  | Alt r1 r2 => Alt (deriv c r1) (deriv c r2)
  | Star r => Cat (deriv c r) (Star r)
  | Plus r => Cat (deriv c r) (Star r)
  | Quest r => deriv c r
  | Repeat0 0 r => Fail
  | Repeat0 (S n) r => Cat (deriv c r) (Repeat0 n r)
  end.

(** [MatchString] of a pattern anchored at both ends. *)
Definition MatchString (re : regexp) (s : gostring) : bool :=
  nullable (foldl (λ re c, deriv c re) re s).

(** The texts a pattern matches. *)
Inductive lang : regexp → gostring → Prop :=
| lang_Empty : lang Empty []
| lang_Lit c : lang (Lit c) [rune_of c]
| lang_Class ranges chars c :
    in_class ranges chars c = true → lang (Class ranges chars) [c]
| lang_Cat r1 r2 s1 s2 :
    lang r1 s1 → lang r2 s2 → lang (Cat r1 r2) (s1 ++ s2)
| lang_Alt_l r1 r2 s : lang r1 s → lang (Alt r1 r2) s
| lang_Alt_r r1 r2 s : lang r2 s → lang (Alt r1 r2) s
| lang_Star_nil r : lang (Star r) []
| lang_Star_cons r s1 s2 :
    lang r s1 → lang (Star r) s2 → lang (Star r) (s1 ++ s2)
| lang_Plus r s1 s2 :
    lang r s1 → lang (Star r) s2 → lang (Plus r) (s1 ++ s2)
| lang_Quest_nil r : lang (Quest r) []
| lang_Quest_one r s : lang r s → lang (Quest r) s
| lang_Repeat0_nil n r : lang (Repeat0 n r) []
| lang_Repeat0_cons n r s1 s2 :
    lang r s1 → lang (Repeat0 n r) s2 → lang (Repeat0 (S n) r) (s1 ++ s2).

(** The runes that occur in the texts of a pattern. *)
Fixpoint rune_of_pattern (re : regexp) (c : rune) : bool :=
  match re with
  | Fail | Empty => false
  | Lit c' => bool_decide (c = rune_of c')
  | Class ranges chars => in_class ranges chars c
  | Cat r1 r2 | Alt r1 r2 => rune_of_pattern r1 c || rune_of_pattern r2 c
  | Star r | Plus r | Quest r | Repeat0 _ r => rune_of_pattern r c
  end.

(** [emailRegex], piece by piece:
    [^[a-zA-Z0-9.!#$%&'*+\/=?^_`{|}~-]+@LABEL(?:\.LABEL)*$] with [LABEL]
    the pattern [[a-zA-Z0-9](?:[a-zA-Z0-9-]{0,61}[a-zA-Z0-9])?]. *)
Definition a_z : ascii * ascii := ("a"%char, "z"%char).
Definition A_Z : ascii * ascii := ("A"%char, "Z"%char).
Definition zero_nine : ascii * ascii := ("0"%char, "9"%char).

Definition emailRegex_local : regexp :=
  Plus (Class [a_z; A_Z; zero_nine] ".!#$%&'*+/=?^_`{|}~-").

Definition emailRegex_label : regexp :=
  Cat (Class [a_z; A_Z; zero_nine] EmptyString)
      (Quest (Cat (Repeat0 61 (Class [a_z; A_Z; zero_nine] "-"))
                  (Class [a_z; A_Z; zero_nine] EmptyString))).

Definition emailRegex_domain : regexp :=
  Cat emailRegex_label (Star (Cat (Lit "."%char) emailRegex_label)).

Definition emailRegex : regexp :=
  Cat emailRegex_local (Cat (Lit "@"%char) emailRegex_domain).

(** The vocabulary of the addresses that [emailRegex] matches: the runes
    of its classes, and the labels of a domain. *)
Definition dot : rune := 46%Z.
Definition hyphen : rune := 45%Z.

Definition alnum (c : rune) : bool :=
  in_class [a_z; A_Z; zero_nine] EmptyString c.

Definition local_rune (c : rune) : bool :=
  in_class [a_z; A_Z; zero_nine] ".!#$%&'*+/=?^_`{|}~-" c.

(** A label of a domain: at most 63 runes, letters, digits and hyphens,
    the first and the last not a hyphen. *)
Definition dns_label (l : gostring) : Prop :=
  (length l ≤ 63)%nat
  ∧ Forall (λ c, alnum c = true ∨ c = hyphen) l
  ∧ (∃ a, head l = Some a ∧ alnum a = true)
  ∧ (∃ z, last l = Some z ∧ alnum z = true).

(** ** Validation *)

(** What validation imports from outside the repository. For
    [semver.NewVersion] and [url.ParseRequestURI] the field tells whether
    the call returns a nil error; [net.LookupMX] returns the number of MX
    records and an error or nil. *)
Class ValidationImports := {
  semver_NewVersion : gostring → bool;
  url_ParseRequestURI : gostring → bool;
  net_LookupMX : gostring → nat * option string;
}.

(** A call returns, or panics (an index out of range). *)
Inductive returned (A : Type) :=
| Return (a : A)
| Panic.

Arguments Return {A} a.
Arguments Panic {A}.

(** [len] of a string: its number of bytes, in UTF-8. *)
Definition utf8_width (r : rune) : Z :=
  if bool_decide (r < 128)%Z then 1
  else if bool_decide (r < 2048)%Z then 2
  else if bool_decide (r < 65536)%Z then 3
  else 4.

Definition len (s : gostring) : Z := foldr (λ r n, utf8_width r + n)%Z 0%Z s.

(** [strings.Split] with a separator of one rune: the pieces of [s] between
    the occurrences of [sep]. *)
Fixpoint Split (s : gostring) (sep : rune) : list gostring :=
  match s with
  | [] => [[]]
  | r :: rest =>
      if bool_decide (r = sep) then [] :: Split rest sep
      else match Split rest sep with
           | piece :: pieces => (r :: piece) :: pieces
           | [] => [[r]]
           end
  end.

(** The rune of the separator ["@"]. *)
Definition at_sign : rune := 64%Z.

Section Validation.
Context `{ValidationImports}.

(** [validateEmail]: the error it returns, [None] for nil. *)
Definition validateEmail (e : gostring) : returned (option string) :=
  if (bool_decide (len e < 3)%Z && bool_decide (len e > 254)%Z)
     || negb (MatchString emailRegex e)
  then Return (Some "email must be a properly formatted email address"%string)
  else
    let parts := Split e at_sign in
    match parts !! 1%nat with
    | None => Panic
    | Some domain =>
        let '(mx, err) := net_LookupMX domain in
        if bool_decide (err ≠ None) || bool_decide (mx = 0%nat)
        then Return (Some "email must be a valid email address"%string)
        else Return None
    end.

(** The loop of [ValidateMetadata] over the maintainers. *)
Fixpoint validateMaintainers (maintainers : list Maintainer)
  : returned (option string) :=
  match maintainers with
  | [] => Return None
  | maintainer :: rest =>
      if bool_decide (Maintainer_Name maintainer = [])
      then Return (Some "maintainer must have a name"%string)
      else if bool_decide (Maintainer_Email maintainer = [])
      then Return (Some "maintainer must have an email"%string)
      else match validateEmail (Maintainer_Email maintainer) with
           | Return None => validateMaintainers rest
           | other => other
           end
  end.

(** [ValidateMetadata]. *)
Definition ValidateMetadata (metadata : Metadata) : returned (option string) :=
  if bool_decide (Metadata_Title metadata = [])
  then Return (Some "metadata must have a title"%string)
  else if bool_decide (Metadata_Version metadata = [])
  then Return (Some "metadata must have a version"%string)
  else if negb (semver_NewVersion (Metadata_Version metadata))
  then Return (Some "version must follow the semantic versioning scheme: https://semver.org"%string)
  else if bool_decide (length (Metadata_Maintainers metadata) = 0%nat)
  then Return (Some "metadata must have a list of maintainers, each of which has a name and email attribute"%string)
  else match validateMaintainers (Metadata_Maintainers metadata) with
  | Return None =>
  if bool_decide (Metadata_Company metadata = [])
  then Return (Some "metadata must have a company"%string)
  else if bool_decide (Metadata_Website metadata = [])
  then Return (Some "metadata must have a website"%string)
  else if negb (url_ParseRequestURI (Metadata_Website metadata))
  then Return (Some "metadata must have a website with a valid URL"%string)
  else if bool_decide (Metadata_Source metadata = [])
  then Return (Some "metadata must have a source"%string)
  else if negb (url_ParseRequestURI (Metadata_Source metadata))
  then Return (Some "metadata must have a source with a valid URL"%string)
  else if bool_decide (Metadata_License metadata = [])
  then Return (Some "metadata must have a license"%string)
  else if bool_decide (Metadata_Description metadata = [])
  then Return (Some "metadata must have a description"%string)
  else Return None
  | other => other
  end.
End Validation.

(** ** The handler of POST /metadata *)

(** [yaml.Unmarshal] into a new [Metadata]: the document read, or an error
    message. *)
Class ServerImports := {
  yaml_Unmarshal : gostring → Metadata + string;
}.

(** [err.Error()] of the errors of package storage. *)
Definition Error (err : error) : string :=
  match err with
  | ErrStem msg => String.append "unable to stem token: " msg
  | ErrUnknownAttribute =>
      "cannot retrieve documents by unknown attribute type"%string
  end.

Definition newline : string := String (ascii_of_nat 10) EmptyString.

(** [fmt.Sprintf] with a format that ends in a new line and [%v]. *)
Definition Sprintf_nl_v (line : string) (err : string) : string :=
  String.append line (String.append newline err).

Definition StatusBadRequest : Z := 400.
Definition StatusInternalServerError : Z := 500.

(** What a handler does to its [ResponseWriter]: one call of [http.Error],
    or nothing (the server then answers 200 with an empty body); or the
    handler panics. *)
Inductive response :=
| http_Error (msg : string) (code : Z)
| no_write
| handler_panic.

Section Server.
Context `{Imports} `{ValidationImports} `{ServerImports}.

(** [handlePostMetadata] on the store of the server: [body] is what
    [ioutil.ReadAll] returns for the request, [metadata] the address of the
    [Metadata] the handler allocates. *)
Definition handlePostMetadata (s : index) (metadata : MetadataPtr)
    (body : gostring + string) : index * response :=
  match body with
  | inr err =>
      (s, http_Error (Sprintf_nl_v "could not read request body:" err)
            StatusBadRequest)
  | inl yamlBytes =>
      match yaml_Unmarshal yamlBytes with
      | inr err =>
          (s, http_Error (Sprintf_nl_v "request does not contain valid YAML:"
                            err) StatusBadRequest)
      | inl md =>
          match ValidateMetadata md with
          | Panic => (s, handler_panic)
          | Return (Some msg) => (s, http_Error msg StatusBadRequest)
          | Return None =>
              match AddMetadata s metadata md with
              | (s', Some err) =>
                  (s', http_Error (Error err) StatusInternalServerError)
              | (s', None) => (s', no_write)
              end
          end
      end
  end.

(** POST requests served one after the other: the store they leave and the
    responses, in order. *)
Fixpoint servePosts (s : index)
    (requests : list (MetadataPtr * (gostring + string)))
  : index * list response :=
  match requests with
  | [] => (s, [])
  | request :: rest =>
      let '(s1, r) := handlePostMetadata s request.1 request.2 in
      let '(s2, rs) := servePosts s1 rest in
      (s2, r :: rs)
  end.

(** The document of a request that reaches [AddMetadata]: its body is
    read, it is YAML, and the document passes [ValidateMetadata]. *)
Definition validated (request : MetadataPtr * (gostring + string))
  : option (MetadataPtr * Metadata) :=
  match request.2 with
  | inl yamlBytes =>
      match yaml_Unmarshal yamlBytes with
      | inl md =>
          match ValidateMetadata md with
          | Return None => Some (request.1, md)
          | _ => None
          end
      | inr _ => None
      end
  | inr _ => None
  end.
End Server.

(** ** Data of the examples of validation *)

(** Importations that accept the documents of the examples: the versions,
    URLs and mail domain of [document]. *)
Definition example_validation : ValidationImports :=
  {| semver_NewVersion := λ v, bool_decide (v ∈ [str "1.0.0"; str "2.0.1"]);
     url_ParseRequestURI := λ u,
       bool_decide (u ∈ [str "https://www.wikipedia.com";
                         str "https://github.com"]);
     net_LookupMX := λ domain,
       if bool_decide (domain = str "gmail.com") then (5%nat, None)
       else (0%nat, Some "no such host"%string) |}.

(** A decoder of request bodies that knows two bodies. *)
Definition example_server : ServerImports :=
  {| yaml_Unmarshal := λ yamlBytes,
       if bool_decide (yamlBytes = str "title: App title 1")
       then inl app_title_1
       else if bool_decide (yamlBytes = str "title: App title 2")
       then inl app_title_2
       else if bool_decide (yamlBytes = str "title:")
       then inl (document "" "1.0.0" "text")
       else inr "yaml: unmarshal errors"%string |}.

Definition example_requests : list (MetadataPtr * (gostring + string)) :=
  [ (1%positive, inl (str "title: App title 1"));
    (2%positive, inl (str "title:"));
    (3%positive, inl (str "{"));
    (4%positive, inl (str "title: App title 2")) ].

(** * Properties *)

(** ** The normaliser *)

Lemma foldl_snoc {A B} (g : B → list A) (acc : list A) (l : list B) :
  foldl (λ acc x, acc ++ g x) acc l = acc ++ (l ≫= g).
Proof.
  revert acc. induction l as [|x l IH]; intros acc; simpl.
  - by rewrite app_nil_r.
  - by rewrite IH, app_assoc.
Qed.

Section NormalizerFacts.
Context `{Imports}.

Lemma toLowercase_fmap tokens : toLowercase tokens = ToLower <$> tokens.
Proof.
  unfold toLowercase.
  rewrite (foldl_snoc (λ token, [ToLower token])). simpl.
  induction tokens as [|t l IH]; csimpl; [done|]. by rewrite IH.
Qed.

Lemma removeCommonWords_filter tokens :
  removeCommonWords tokens = filter (λ t, commonWords !! t = None) tokens.
Proof.
  unfold removeCommonWords.
  enough (∀ acc, foldl (λ acc t, match commonWords !! t with
                                 | Some _ => acc
                                 | None => acc ++ [t]
                                 end) acc tokens
                 = acc ++ filter (λ t, commonWords !! t = None) tokens)
    as Hgen by apply (Hgen []).
  induction tokens as [|t l IH]; intros acc; simpl.
  - by rewrite app_nil_r.
  - rewrite IH, filter_cons.
    destruct (commonWords !! t) eqn:E; case_decide; try done.
    by rewrite <- app_assoc.
Qed.

Lemma stem_loop_inl acc tokens stemmed :
  stem_loop acc tokens = inl stemmed →
  ∃ new, stemmed = acc ++ new ∧ length new = length tokens
         ∧ ∀ i t, tokens !! i = Some t →
             ∃ st, snowball_Stem t (str "english") true = inl st
                   ∧ new !! i = Some st.
Proof.
  revert acc. induction tokens as [|t l IH]; intros acc; simpl.
  - intros [= <-]. exists []. rewrite app_nil_r. by repeat split.
  - destruct (snowball_Stem t (str "english") true) as [st|msg] eqn:E;
      [|done].
    intros (new & -> & Hlen & Hnew)%IH. exists (st :: new).
    rewrite <- app_assoc. repeat split; [by simpl; f_equal|].
    intros [|i] t'; simpl; [intros [= <-]; eauto | apply Hnew].
Qed.

Lemma stem_loop_total acc tokens :
  (∀ w, ∃ st, snowball_Stem w (str "english") true = inl st) →
  ∃ stemmed, stem_loop acc tokens = inl stemmed.
Proof.
  intros Htot. revert acc.
  induction tokens as [|t l IH]; intros acc; simpl; [eauto|].
  destruct (Htot t) as [st ->]. apply IH.
Qed.

Lemma processText_total text :
  (∀ w, ∃ st, snowball_Stem w (str "english") true = inl st) →
  ∃ tokens, processText text = inl tokens.
Proof.
  intros Htot. unfold processText, stem.
  destruct (stem_loop_total []
              (removeCommonWords (toLowercase (tokenize text))) Htot)
    as [stemmed ->]. eauto.
Qed.

Lemma processText_inr text e :
  processText text = inr e →
  ∃ w msg, snowball_Stem w (str "english") true = inr msg ∧ e = ErrStem msg.
Proof.
  unfold processText, stem.
  generalize (removeCommonWords (toLowercase (tokenize text))).
  generalize (@nil (list Z)).
  intros acc toks. revert acc.
  induction toks as [|t l IH]; intros acc; simpl; [done|].
  destruct (snowball_Stem t (str "english") true) as [st|msg] eqn:E.
  - apply IH.
  - intros [= <-]. eauto.
Qed.
End NormalizerFacts.

Example Test_processText :
  @processText excerpt_imports
    (str "The quick brown fox jumped on things, and rocks, and emailed a letter at Mail@Gmail.com")
  = inl (str <$> ["quick"; "brown"; "fox"; "jump"; "thing"; "rock"; "email";
                  "letter"; "at"; "mail"; "gmail"; "com"]%string).
Proof. vm_compute. reflexivity. Qed.

(** The searches of the package's test on the descriptions of its two
    documents. *)
Example Test_retrieveDocuments :
  (@retrieveDocuments excerpt_imports canonical_order two_documents_store
     Description (str "quick blue fox")).1 = inl [1%positive]
  ∧ (@retrieveDocuments excerpt_imports canonical_order two_documents_store
       Description (str "quick brown fox")).1 = inl [2%positive]
  ∧ (@retrieveDocuments excerpt_imports canonical_order two_documents_store
       Description (str "quick fox")).1 = inl [1%positive; 2%positive]
  ∧ (@retrieveDocuments excerpt_imports canonical_order two_documents_store
       Description (str "dog jumped over the moon")).1 = inl []
  ∧ (@retrieveDocuments excerpt_imports canonical_order two_documents_store
       Version (str "1.0.2")).1 = inl [].
Proof. repeat split; vm_compute; reflexivity. Qed.

(** C3 (the code at the failing input): the stopword table holds the word
    "I" in upper case, and the filter runs on lowercased tokens, so the
    word "I" of a text is never dropped: it is indexed and searched as the
    token "i". The fourteen other words are dropped in any case variant. *)
Theorem C3_stopword_I_survives :
  (∀ lib : Imports,
     @removeCommonWords (@toLowercase lib (@tokenize lib (str "I")))
     = [str "i"])
  ∧ @processText excerpt_imports (str "I think that THE fox And the hen")
    = inl [str "i"; str "think"; str "fox"; str "hen"]
  ∧ (∀ w, w ∈ (str <$> ["the"; "be"; "to"; "of"; "and"; "a"; "in"; "that";
                        "have"; "it"; "for"; "not"; "on"; "with"]%string) →
          removeCommonWords [w] = [])
  ∧ removeCommonWords [str "I"] = [] ∧ removeCommonWords [str "i"] = [str "i"].
Proof.
  split; [intros lib; vm_compute; reflexivity|].
  split; [vm_compute; reflexivity|].
  split; [|split; vm_compute; reflexivity].
  intros w Hw. simpl in Hw.
  repeat (apply elem_of_cons in Hw as [->|Hw]; [vm_compute; reflexivity|]).
  by apply elem_of_nil in Hw.
Qed.

(** ** Intersection and the reduction of a result set *)

Lemma exists_lookup (l : list positive) (e0 : gmap positive bool) x :
  is_Some (foldl (λ e md, <[md := true]> e) e0 l !! x)
  ↔ x ∈ l ∨ is_Some (e0 !! x).
Proof.
  revert e0. induction l as [|y l IH]; intros e0; simpl.
  - rewrite elem_of_nil. tauto.
  - rewrite IH, elem_of_cons, lookup_insert. case_decide; subst.
    + split; [intros _; by left; left | intros _; by right].
    + split; [intros [?|?]; auto | intros [[?|?]|?]; auto; congruence].
Qed.

Lemma intersection_filter slice1 slice2 :
  intersection slice1 slice2 = filter (λ md, md ∈ slice1) slice2.
Proof.
  unfold intersection.
  set (ex := foldl _ ∅ slice1).
  assert (Hex : ∀ md, is_Some (ex !! md) ↔ md ∈ slice1).
  { intros md. unfold ex. rewrite exists_lookup, lookup_empty.
    split; [intros [?|[? ?]]; done | auto]. }
  enough (∀ acc, foldl (λ acc md, match ex !! md with
                                  | Some _ => acc ++ [md]
                                  | None => acc
                                  end) acc slice2
                 = acc ++ filter (λ md, md ∈ slice1) slice2)
    as Hgen by apply (Hgen []).
  induction slice2 as [|md l IH]; intros acc; simpl.
  - by rewrite app_nil_r.
  - rewrite IH, filter_cons. specialize (Hex md).
    destruct (ex !! md) eqn:E; case_decide as Hin.
    + by rewrite <- app_assoc.
    + destruct Hin. apply Hex. eauto.
    + apply Hex in Hin as [? ?]. done.
    + done.
Qed.

Lemma elem_of_intersection md slice1 slice2 :
  md ∈ intersection slice1 slice2 ↔ md ∈ slice1 ∧ md ∈ slice2.
Proof. by rewrite intersection_filter, list_elem_of_filter. Qed.

Lemma intersection_nil_l slice2 : intersection [] slice2 = [].
Proof.
  rewrite intersection_filter. induction slice2 as [|md l IH]; [done|].
  rewrite filter_cons. case_decide as Hin; [by apply elem_of_nil in Hin|done].
Qed.

Lemma foldl_intersection_nil (resultSet : gmap (list Z) (list positive)) keys :
  foldl (λ result k, intersection result (resultSet !!! k)) [] keys = [].
Proof.
  induction keys as [|k l IH]; simpl; [done|]. by rewrite intersection_nil_l.
Qed.

Lemma elem_of_foldl_intersection
    (resultSet : gmap (list Z) (list positive)) keys result md :
  md ∈ foldl (λ result k, intersection result (resultSet !!! k)) result keys
  ↔ md ∈ result ∧ ∀ k, k ∈ keys → md ∈ resultSet !!! k.
Proof.
  revert result. induction keys as [|k l IH]; intros result; simpl.
  - split; [intros ?; split; [done|] | tauto].
    intros k Hk. by apply elem_of_nil in Hk.
  - rewrite IH, elem_of_intersection. split.
    + intros [[? ?] Hl]. split; [done|].
      intros k' [->|?]%elem_of_cons; auto.
    + intros [? Hl]. split; [split|]; [done| |].
      * apply Hl. by left.
      * intros k' ?. apply Hl. by right.
Qed.

Lemma reduce_short_circuit_foldl
    (resultSet : gmap (list Z) (list positive)) keys result :
  reduce_short_circuit resultSet result keys
  = foldl (λ result k, intersection result (resultSet !!! k)) result keys.
Proof.
  revert result. induction keys as [|k l IH]; intros result; simpl; [done|].
  destruct result as [|md result].
  - by rewrite intersection_nil_l, foldl_intersection_nil.
  - apply IH.
Qed.

Lemma matchAllTerms_short_circuit_eq order resultSet :
  matchAllTerms_short_circuit order resultSet = matchAllTerms order resultSet.
Proof.
  unfold matchAllTerms_short_circuit, matchAllTerms.
  destruct (order resultSet) as [|k0 [|k1 rest]]; try done.
  apply reduce_short_circuit_foldl.
Qed.

(** ** The order of [range] *)

Section RangeFacts.
Context {V : Type} (order : range_order V) (Horder : range_of order).

Lemma range_of_elem m k : k ∈ order m ↔ is_Some (m !! k).
Proof.
  rewrite (Horder m), list_elem_of_fmap. split.
  - intros [[k' v] [-> Hin]]. apply elem_of_map_to_list in Hin. eauto.
  - intros [v Hv]. exists (k, v). split; [done|].
    by apply elem_of_map_to_list.
Qed.

Lemma range_of_NoDup m : NoDup (order m).
Proof. rewrite (Horder m). apply NoDup_fst_map_to_list. Qed.

Lemma range_of_empty : order ∅ = [].
Proof.
  apply Permutation_nil_r. rewrite (Horder ∅).
  by rewrite map_to_list_empty.
Qed.

Lemma range_of_singleton k v : order {[k := v]} = [k].
Proof.
  apply Permutation_singleton_r. rewrite (Horder _).
  by rewrite map_to_list_singleton.
Qed.
End RangeFacts.

Lemma canonical_order_ok {V} : range_of (@canonical_order V).
Proof. intros m. reflexivity. Qed.

Lemma first_order_ok {V} k : range_of (@first_order V k).
Proof.
  intros m. unfold first_order.
  change ((map_to_list m).*1) with (canonical_order m).
  induction (canonical_order m) as [|k' l IH]; [done|].
  rewrite !filter_cons. case_decide; case_decide; try done; simpl.
  - by rewrite IH.
  - rewrite <- Permutation_middle. by rewrite IH.
Qed.

Lemma canonical_schedule_ok : schedule_ok canonical_schedule.
Proof. repeat split; intros; apply canonical_order_ok. Qed.

Lemma first_schedule_ok k : schedule_ok (first_schedule k).
Proof.
  split; [apply first_order_ok|].
  split; intros; apply canonical_order_ok.
Qed.

(** ** The result set of a query *)

Lemma resultSet_lookup_from (field rs : gmap (list Z) (list positive))
    (tokens : list (list Z)) t :
  foldl (λ resultSet token, <[token := [] ++ (field !!! token)]> resultSet)
        rs tokens !! t
  = if decide (t ∈ tokens) then Some (field !!! t) else rs !! t.
Proof.
  revert rs. induction tokens as [|a l IH]; intros rs; cbn [foldl].
  - case_decide as Hin; [by apply elem_of_nil in Hin|done].
  - rewrite IH. destruct (decide (t ∈ l)) as [Hl|Hl].
    + rewrite decide_True; [done|by right].
    + rewrite lookup_insert. destruct (decide (a = t)) as [->|Hne].
      * rewrite decide_True; [done|by left].
      * rewrite decide_False; [done|].
        intros [->|?]%elem_of_cons; done.
Qed.

Lemma resultSet_of_lookup (field : gmap (list Z) (list positive)) tokens t :
  resultSet_of field tokens !! t
  = if decide (t ∈ tokens) then Some (field !!! t) else None.
Proof. unfold resultSet_of. by rewrite resultSet_lookup_from, lookup_empty. Qed.

Lemma resultSet_of_total (field : gmap (list Z) (list positive)) tokens t :
  t ∈ tokens → resultSet_of field tokens !!! t = field !!! t.
Proof.
  intros Hin. rewrite lookup_total_alt, resultSet_of_lookup.
  by rewrite decide_True.
Qed.

Lemma resultSet_of_nil (field : gmap (list Z) (list positive)) :
  resultSet_of field [] = ∅.
Proof. done. Qed.

Lemma matchAllTerms_elem (order : range_order (list positive))
    (resultSet : gmap (list Z) (list positive)) md :
  md ∈ matchAllTerms order resultSet
  ↔ order resultSet ≠ [] ∧ ∀ k, k ∈ order resultSet → md ∈ resultSet !!! k.
Proof.
  unfold matchAllTerms. destruct (order resultSet) as [|k0 [|k1 rest]].
  - rewrite elem_of_nil. split; [done|]. by intros [? _].
  - split.
    + intros Hmd. split; [done|]. by intros k ->%list_elem_of_singleton.
    + intros [_ Hk]. apply Hk. by left.
  - rewrite elem_of_foldl_intersection, elem_of_intersection. split.
    + intros [[? ?] Hrest]. split; [done|].
      intros k [->|[->|?]%elem_of_cons]%elem_of_cons; auto.
    + intros [_ Hk]. split; [split|].
      * apply Hk. by left.
      * apply Hk. right. by left.
      * intros k ?. apply Hk. right. by right.
Qed.

Lemma foldl_intersection_ext (rs1 rs2 : gmap (list Z) (list positive))
    keys result :
  (∀ k, k ∈ keys → rs1 !!! k = rs2 !!! k) →
  foldl (λ result k, intersection result (rs1 !!! k)) result keys
  = foldl (λ result k, intersection result (rs2 !!! k)) result keys.
Proof.
  revert result. induction keys as [|k l IH]; intros result Hk; simpl; [done|].
  rewrite (Hk k) by (by left). apply IH. intros k' ?. apply Hk. by right.
Qed.

(** Which branch of the [switch] of [retrieveDocuments] an attribute takes. *)
Ltac attribute_switch :=
  repeat match goal with
    | |- context [decide (?a = ?b)] =>
        destruct (decide (a = b)) as [Heq|Hne];
        [ try (exfalso; vm_compute in Heq; discriminate Heq)
        | try (exfalso; apply Hne; reflexivity) ]
    end.

Section QueryFacts.
Context `{Imports}.

Lemma retrieveDocuments_tokenized order s attr f searchInput :
  (attr, f) ∈ tokenized_fields →
  retrieveDocuments order s attr searchInput
  = match processText searchInput with
    | inr err => (inr err, [])
    | inl tokens =>
        (inl (matchAllTerms order (resultSet_of (fld_get f s) tokens)),
         (λ k, (attr, k)) <$> tokens)
    end.
Proof.
  unfold tokenized_fields. intros Hin.
  repeat (apply elem_of_cons in Hin as [[= -> ->]|Hin];
          [ unfold retrieveDocuments, getResultsByToken, resultSet_of;
            attribute_switch; simpl;
            by destruct (processText searchInput) |]).
  by apply elem_of_nil in Hin.
Qed.

Lemma retrieveDocuments_version order s searchInput :
  retrieveDocuments order s Version searchInput
  = (inl (matchAllTerms order {[searchInput := version s !!! searchInput]}),
     [(Version, searchInput)]).
Proof.
  unfold retrieveDocuments. attribute_switch.
  by rewrite lookup_total_empty, insert_empty.
Qed.

Lemma retrieveDocuments_unknown order s attr searchInput :
  ¬ recognized attr →
  retrieveDocuments order s attr searchInput = (inr ErrUnknownAttribute, []).
Proof.
  intros Hnot. unfold retrieveDocuments.
  repeat match goal with
    | |- context [decide (attr = ?c)] =>
        destruct (decide (attr = c)) as [->|?];
        [ exfalso; apply Hnot;
          unfold recognized, all_fields, tokenized_fields;
          rewrite !fmap_cons; cbn [fst];
          repeat (first [by left | right]) |]
    end.
  done.
Qed.

Lemma recognized_cases attr :
  recognized attr ↔ attr = Version ∨ ∃ f, (attr, f) ∈ tokenized_fields.
Proof.
  unfold recognized, all_fields. rewrite fmap_cons, elem_of_cons.
  cbn [fst]. split; (intros [?|Hin]; [by left|right]).
  - apply list_elem_of_fmap in Hin as [[a f] [-> ?]]. eauto.
  - destruct Hin as [f ?]. apply list_elem_of_fmap. by exists (attr, f).
Qed.
End QueryFacts.

(** ** Reduction of a single-field query (C4) *)

Section Reduction.
Context `{Imports}.

Lemma resultSet_of_keys (order : range_order (list positive))
    (field : gmap (list Z) (list positive)) tokens k :
  range_of order →
  k ∈ order (resultSet_of field tokens) ↔ k ∈ tokens.
Proof.
  intros Horder. rewrite (range_of_elem order Horder), resultSet_of_lookup.
  case_decide; [split; eauto | split; [by intros [? ?] | done]].
Qed.

Lemma resultSet_of_single (field : gmap (list Z) (list positive)) tokens T :
  tokens ≠ [] → (∀ t, t ∈ tokens → t = T) →
  resultSet_of field tokens = {[T := field !!! T]}.
Proof.
  intros Hne Hall. assert (HT : T ∈ tokens).
  { destruct tokens as [|t l]; [done|].
    rewrite <- (Hall t) by (by left). by left. }
  apply map_eq. intros t. rewrite resultSet_of_lookup, lookup_singleton.
  case_decide as Hin.
  - rewrite (Hall t Hin). by rewrite decide_True.
  - rewrite decide_False; [done|]. by intros <-.
Qed.

Lemma retrieveDocuments_elem (order : range_order (list positive))
    s attr f searchInput tokens md :
  (attr, f) ∈ tokenized_fields → processText searchInput = inl tokens →
  range_of order → tokens ≠ [] →
  ∃ r, (retrieveDocuments order s attr searchInput).1 = inl r
       ∧ (md ∈ r ↔ ∀ t, t ∈ tokens → md ∈ fld_get f s !!! t).
Proof.
  intros Hf Hq Horder Hne.
  rewrite (retrieveDocuments_tokenized order s attr f) by done.
  rewrite Hq. eexists. split; [done|].
  rewrite matchAllTerms_elem. split.
  - intros [_ Hk] t Ht. rewrite <- (resultSet_of_total _ tokens) by done.
    apply Hk. by apply resultSet_of_keys.
  - intros Ht. split.
    + destruct tokens as [|t l]; [done|].
      intros Hnil.
      assert (t ∈ order (resultSet_of (fld_get f s) (t :: l))) as Hin
        by (apply resultSet_of_keys; [done|by left]).
      rewrite Hnil in Hin. by apply elem_of_nil in Hin.
    + intros k Hk%resultSet_of_keys; [|done].
      rewrite resultSet_of_total by done. by apply Ht.
Qed.
End Reduction.

(** C4. A single-field search on a tokenised field, whose query normalises
    to [tokens]: no token gives the empty list; one distinct token [T]
    gives the posting list of [T]; two distinct tokens or more give the
    intersections of the posting lists, taken pairwise from the left over
    the distinct tokens in the order of [range], and that list holds the
    documents found in the posting list of every token. A reduction that
    stops at the first empty intersection returns the same list. *)
Theorem C4_query_reduction `{Imports} (order : range_order (list positive))
    (s : index) (attr : list Z) (f : field_of_index)
    (searchInput : list Z) (tokens : list (list Z)) :
  (attr, f) ∈ tokenized_fields →
  processText searchInput = inl tokens →
  range_of order →
  (tokens = [] → (retrieveDocuments order s attr searchInput).1 = inl [])
  ∧ (∀ T, tokens ≠ [] → (∀ t, t ∈ tokens → t = T) →
       (retrieveDocuments order s attr searchInput).1
       = inl (fld_get f s !!! T))
  ∧ (∀ T1 T2, T1 ∈ tokens → T2 ∈ tokens → T1 ≠ T2 →
       ∃ k0 k1 rest,
         NoDup (k0 :: k1 :: rest)
         ∧ (∀ t, t ∈ k0 :: k1 :: rest ↔ t ∈ tokens)
         ∧ (retrieveDocuments order s attr searchInput).1
           = inl (foldl (λ result k, intersection result (fld_get f s !!! k))
                        (intersection (fld_get f s !!! k0)
                                      (fld_get f s !!! k1))
                        rest)
         ∧ ∀ md, md ∈ foldl (λ result k,
                               intersection result (fld_get f s !!! k))
                            (intersection (fld_get f s !!! k0)
                                          (fld_get f s !!! k1))
                            rest
                 ↔ ∀ t, t ∈ tokens → md ∈ fld_get f s !!! t)
  ∧ (retrieveDocuments order s attr searchInput).1
    = inl (matchAllTerms_short_circuit order
             (resultSet_of (fld_get f s) tokens)).
Proof.
  intros Hf Hq Horder.
  pose proof (retrieveDocuments_tokenized order s attr f searchInput Hf)
    as Hret.
  rewrite Hq in Hret. rewrite Hret. cbn [fst].
  split; [|split; [|split]].
  - intros ->. rewrite resultSet_of_nil. unfold matchAllTerms.
    by rewrite (range_of_empty order Horder).
  - intros T Hne Hall. rewrite (resultSet_of_single _ tokens T) by done.
    unfold matchAllTerms. rewrite (range_of_singleton order Horder).
    by rewrite lookup_total_singleton_eq.
  - intros T1 T2 HT1 HT2 Hdiff.
    pose proof (range_of_NoDup order Horder
                  (resultSet_of (fld_get f s) tokens)) as Hnd.
    pose proof (λ k, resultSet_of_keys order (fld_get f s) tokens k Horder)
      as Hkeys.
    pose proof (retrieveDocuments_elem order s attr f searchInput tokens)
      as Helem.
    rewrite Hret in Helem. cbn [fst] in Helem.
    unfold matchAllTerms in *.
    destruct (order (resultSet_of (fld_get f s) tokens))
      as [|k0 [|k1 rest]] eqn:Ekeys.
    + apply Hkeys in HT1. by apply elem_of_nil in HT1.
    + apply Hkeys, list_elem_of_singleton in HT1.
      apply Hkeys, list_elem_of_singleton in HT2. congruence.
    + exists k0, k1, rest.
      assert (Hresult :
        foldl (λ result k,
                 intersection result (resultSet_of (fld_get f s) tokens !!! k))
              (intersection (resultSet_of (fld_get f s) tokens !!! k0)
                            (resultSet_of (fld_get f s) tokens !!! k1)) rest
        = foldl (λ result k, intersection result (fld_get f s !!! k))
                (intersection (fld_get f s !!! k0) (fld_get f s !!! k1))
                rest).
      { rewrite !resultSet_of_total
          by (apply Hkeys; first [by left | by right; left]).
        apply foldl_intersection_ext. intros k Hk.
        apply resultSet_of_total, Hkeys. right. by right. }
      split; [done|]. split; [done|]. split; [by rewrite Hresult|].
      intros md. rewrite <- Hresult.
      destruct (Helem md Hf Hq Horder) as (r & [= <-] & Hr); [|done].
      intros ->. by apply elem_of_nil in HT1.
  - by rewrite matchAllTerms_short_circuit_eq.
Qed.

Lemma C4_query_reduction_witness :
  (Description, f_description) ∈ tokenized_fields
  ∧ @processText excerpt_imports (str "quick blue fox")
    = inl [str "quick"; str "blue"; str "fox"]
  ∧ range_of (@canonical_order (list positive))
  ∧ (@retrieveDocuments excerpt_imports canonical_order two_documents_store
       Description (str "quick blue fox")).1
    = inl (matchAllTerms_short_circuit canonical_order
             (resultSet_of (description two_documents_store)
                [str "quick"; str "blue"; str "fox"])).
Proof.
  assert (Hf : (Description, f_description) ∈ tokenized_fields)
    by (unfold tokenized_fields; repeat (first [by left | right])).
  assert (Hq : @processText excerpt_imports (str "quick blue fox")
               = inl [str "quick"; str "blue"; str "fox"])
    by (vm_compute; reflexivity).
  split; [exact Hf|]. split; [exact Hq|].
  split; [exact canonical_order_ok|].
  exact (proj2 (proj2 (proj2
    (@C4_query_reduction excerpt_imports canonical_order two_documents_store
       Description f_description (str "quick blue fox") _
       Hf Hq canonical_order_ok)))).
Defined.

(** ** One round of indexing *)

Lemma last_test (l : list positive) (metadata : positive) :
  bool_decide (0 < length l)
  && bool_decide (l !! (length l - 1) = Some metadata) = true
  ↔ last l = Some metadata.
Proof.
  rewrite andb_true_iff, !bool_decide_eq_true, last_lookup.
  replace (pred (length l)) with (length l - 1) by lia.
  split; [by intros [_ ?]|]. intros Hl. split; [|done].
  destruct l; [done|]. simpl. lia.
Qed.

Lemma no_adjacent_dup_nil : no_adjacent_dup [].
Proof. intros i md. by rewrite lookup_nil. Qed.

Lemma no_adjacent_dup_snoc l metadata :
  no_adjacent_dup l → last l ≠ Some metadata →
  no_adjacent_dup (l ++ [metadata]).
Proof.
  intros Hl Hlast i md. destruct (decide (S i < length l)).
  - rewrite !lookup_app_l by lia. apply Hl.
  - destruct (decide (S i = length l)) as [Hi|Hi].
    + rewrite lookup_app_l by lia. rewrite lookup_app_r by lia.
      replace (S i - length l) with 0 by lia. simpl.
      intros Hmd [= ->]. apply Hlast. rewrite last_lookup.
      by replace (pred (length l)) with i by lia.
    + intros _. rewrite lookup_ge_None_2; [done|].
      rewrite length_app. simpl. lia.
Qed.

Lemma ensure_key_total (field : gmap (list Z) (list positive)) key k :
  match field !! key with
  | Some _ => field
  | None => <[key := []]> field
  end !!! k = field !!! k.
Proof.
  destruct (field !! key) eqn:E; [done|].
  rewrite !lookup_total_alt, lookup_insert. case_decide; [|done].
  subst. by rewrite E.
Qed.

Lemma indexToken_same (metadata : positive)
    (field : gmap (list Z) (list positive)) (token : list Z) :
  indexToken metadata field token !!! token
  = if decide (last (field !!! token) = Some metadata)
    then field !!! token
    else field !!! token ++ [metadata].
Proof.
  unfold indexToken. rewrite !ensure_key_total.
  destruct (bool_decide _ && bool_decide _) eqn:E.
  - apply last_test in E. rewrite decide_True by done.
    apply ensure_key_total.
  - rewrite decide_False.
    + by rewrite lookup_total_insert_eq.
    + intros Hl%last_test. congruence.
Qed.

Lemma indexToken_other (metadata : positive)
    (field : gmap (list Z) (list positive)) (token k : list Z) :
  k ≠ token → indexToken metadata field token !!! k = field !!! k.
Proof.
  intros Hne. unfold indexToken.
  destruct (bool_decide _ && bool_decide _).
  - apply ensure_key_total.
  - rewrite lookup_total_insert_ne by done. apply ensure_key_total.
Qed.

Lemma indexToken_mono (metadata : positive)
    (field : gmap (list Z) (list positive)) (token k : list Z) (x : positive) :
  x ∈ field !!! k → x ∈ indexToken metadata field token !!! k.
Proof.
  intros Hx. destruct (decide (k = token)) as [->|Hne].
  - rewrite indexToken_same. case_decide; [done|].
    apply elem_of_app. by left.
  - by rewrite indexToken_other.
Qed.

Lemma indexToken_elem (metadata : positive)
    (field : gmap (list Z) (list positive)) (token : list Z) :
  metadata ∈ indexToken metadata field token !!! token.
Proof.
  rewrite indexToken_same. case_decide as Hl.
  - rewrite last_lookup in Hl. by apply list_elem_of_lookup_2 in Hl.
  - apply elem_of_app. right. by left.
Qed.

Lemma indexToken_no_adjacent_dup (metadata : positive)
    (field : gmap (list Z) (list positive)) (token k : list Z) :
  no_adjacent_dup (field !!! k) →
  no_adjacent_dup (indexToken metadata field token !!! k).
Proof.
  intros Hk. destruct (decide (k = token)) as [->|Hne].
  - rewrite indexToken_same. case_decide; [done|].
    by apply no_adjacent_dup_snoc.
  - by rewrite indexToken_other.
Qed.

Lemma indexTokens_mono (metadata : positive)
    (field : gmap (list Z) (list positive)) (tokens : list (list Z))
    (k : list Z) (x : positive) :
  x ∈ field !!! k → x ∈ foldl (indexToken metadata) field tokens !!! k.
Proof.
  revert field. induction tokens as [|t l IH]; intros field Hx; simpl;
    [done|].
  by apply IH, indexToken_mono.
Qed.

Lemma indexTokens_elem (metadata : positive)
    (field : gmap (list Z) (list positive)) (tokens : list (list Z))
    (T : list Z) :
  T ∈ tokens → metadata ∈ foldl (indexToken metadata) field tokens !!! T.
Proof.
  revert field. induction tokens as [|t l IH]; intros field HT; simpl.
  - by apply elem_of_nil in HT.
  - apply elem_of_cons in HT as [->|HT]; [|by apply IH].
    apply indexTokens_mono, indexToken_elem.
Qed.

Lemma indexTokens_no_adjacent_dup (metadata : positive)
    (field : gmap (list Z) (list positive)) (tokens : list (list Z)) :
  (∀ k, no_adjacent_dup (field !!! k)) →
  ∀ k, no_adjacent_dup (foldl (indexToken metadata) field tokens !!! k).
Proof.
  revert field. induction tokens as [|t l IH]; intros field Hf; simpl;
    [done|].
  apply IH. intros k. by apply indexToken_no_adjacent_dup.
Qed.

Lemma indexTokens_other (metadata : positive)
    (field : gmap (list Z) (list positive)) (tokens : list (list Z))
    (k : list Z) :
  k ∉ tokens → foldl (indexToken metadata) field tokens !!! k = field !!! k.
Proof.
  revert field. induction tokens as [|t l IH]; intros field Hk; simpl;
    [done|].
  apply not_elem_of_cons in Hk as [? ?].
  rewrite IH by done. by apply indexToken_other.
Qed.

Section IndexFieldFacts.
Context `{Imports}.

Lemma indexField_error (text : list Z)
    (field : gmap (list Z) (list positive)) (metadata : positive)
    tokenize_ field' err :
  indexField text field metadata tokenize_ = (field', Some err) →
  field' = field ∧ tokenize_ = true ∧ processText text = inr err.
Proof.
  unfold indexField. destruct tokenize_; [|done].
  destruct (processText text); [done|]. by intros [= <- <-].
Qed.

Lemma indexField_tokens (text : list Z)
    (field : gmap (list Z) (list positive)) (metadata : positive) field' :
  indexField text field metadata true = (field', None) →
  ∃ tokens, processText text = inl tokens
            ∧ field' = foldl (indexToken metadata) field tokens.
Proof.
  unfold indexField. destruct (processText text) as [tokens|]; [|done].
  intros [= <-]. eauto.
Qed.

Lemma indexField_exact (text : list Z)
    (field : gmap (list Z) (list positive)) (metadata : positive) :
  ∃ field', indexField text field metadata false = (field', None)
    ∧ field' !!! text = field !!! text ++ [metadata]
    ∧ ∀ k, k ≠ text → field' !!! k = field !!! k.
Proof.
  unfold indexField. eexists. split; [done|].
  rewrite lookup_total_insert_eq, ensure_key_total. split; [done|].
  intros k Hk. rewrite lookup_total_insert_ne by done.
  apply ensure_key_total.
Qed.

Lemma indexField_mono (text : list Z)
    (field : gmap (list Z) (list positive)) (metadata : positive)
    tokenize_ field' err (k : list Z) (x : positive) :
  indexField text field metadata tokenize_ = (field', err) →
  x ∈ field !!! k → x ∈ field' !!! k.
Proof.
  destruct err as [e|].
  - by intros [-> _]%indexField_error.
  - destruct tokenize_.
    + intros (tokens & _ & ->)%indexField_tokens.
      apply indexTokens_mono.
    + destruct (indexField_exact text field metadata)
        as (f' & -> & Hsame & Hother).
      intros [= <-] Hx. destruct (decide (k = text)) as [->|Hne].
      * rewrite Hsame. apply elem_of_app. by left.
      * by rewrite Hother.
Qed.
End IndexFieldFacts.

(** ** The nine stores of the index *)

(** The cases of a hypothesis [H : (a, f) ∈ all_fields] (or
    [tokenized_fields]). *)
Ltac field_cases H :=
  unfold all_fields, tokenized_fields in H;
  repeat (apply elem_of_cons in H as [H|H];
          [ injection H; clear H; intros; subst;
            try solve [ exfalso;
                        match goal with
                        | E : _ = _ |- _ =>
                            vm_compute in E; discriminate E
                        end ] |]);
  try (by apply elem_of_nil in H).

Lemma tokenized_fields_all a f :
  (a, f) ∈ tokenized_fields → (a, f) ∈ all_fields.
Proof. intros ?. by right. Qed.

Lemma tokenized_fields_not_version a f :
  (a, f) ∈ tokenized_fields → a ≠ Version.
Proof. intros Hf ->. field_cases Hf. Qed.

Lemma all_fields_cases a f :
  (a, f) ∈ all_fields →
  (a = Version ∧ f = f_version) ∨ (a, f) ∈ tokenized_fields.
Proof. intros [[= -> ->]|?]%elem_of_cons; auto. Qed.

Lemma all_fields_functional a f g :
  (a, f) ∈ all_fields → (a, g) ∈ all_fields → f = g.
Proof. intros Hf Hg. field_cases Hf; field_cases Hg; reflexivity. Qed.

Lemma fld_get_set_same a f v s :
  (a, f) ∈ all_fields → fld_get f (fld_set f v s) = v.
Proof. intros Hf. field_cases Hf; reflexivity. Qed.

Lemma fld_get_set_other a f b g v s :
  (a, f) ∈ all_fields → (b, g) ∈ all_fields → a ≠ b →
  fld_get g (fld_set f v s) = fld_get g s.
Proof.
  intros Hf Hg Hne. field_cases Hf; field_cases Hg;
    first [reflexivity | by destruct Hne].
Qed.

Lemma fld_set_get a f s :
  (a, f) ∈ all_fields → fld_set f (fld_get f s) s = s.
Proof. intros Hf. destruct s. field_cases Hf; reflexivity. Qed.

(** ** The steps of [AddMetadata] *)

Lemma steps_after_version_tokenized md :
  Forall tokenized_step (steps_after_version md).
Proof.
  unfold steps_after_version. apply Forall_app_2.
  - induction (Metadata_Maintainers md) as [|m l IH]; csimpl; [constructor|].
    constructor; [|constructor; [|exact IH]];
      (split; [|done]); cbn [fst snd]; unfold tokenized_fields;
      repeat (first [by left | right]).
  - repeat (constructor;
      [split; [|done]; cbn [fst snd]; unfold tokenized_fields;
       repeat (first [by left | right])|]).
    constructor.
Qed.

Lemma tokenized_step_ok st : tokenized_step st → step_ok st.
Proof.
  destruct st as [[[a f] text] tok]. intros [Hf Htok]. cbn [fst snd] in *.
  subst tok. split; [by right|]. cbn [fst snd].
  split; [done|]. intros ->. by apply tokenized_fields_not_version in Hf.
Qed.

Lemma indexing_steps_ok md : Forall step_ok (indexing_steps md).
Proof.
  unfold indexing_steps. apply Forall_app_2.
  - constructor; [|constructor; [|constructor]].
    + apply tokenized_step_ok. split; [|done]. unfold tokenized_fields.
      by left.
    + split; [by left|done].
  - eapply Forall_impl; [apply steps_after_version_tokenized|].
    apply tokenized_step_ok.
Qed.

Section StepFacts.
Context `{Imports}.

Lemma runSteps_app metadata l1 l2 s :
  runSteps metadata (l1 ++ l2) s
  = (runSteps metadata l1 >>- runSteps metadata l2) s.
Proof.
  revert s. induction l1 as [|[[[a f] text] tok] l1 IH]; intros s; simpl.
  - reflexivity.
  - unfold andThen in *. destruct (indexInto f text metadata tok s)
      as [s1 [e|]]; [reflexivity|]. apply IH.
Qed.

Lemma indexMaintainers_steps maintainers metadata s :
  indexMaintainers maintainers metadata s
  = runSteps metadata
      (maintainers ≫= λ maintainer,
         [ (MaintainerName, f_maintainerName, Maintainer_Name maintainer,
            true);
           (MaintainerEmail, f_maintainerEmail,
            Maintainer_Email maintainer, true) ]) s.
Proof.
  revert s. induction maintainers as [|m l IH]; intros s; csimpl; [done|].
  unfold andThen.
  destruct (indexInto f_maintainerName _ metadata true s) as [s1 [e|]];
    [done|].
  destruct (indexInto f_maintainerEmail _ metadata true s1) as [s2 [e|]];
    [done|].
  apply IH.
Qed.

Lemma andThen_cong (m k k' : Update) s :
  (∀ s', k s' = k' s') → (m >>- k) s = (m >>- k') s.
Proof. intros Hk. unfold andThen. destruct (m s) as [s' [e|]]; auto. Qed.

Lemma andThen_cong_l (m m' k : Update) s :
  m s = m' s → (m >>- k) s = (m' >>- k) s.
Proof. intros Hm. unfold andThen. by rewrite Hm. Qed.

Lemma andThen_unit_r (m : Update) s : (m >>- λ s', (s', None)) s = m s.
Proof. unfold andThen. by destruct (m s) as [s' [e|]]. Qed.

Lemma AddMetadata_steps s metadata md :
  AddMetadata s metadata md = runSteps metadata (indexing_steps md) s.
Proof.
  unfold AddMetadata, indexing_steps, steps_after_version.
  cbn [app runSteps].
  apply andThen_cong. intros s1. apply andThen_cong. intros s2.
  rewrite runSteps_app.
  etrans; [apply andThen_cong_l, indexMaintainers_steps|].
  apply andThen_cong. intros s3. cbn [runSteps].
  do 4 (apply andThen_cong; intros ?).
  symmetry. apply andThen_unit_r.
Qed.
End StepFacts.

Section RunFacts.
Context `{Imports}.

Lemma indexInto_eq f text metadata tokenize_ s s' err :
  indexInto f text metadata tokenize_ s = (s', err) →
  ∃ field', indexField text (fld_get f s) metadata tokenize_ = (field', err)
            ∧ s' = fld_set f field' s.
Proof.
  unfold indexInto.
  destruct (indexField text (fld_get f s) metadata tokenize_) as [field' e].
  intros [= <- <-]. eauto.
Qed.

Lemma indexInto_mono a f text metadata tokenize_ s s' err b g
    (k : list Z) (x : positive) :
  (a, f) ∈ all_fields → (b, g) ∈ all_fields →
  indexInto f text metadata tokenize_ s = (s', err) →
  x ∈ fld_get g s !!! k → x ∈ fld_get g s' !!! k.
Proof.
  intros Hf Hg (field' & Hfield & ->)%indexInto_eq Hx.
  destruct (decide (a = b)) as [<-|Hne].
  - rewrite (all_fields_functional a g f Hg Hf) in *.
    rewrite (fld_get_set_same a) by done.
    by eapply indexField_mono.
  - by rewrite (fld_get_set_other a f b g).
Qed.

Lemma runSteps_mono metadata steps s s' err b g
    (k : list Z) (x : positive) :
  Forall step_ok steps → (b, g) ∈ all_fields →
  runSteps metadata steps s = (s', err) →
  x ∈ fld_get g s !!! k → x ∈ fld_get g s' !!! k.
Proof.
  intros Hok Hg. revert s.
  induction Hok as [|[[[a f] text] tok] steps [Hf _] Hok IH]; intros s;
    simpl.
  - by intros [= <- <-].
  - unfold andThen. cbn [fst snd] in *.
    destruct (indexInto f text metadata tok s) as [s1 [e|]] eqn:E.
    + intros [= <- <-] Hx.
      by apply (indexInto_mono a f text metadata tok s s1 (Some e) b g).
    + intros Hrest Hx. eapply IH; [done|].
      by apply (indexInto_mono a f text metadata tok s s1 None b g).
Qed.

Lemma runSteps_elem metadata steps s s' F f V tokens T :
  Forall step_ok steps →
  runSteps metadata steps s = (s', None) →
  (F, f, V, true) ∈ steps →
  processText V = inl tokens → T ∈ tokens →
  metadata ∈ fld_get f s' !!! T.
Proof.
  intros Hok. revert s.
  induction Hok as [|[[[a g] text] tok] steps [Hg Htok] Hok IH]; intros s;
    simpl.
  - intros _ Hin. by apply elem_of_nil in Hin.
  - unfold andThen. cbn [fst snd] in *.
    destruct (indexInto g text metadata tok s) as [s1 [e|]] eqn:E; [done|].
    intros Hrest [Heq|Hin]%elem_of_cons Hq HT.
    + injection Heq as <- <- <- <-.
      eapply runSteps_mono; [exact Hok|exact Hg|exact Hrest|].
      apply indexInto_eq in E as (field' & Hfield & ->).
      rewrite (fld_get_set_same F) by done.
      apply indexField_tokens in Hfield as (tokens' & Hq' & ->).
      rewrite Hq in Hq'. injection Hq' as <-.
      by apply indexTokens_elem.
    + by eapply IH.
Qed.

Lemma runSteps_error metadata steps s s' err :
  Forall step_ok steps →
  runSteps metadata steps s = (s', Some err) →
  ∃ done F f text rest,
    steps = done ++ (F, f, text, true) :: rest
    ∧ processText text = inr err
    ∧ runSteps metadata done s = (s', None)
    ∧ indexField text (fld_get f s') metadata true
      = (fld_get f s', Some err).
Proof.
  intros Hok. revert s.
  induction Hok as [|[[[a g] text] tok] steps [Hg Htok] Hok IH]; intros s;
    simpl; [done|].
  unfold andThen. cbn [fst snd] in *.
  destruct (indexInto g text metadata tok s) as [s1 [e|]] eqn:E.
  - intros [= <- <-].
    apply indexInto_eq in E as (field' & Hfield & ->).
    pose proof Hfield as Hfield'.
    apply indexField_error in Hfield as (-> & -> & Hq).
    rewrite (fld_set_get a) in * by done.
    exists [], a, g, text, steps. by repeat split.
  - intros (done & F & f & text' & rest & -> & Hq & Hdone & Hfail)%IH.
    exists ((a, g, text, tok) :: done), F, f, text', rest.
    repeat split; try done. simpl. unfold andThen. by rewrite E.
Qed.

(** The state of the tokenised stores that indexing preserves. *)
Lemma runSteps_no_adjacent_dup metadata steps s s' err :
  Forall step_ok steps →
  runSteps metadata steps s = (s', err) →
  (∀ b g k, (b, g) ∈ tokenized_fields →
            no_adjacent_dup (fld_get g s !!! k)) →
  ∀ b g k, (b, g) ∈ tokenized_fields → no_adjacent_dup (fld_get g s' !!! k).
Proof.
  intros Hok. revert s.
  induction Hok as [|[[[a f] text] tok] steps [Hf Htok] Hok IH]; intros s;
    simpl.
  - by intros [= <- <-].
  - unfold andThen. cbn [fst snd] in *.
    destruct (indexInto f text metadata tok s) as [s1 [e|]] eqn:E.
    + intros [= <- <-].
      apply indexInto_eq in E as (field' & Hfield & ->).
      apply indexField_error in Hfield as (-> & _ & _).
      by rewrite (fld_set_get a) by done.
    + intros Hrest Hinv. eapply IH; [done|]. clear Hrest IH.
      intros b g k Hg.
      apply indexInto_eq in E as (field' & Hfield & ->).
      destruct (decide (a = b)) as [<-|Hne].
      * rewrite (all_fields_functional a g f) in *
          by (done || by apply tokenized_fields_all).
        rewrite (fld_get_set_same a) by done.
        destruct tok.
        -- apply indexField_tokens in Hfield as (tokens & _ & ->).
           apply indexTokens_no_adjacent_dup. intros k'.
           by apply (Hinv a).
        -- destruct (tokenized_fields_not_version a f Hg).
           by apply Htok.
      * rewrite (fld_get_set_other a f b g)
          by (done || by apply tokenized_fields_all).
        by apply (Hinv b).
Qed.

Lemma runSteps_version_untouched metadata steps s s' err :
  Forall tokenized_step steps →
  runSteps metadata steps s = (s', err) →
  version s' = version s.
Proof.
  intros Hok. revert s.
  induction Hok as [|[[[a f] text] tok] steps [Hf _] Hok IH]; intros s;
    simpl.
  - by intros [= <- <-].
  - unfold andThen. cbn [fst snd] in *.
    destruct (indexInto f text metadata tok s) as [s1 [e|]] eqn:E;
      apply indexInto_eq in E as (field' & _ & ->).
    + intros [= <- <-].
      apply (fld_get_set_other a f Version f_version);
        [by right | by left | by apply tokenized_fields_not_version in Hf].
    + intros ->%IH.
      apply (fld_get_set_other a f Version f_version);
        [by right | by left | by apply tokenized_fields_not_version in Hf].
Qed.

Lemma AddMetadata_mono s metadata md b g (k : list Z) (x : positive) :
  (b, g) ∈ all_fields →
  x ∈ fld_get g s !!! k →
  x ∈ fld_get g (AddMetadata s metadata md).1 !!! k.
Proof.
  intros Hg. rewrite AddMetadata_steps.
  destruct (runSteps metadata (indexing_steps md) s) as [s' e] eqn:E.
  intros Hx. cbn [fst].
  by apply (runSteps_mono metadata (indexing_steps md) s s' e b g);
    [apply indexing_steps_ok|..].
Qed.

Lemma AddAll_mono s docs b g (k : list Z) (x : positive) :
  (b, g) ∈ all_fields →
  x ∈ fld_get g s !!! k → x ∈ fld_get g (AddAll s docs) !!! k.
Proof.
  intros Hg. revert s. induction docs as [|d docs IH]; intros s Hx; simpl;
    [done|].
  apply IH. by apply (AddMetadata_mono s d.1 d.2 b g).
Qed.
End RunFacts.

(** ** Indexing, then searching (C1) *)

Lemma step_tokenized_field md F f V :
  (F, f, V, true) ∈ indexing_steps md → (F, f) ∈ tokenized_fields.
Proof.
  intros Hin.
  pose proof (proj1 (Forall_forall _ _) (indexing_steps_ok md) _ Hin)
    as [Hf Htok].
  cbn [fst snd] in *. apply all_fields_cases in Hf as [[-> _]|?]; [|done].
  by pose proof (proj2 Htok eq_refl).
Qed.

(** C1, as amended. A document [metadata] has been added without error;
    [V] is the text of one of its tokenised fields [F], and [T] one of the
    tokens of [V] that normalisation maps to itself. Then every later
    search of [F] for [T], whatever has been submitted in between, returns
    a list that holds [metadata]. *)
Theorem C1_roundtrip_of_stable_tokens `{Imports}
    (order : range_order (list positive)) (s s' : index)
    (metadata : positive) (md : Metadata)
    (later : list (positive * Metadata))
    (F : list Z) (f : field_of_index) (V : list Z)
    (tokens : list (list Z)) (T : list Z) :
  AddMetadata s metadata md = (s', None) →
  (F, f, V, true) ∈ indexing_steps md →
  processText V = inl tokens → T ∈ tokens →
  processText T = inl [T] →
  range_of order →
  ∃ r, (retrieveDocuments order (AddAll s' later) F T).1 = inl r
       ∧ metadata ∈ r.
Proof.
  intros Hadd Hstep HV HT Hstable Horder.
  pose proof (step_tokenized_field md F f V Hstep) as Hf.
  assert (Hs' : metadata ∈ fld_get f s' !!! T).
  { rewrite AddMetadata_steps in Hadd.
    eapply runSteps_elem; [apply indexing_steps_ok|done..]. }
  destruct (retrieveDocuments_elem order (AddAll s' later) F f T [T] metadata)
    as (r & Hr & Hiff); [done..|].
  exists r. split; [done|]. apply Hiff.
  intros t ->%list_elem_of_singleton.
  apply (AddAll_mono s' later F f); [by apply tokenized_fields_all|done].
Qed.

Lemma C1_roundtrip_of_stable_tokens_witness :
  @AddMetadata excerpt_imports NewStorage 1%positive app_title_1
  = ((@AddMetadata excerpt_imports NewStorage 1%positive app_title_1).1, None)
  ∧ (Title, f_title, str "App title 1", true) ∈ indexing_steps app_title_1
  ∧ @processText excerpt_imports (str "App title 1")
    = inl [str "app"; str "title"; str "1"]
  ∧ @processText excerpt_imports (str "title") = inl [str "title"]
  ∧ ∃ r, (@retrieveDocuments excerpt_imports canonical_order
            (@AddAll excerpt_imports
               (@AddMetadata excerpt_imports NewStorage 1%positive
                  app_title_1).1
               [(2%positive, app_title_2)])
            Title (str "title")).1 = inl r
         ∧ 1%positive ∈ r.
Proof.
  assert (Hadd :
    @AddMetadata excerpt_imports NewStorage 1%positive app_title_1
    = ((@AddMetadata excerpt_imports NewStorage 1%positive app_title_1).1,
       None))
    by (vm_compute; reflexivity).
  assert (Hstep : (Title, f_title, str "App title 1", true)
                  ∈ indexing_steps app_title_1)
    by (unfold indexing_steps; left).
  assert (HV : @processText excerpt_imports (str "App title 1")
               = inl [str "app"; str "title"; str "1"])
    by (vm_compute; reflexivity).
  assert (Hin : str "title" ∈ [str "app"; str "title"; str "1"])
    by (right; left).
  assert (HT : @processText excerpt_imports (str "title") = inl [str "title"])
    by (vm_compute; reflexivity).
  split; [exact Hadd|]. split; [exact Hstep|].
  split; [exact HV|]. split; [exact HT|].
  exact (@C1_roundtrip_of_stable_tokens excerpt_imports canonical_order
           NewStorage _ 1%positive app_title_1 [(2%positive, app_title_2)]
           Title f_title (str "App title 1")
           [str "app"; str "title"; str "1"] (str "title")
           Hadd Hstep HV Hin HT canonical_order_ok).
Defined.

(** Whatever the rest of the stemmer does: if it stems "its" to "it", the
    title "its" is normalised to the token "it", and no search of the title
    for "it" finds anything, in any store. *)
Lemma its_is_not_found `{Imports} :
  snowball_Stem (str "its") (str "english") true = inl (str "it") →
  processText (str "its") = inl [str "it"]
  ∧ ∀ (order : range_order (list positive)) (s : index),
      range_of order →
      (retrieveDocuments order s Title (str "it")).1 = inl [].
Proof.
  intros Hstem. split.
  - unfold processText, stem.
    replace (removeCommonWords (toLowercase (tokenize (str "its"))))
      with [str "its"] by (vm_compute; reflexivity).
    cbn [stem_loop]. by rewrite Hstem.
  - intros order s Horder.
    rewrite (retrieveDocuments_tokenized order s Title f_title)
      by (unfold tokenized_fields; by left).
    assert (removeCommonWords (toLowercase (tokenize (str "it"))) = [])
      as Hdropped by (vm_compute; reflexivity).
    unfold processText, stem. rewrite Hdropped.
    cbn [stem_loop fst]. rewrite resultSet_of_nil. unfold matchAllTerms.
    by rewrite (range_of_empty order Horder).
Qed.

(** C1, the claim as stated fails: the word "its" is stemmed to "it", the
    document is posted under the token "it", and a search for "it" drops
    the query as a stopword and returns nothing. *)
Lemma C1_counterexample :
  (@AddMetadata excerpt_imports NewStorage 1%positive
     (document "its" "1.0.0" "text")).2 = None
  ∧ Metadata_Title (document "its" "1.0.0" "text") = str "its"
  ∧ @processText excerpt_imports (str "its") = inl [str "it"]
  ∧ title (@AddMetadata excerpt_imports NewStorage 1%positive
             (document "its" "1.0.0" "text")).1 !!! str "it" = [1%positive]
  ∧ @retrieveDocuments excerpt_imports canonical_order
      (@AddMetadata excerpt_imports NewStorage 1%positive
         (document "its" "1.0.0" "text")).1
      Title (str "it")
    = (inl [], []).
Proof. repeat split; vm_compute; reflexivity. Qed.

(** ** Duplicates in a posting list (C5) *)

Lemma last_snoc_decide (l : list positive) (metadata : positive) :
  last (if decide (last l = Some metadata) then l else l ++ [metadata])
  = Some metadata.
Proof. case_decide; [done|]. apply last_snoc. Qed.

Lemma indexTokens_same (metadata : positive)
    (field : gmap (list Z) (list positive)) (tokens : list (list Z))
    (T : list Z) :
  T ∈ tokens →
  foldl (indexToken metadata) field tokens !!! T
  = if decide (last (field !!! T) = Some metadata)
    then field !!! T
    else field !!! T ++ [metadata].
Proof.
  revert field. induction tokens as [|t l IH]; intros field HT; simpl.
  - by apply elem_of_nil in HT.
  - destruct (decide (t = T)) as [->|Hne].
    + destruct (decide (T ∈ l)) as [Hl|Hl].
      * rewrite IH by done. rewrite indexToken_same.
        by rewrite decide_True by apply last_snoc_decide.
      * rewrite indexTokens_other by done. apply indexToken_same.
    + apply elem_of_cons in HT as [->|HT]; [done|].
      rewrite IH by done. by rewrite indexToken_other.
Qed.

Section Duplicates.
Context `{Imports}.

Lemma indexField_posting (text : list Z)
    (field : gmap (list Z) (list positive)) (metadata : positive)
    (tokens : list (list Z)) (T : list Z) :
  processText text = inl tokens →
  (indexField text field metadata true).1 !!! T
  = if decide (T ∈ tokens)
    then if decide (last (field !!! T) = Some metadata)
         then field !!! T
         else field !!! T ++ [metadata]
    else field !!! T.
Proof.
  intros Hq. unfold indexField. rewrite Hq. cbn [fst]. case_decide.
  - by apply indexTokens_same.
  - by apply indexTokens_other.
Qed.

Lemma indexField_fresh (text : list Z)
    (field : gmap (list Z) (list positive)) (metadata : positive)
    (tokens : list (list Z)) (T : list Z) (l : list positive) :
  processText text = inl tokens → T ∈ tokens →
  field !!! T = l → last l ≠ Some metadata →
  (indexField text field metadata true).1 !!! T = l ++ [metadata].
Proof.
  intros Hq HT Hl Hlast. rewrite (indexField_posting text _ _ tokens) by done.
  rewrite decide_True by done. rewrite Hl. by rewrite decide_False.
Qed.

Lemma NewStorage_no_adjacent_dup b g (k : list Z) :
  (b, g) ∈ tokenized_fields → no_adjacent_dup (fld_get g NewStorage !!! k).
Proof.
  intros Hg.
  assert (fld_get g NewStorage = ∅) as -> by (field_cases Hg; reflexivity).
  rewrite lookup_total_empty. apply no_adjacent_dup_nil.
Qed.

Lemma AddAll_no_adjacent_dup s docs :
  (∀ b g k, (b, g) ∈ tokenized_fields →
            no_adjacent_dup (fld_get g s !!! k)) →
  ∀ b g k, (b, g) ∈ tokenized_fields →
           no_adjacent_dup (fld_get g (AddAll s docs) !!! k).
Proof.
  revert s. induction docs as [|d docs IH]; intros s Hs; simpl; [done|].
  apply IH.
  destruct (AddMetadata s d.1 d.2) as [s' e] eqn:E. cbn [fst].
  rewrite AddMetadata_steps in E.
  by eapply runSteps_no_adjacent_dup; [apply indexing_steps_ok|..].
Qed.
End Duplicates.

(** C5. Indexing a tokenised field appends the document to the posting
    list of each token of the text unless the document is the last entry
    of that list, and leaves every other list as it is. So, in a store
    built from [NewStorage] by submissions, no posting list of a tokenised
    field holds a document at two consecutive positions; and a list does
    hold a document twice when another document was posted in between. *)
Theorem C5_adjacent_duplicates_only `{Imports} :
  (∀ (text : list Z) (field : gmap (list Z) (list positive))
     (metadata : positive) (tokens : list (list Z)) (T : list Z),
     processText text = inl tokens →
     (indexField text field metadata true).1 !!! T
     = if decide (T ∈ tokens)
       then if decide (last (field !!! T) = Some metadata)
            then field !!! T
            else field !!! T ++ [metadata]
       else field !!! T)
  ∧ (∀ (docs : list (positive * Metadata)) (F : list Z) (f : field_of_index)
       (key : list Z),
       (F, f) ∈ tokenized_fields →
       no_adjacent_dup (fld_get f (AddAll NewStorage docs) !!! key))
  ∧ (∀ (text : list Z) (tokens : list (list Z)) (T : list Z)
       (d1 d2 : positive),
       processText text = inl tokens → T ∈ tokens → d1 ≠ d2 →
       (indexField text
          (indexField text (indexField text ∅ d1 true).1 d2 true).1
          d1 true).1 !!! T
       = [d1; d2; d1]).
Proof.
  split; [apply @indexField_posting|]. split.
  - intros docs F f key Hf. apply (AddAll_no_adjacent_dup NewStorage docs)
      with (b := F); [|done].
    intros b g k. apply NewStorage_no_adjacent_dup.
  - intros text tokens T d1 d2 Hq HT Hne.
    apply (indexField_fresh text _ d1 tokens T [d1; d2]);
      [done|done| |simpl; congruence].
    apply (indexField_fresh text _ d2 tokens T [d1]);
      [done|done| |simpl; congruence].
    apply (indexField_fresh text _ d1 tokens T []);
      [done|done|by rewrite lookup_total_empty|done].
Qed.

Lemma C5_adjacent_duplicates_only_witness :
  (Title, f_title) ∈ tokenized_fields
  ∧ title (@AddAll excerpt_imports NewStorage resubmitted_documents)
      !!! str "app" = [1%positive; 2%positive; 1%positive]
  ∧ no_adjacent_dup
      (title (@AddAll excerpt_imports NewStorage resubmitted_documents)
         !!! str "app").
Proof.
  assert (Hf : (Title, f_title) ∈ tokenized_fields)
    by (unfold tokenized_fields; left).
  split; [exact Hf|]. split; [vm_compute; reflexivity|].
  exact (proj1 (proj2 (@C5_adjacent_duplicates_only excerpt_imports))
           resubmitted_documents Title f_title (str "app") Hf).
Defined.

(** ** The version field (C6) *)

Section VersionFacts.
Context `{Imports}.

Lemma AddMetadata_version s metadata md s' (q : list Z) :
  AddMetadata s metadata md = (s', None) →
  version s' !!! q
  = version s !!! q
    ++ (if decide (Metadata_Version md = q) then [metadata] else []).
Proof.
  rewrite AddMetadata_steps. unfold indexing_steps. cbn [app runSteps].
  unfold andThen at 1.
  destruct (indexInto f_title _ metadata true s) as [s1 [e|]] eqn:E1;
    [done|].
  apply indexInto_eq in E1 as (field1 & _ & ->).
  unfold andThen at 1.
  destruct (indexInto f_version _ metadata false _) as [s2 [e|]] eqn:E2;
    [done|].
  apply indexInto_eq in E2 as (field2 & Hfield2 & ->).
  intros Hrest.
  apply runSteps_version_untouched in Hrest;
    [|apply steps_after_version_tokenized].
  rewrite Hrest. cbn [fld_get fld_set f_version f_title] in *.
  cbn [version set_version set_title] in *.
  destruct (indexField_exact (Metadata_Version md) (version s) metadata)
    as (field' & Hfield' & Hsame & Hother).
  rewrite Hfield' in Hfield2. injection Hfield2 as <-.
  case_decide as Hq.
  - by rewrite <- Hq, Hsame.
  - rewrite Hother by done. by rewrite app_nil_r.
Qed.

Lemma AddUntilError_version s docs s' (q : list Z) :
  AddUntilError s docs = (s', None) →
  version s' !!! q
  = version s !!! q
    ++ (filter (λ d, Metadata_Version d.2 = q) docs).*1.
Proof.
  revert s. induction docs as [|d docs IH]; intros s; simpl.
  - intros [= <-]. by rewrite app_nil_r.
  - destruct (AddMetadata s d.1 d.2) as [s1 [e|]] eqn:E; [done|].
    intros Hrest. rewrite (IH s1 Hrest).
    rewrite (AddMetadata_version s d.1 d.2 s1 q E), filter_cons.
    case_decide; by rewrite <- app_assoc.
Qed.
End VersionFacts.

(** C6. The version field is matched exactly. Indexing without
    tokenisation appends the document under the text itself and touches no
    other key; a search of the version field reads the one key that is the
    raw query and returns its posting list; and when documents have been
    submitted without error to a new store, that list is made of the
    documents whose version is the query, in the order of submission. *)
Theorem C6_version_exact_match `{Imports} :
  (∀ (text : list Z) (field : gmap (list Z) (list positive))
     (metadata : positive),
     ∃ field', indexField text field metadata false = (field', None)
       ∧ field' !!! text = field !!! text ++ [metadata]
       ∧ ∀ k, k ≠ text → field' !!! k = field !!! k)
  ∧ (∀ (order : range_order (list positive)) (s : index) (q : list Z),
       range_of order →
       retrieveDocuments order s Version q
       = (inl (version s !!! q), [(Version, q)]))
  ∧ (∀ (order : range_order (list positive))
       (docs : list (positive * Metadata)) (s' : index) (q : list Z),
       range_of order →
       AddUntilError NewStorage docs = (s', None) →
       (retrieveDocuments order s' Version q).1
       = inl (filter (λ d, Metadata_Version d.2 = q) docs).*1).
Proof.
  assert (Hsearch : ∀ (order : range_order (list positive)) s q,
            range_of order →
            retrieveDocuments order s Version q
            = (inl (version s !!! q), [(Version, q)])).
  { intros order s q Horder. rewrite retrieveDocuments_version.
    unfold matchAllTerms. rewrite (range_of_singleton order Horder).
    by rewrite lookup_total_singleton_eq. }
  split; [apply @indexField_exact|]. split; [exact Hsearch|].
  intros order docs s' q Horder Hadd. rewrite Hsearch by done. cbn [fst].
  rewrite (AddUntilError_version NewStorage docs s' q Hadd).
  change (version NewStorage) with (∅ : gmap (list Z) (list positive)).
  by rewrite lookup_total_empty.
Qed.

Lemma C6_version_exact_match_witness :
  range_of (@canonical_order (list positive))
  ∧ @AddUntilError excerpt_imports NewStorage two_documents
    = (two_documents_store, None)
  ∧ (@retrieveDocuments excerpt_imports canonical_order two_documents_store
       Version (str "1.0.0")).1 = inl [1%positive]
  ∧ (@retrieveDocuments excerpt_imports canonical_order two_documents_store
       Version (str "1.0")).1 = inl [].
Proof.
  assert (Hadd : @AddUntilError excerpt_imports NewStorage two_documents
                 = (two_documents_store, None))
    by (vm_compute; reflexivity).
  split; [exact canonical_order_ok|]. split; [exact Hadd|].
  split.
  - exact (proj2 (proj2 (@C6_version_exact_match excerpt_imports))
             canonical_order two_documents two_documents_store (str "1.0.0")
             canonical_order_ok Hadd).
  - exact (proj2 (proj2 (@C6_version_exact_match excerpt_imports))
             canonical_order two_documents two_documents_store (str "1.0")
             canonical_order_ok Hadd).
Defined.

(** ** What a search returns *)

Section SearchFacts.
Context `{Imports}.

Lemma retrieveDocuments_inr (order : range_order (list positive))
    s attr searchInput err :
  (retrieveDocuments order s attr searchInput).1 = inr err
  ↔ query_fails attr searchInput err.
Proof.
  unfold query_fails. destruct (decide (recognized attr)) as [Hrec|Hrec].
  - apply recognized_cases in Hrec as Hcase.
    destruct Hcase as [->|[f Hf]].
    + rewrite retrieveDocuments_version. cbn [fst]. split; [done|].
      intros [[? _]|[f [Hf _]]]; [done|].
      by apply tokenized_fields_not_version in Hf.
    + rewrite (retrieveDocuments_tokenized order s attr f) by done.
      destruct (processText searchInput) as [tokens|e] eqn:Hq; cbn [fst].
      * split; [done|]. intros [[? _]|[g [_ ?]]]; done.
      * split.
        -- intros [= ->]. right. eauto.
        -- intros [[? _]|[g [_ [= ->]]]]; done.
  - rewrite retrieveDocuments_unknown by done. cbn [fst]. split.
    + intros [= <-]. by left.
    + intros [[_ ->]|[f [Hf _]]]; [done|].
      destruct Hrec. apply recognized_cases. eauto.
Qed.

Lemma retrieveDocuments_no_token (order : range_order (list positive))
    s attr f searchInput :
  (attr, f) ∈ tokenized_fields → processText searchInput = inl [] →
  range_of order →
  (retrieveDocuments order s attr searchInput).1 = inl [].
Proof.
  intros Hf Hq Horder.
  rewrite (retrieveDocuments_tokenized order s attr f) by done.
  rewrite Hq. cbn [fst]. rewrite resultSet_of_nil. unfold matchAllTerms.
  by rewrite (range_of_empty order Horder).
Qed.

Lemma retrieveDocuments_inl (order : range_order (list positive))
    s attr searchInput r :
  range_of order →
  (retrieveDocuments order s attr searchInput).1 = inl r →
  ∀ md, md ∈ r ↔ matches s attr searchInput md.
Proof.
  intros Horder Hr md. unfold matches.
  destruct (decide (recognized attr)) as [Hrec|Hrec].
  - apply recognized_cases in Hrec as [->|[f Hf]].
    + rewrite retrieveDocuments_version in Hr. cbn [fst] in Hr.
      unfold matchAllTerms in Hr.
      rewrite (range_of_singleton order Horder) in Hr.
      rewrite lookup_total_singleton_eq in Hr. injection Hr as <-.
      split; [by left|]. intros [[_ ?]|(f & ? & Hf & _)]; [done|].
      by apply tokenized_fields_not_version in Hf.
    + pose proof (tokenized_fields_not_version attr f Hf) as Hnv.
      destruct (processText searchInput) as [tokens|e] eqn:Hq.
      * destruct tokens as [|t l].
        -- rewrite (retrieveDocuments_no_token order s attr f) in Hr
             by done.
           injection Hr as <-. rewrite elem_of_nil. split; [done|].
           intros [[? _]|(g & tokens & _ & [= <-] & ? & _)]; done.
        -- destruct (retrieveDocuments_elem order s attr f searchInput
                       (t :: l) md Hf Hq Horder) as (r' & Hr' & Hiff);
             [done|].
           rewrite Hr in Hr'. injection Hr' as <-. rewrite Hiff. split.
           ++ intros Hall. right. by exists f, (t :: l).
           ++ intros [[? _]|(g & tokens & Hg & [= <-] & _ & Hall)];
                [done|].
              by rewrite (all_fields_functional attr f g)
                by (by apply tokenized_fields_all).
      * rewrite (retrieveDocuments_tokenized order s attr f) in Hr by done.
        by rewrite Hq in Hr.
  - by rewrite retrieveDocuments_unknown in Hr by done.
Qed.

Lemma retrieveDocuments_reads (order : range_order (list positive))
    s attr searchInput a key :
  (a, key) ∈ (retrieveDocuments order s attr searchInput).2 →
  a = attr ∧ recognized attr.
Proof.
  destruct (decide (recognized attr)) as [Hrec|Hrec].
  - apply recognized_cases in Hrec as Hcase.
    destruct Hcase as [->|[f Hf]].
    + rewrite retrieveDocuments_version. cbn [snd].
      by intros [= -> _]%list_elem_of_singleton.
    + rewrite (retrieveDocuments_tokenized order s attr f) by done.
      destruct (processText searchInput) as [tokens|e]; cbn [snd].
      * by intros (k & [= -> _] & _)%list_elem_of_fmap.
      * by intros ?%elem_of_nil.
  - rewrite retrieveDocuments_unknown by done. cbn [snd].
    by intros ?%elem_of_nil.
Qed.
End SearchFacts.

(** ** Lookup on several fields *)

Section LookupFacts.
Context `{Imports}.

Lemma loop_inl (sched : Schedule) (s : index)
    (attrsAndValues : gmap (list Z) (list Z)) (ks : list (list Z))
    (rs rs' : gmap (list Z) (list positive)) reads :
  LookupMetadata_loop sched s attrsAndValues ks rs = (inl rs', reads) →
  (∀ k, k ∈ ks →
        ∃ rk, (retrieveDocuments (inner sched k) s k
                 (attrsAndValues !!! k)).1 = inl rk
              ∧ rs' !! k = Some rk)
  ∧ (∀ k, k ∉ ks → rs' !! k = rs !! k).
Proof.
  revert rs reads. induction ks as [|k0 ks IH]; intros rs reads; simpl.
  - intros [= <- <-]. split; [|done]. intros k Hk.
    by apply elem_of_nil in Hk.
  - destruct (retrieveDocuments (inner sched k0) s k0
                (attrsAndValues !!! k0)) as [[r0|e] reads0] eqn:E0; [|done].
    destruct (LookupMetadata_loop sched s attrsAndValues ks
                (<[k0 := r0]> rs)) as [res reads'] eqn:Eloop.
    intros [= -> <-]. apply IH in Eloop as [Hin Hout]. split.
    + intros k Hk. destruct (decide (k ∈ ks)) as [Hks|Hks]; [by apply Hin|].
      apply elem_of_cons in Hk as [->|?]; [|done].
      exists r0. rewrite E0. split; [done|].
      by rewrite Hout, lookup_insert_eq.
    + intros k [Hne Hks]%not_elem_of_cons.
      by rewrite Hout, lookup_insert_ne.
Qed.

Lemma loop_inr (sched : Schedule) (s : index)
    (attrsAndValues : gmap (list Z) (list Z)) (ks : list (list Z))
    (rs : gmap (list Z) (list positive)) err reads :
  LookupMetadata_loop sched s attrsAndValues ks rs = (inr err, reads) →
  ∃ k, k ∈ ks
       ∧ (retrieveDocuments (inner sched k) s k
            (attrsAndValues !!! k)).1 = inr err.
Proof.
  revert rs reads. induction ks as [|k0 ks IH]; intros rs reads; simpl;
    [done|].
  destruct (retrieveDocuments (inner sched k0) s k0
              (attrsAndValues !!! k0)) as [[r0|e] reads0] eqn:E0.
  - destruct (LookupMetadata_loop sched s attrsAndValues ks
                (<[k0 := r0]> rs)) as [res reads'] eqn:Eloop.
    intros [= -> <-]. apply IH in Eloop as (k & Hk & Hret).
    exists k. split; [by right|done].
  - intros [= <- <-]. exists k0. rewrite E0. split; [by left|done].
Qed.

Lemma loop_stops (sched : Schedule) (s : index)
    (attrsAndValues : gmap (list Z) (list Z)) (ks : list (list Z))
    (rs : gmap (list Z) (list positive)) (k : list Z) err :
  k ∈ ks →
  (retrieveDocuments (inner sched k) s k (attrsAndValues !!! k)).1
  = inr err →
  ∃ err' reads,
    LookupMetadata_loop sched s attrsAndValues ks rs = (inr err', reads).
Proof.
  revert rs. induction ks as [|k0 ks IH]; intros rs Hk Hret; simpl.
  - by apply elem_of_nil in Hk.
  - destruct (retrieveDocuments (inner sched k0) s k0
                (attrsAndValues !!! k0)) as [[r0|e] reads0] eqn:E0;
      [|eauto].
    apply elem_of_cons in Hk as [->|Hk]; [by rewrite E0 in Hret|].
    destruct (IH (<[k0 := r0]> rs) Hk Hret) as (err' & reads & ->). eauto.
Qed.

Lemma loop_reads (sched : Schedule) (s : index)
    (attrsAndValues : gmap (list Z) (list Z)) (ks : list (list Z))
    (rs : gmap (list Z) (list positive)) (a key : list Z) :
  (a, key) ∈ (LookupMetadata_loop sched s attrsAndValues ks rs).2 →
  a ∈ ks ∧ recognized a.
Proof.
  revert rs. induction ks as [|k0 ks IH]; intros rs; simpl.
  - by intros ?%elem_of_nil.
  - pose proof (retrieveDocuments_reads (inner sched k0) s k0
                  (attrsAndValues !!! k0) a key) as Hreads0.
    destruct (retrieveDocuments (inner sched k0) s k0
                (attrsAndValues !!! k0)) as [[r0|e] reads0] eqn:E0;
      cbn [snd] in Hreads0.
    + specialize (IH (<[k0 := r0]> rs)).
      destruct (LookupMetadata_loop sched s attrsAndValues ks
                  (<[k0 := r0]> rs)) as [res reads'] eqn:Eloop.
      cbn [snd] in *. intros [Hin|Hin]%elem_of_app.
      * destruct (Hreads0 Hin) as [-> ?]. split; [by left|done].
      * destruct (IH Hin) as [? ?]. split; [by right|done].
    + cbn [snd]. intros Hin. destruct (Hreads0 Hin) as [-> ?].
      split; [by left|done].
Qed.

Lemma LookupMetadata_inr (sched : Schedule) (s : index)
    (attrsAndValues : gmap (list Z) (list Z))
    err :
  schedule_ok sched →
  (LookupMetadata sched s attrsAndValues).1 = inr err →
  ∃ k v, attrsAndValues !! k = Some v ∧ query_fails k v err.
Proof.
  intros (Houter & _ & _). unfold LookupMetadata.
  destruct (LookupMetadata_loop sched s attrsAndValues
              (outer sched attrsAndValues) ∅) as [[rs'|e] reads] eqn:Eloop;
    [done|].
  cbn [fst]. intros [= ->].
  apply loop_inr in Eloop as (k & Hk & Hret).
  apply (range_of_elem (outer sched) Houter) in Hk as [v Hv].
  exists k, v. split; [done|]. apply retrieveDocuments_inr in Hret.
  by rewrite (lookup_total_correct _ _ _ Hv) in Hret.
Qed.

Lemma LookupMetadata_fails (sched : Schedule) (s : index)
    (attrsAndValues : gmap (list Z) (list Z)) (k v : list Z) err :
  schedule_ok sched →
  attrsAndValues !! k = Some v → query_fails k v err →
  ∃ err' reads, LookupMetadata sched s attrsAndValues = (inr err', reads).
Proof.
  intros (Houter & _ & _) Hv Hfail. unfold LookupMetadata.
  destruct (loop_stops sched s attrsAndValues (outer sched attrsAndValues)
              ∅ k err) as (err' & reads & ->); [| |eauto].
  - apply (range_of_elem (outer sched) Houter). eauto.
  - apply retrieveDocuments_inr.
    by rewrite (lookup_total_correct _ _ _ Hv).
Qed.

Lemma LookupMetadata_inl (sched : Schedule) (s : index)
    (attrsAndValues : gmap (list Z) (list Z))
    r :
  schedule_ok sched → attrsAndValues ≠ ∅ →
  (LookupMetadata sched s attrsAndValues).1 = inl r →
  (∀ k v, attrsAndValues !! k = Some v →
          ∃ rk, (retrieveDocuments (inner sched k) s k v).1 = inl rk)
  ∧ ∀ md, md ∈ r
          ↔ ∀ k v, attrsAndValues !! k = Some v →
                   ∃ rk, (retrieveDocuments (inner sched k) s k v).1
                         = inl rk
                         ∧ md ∈ rk.
Proof.
  intros (Houter & Hinner & Hfinal) Hne. unfold LookupMetadata.
  destruct (LookupMetadata_loop sched s attrsAndValues
              (outer sched attrsAndValues) ∅) as [[rs'|e] reads] eqn:Eloop;
    [|done].
  cbn [fst]. intros [= <-]. apply loop_inl in Eloop as [Hin Hout].
  assert (Hkeys : ∀ k, k ∈ outer sched attrsAndValues
                       ↔ is_Some (attrsAndValues !! k))
    by apply (range_of_elem (outer sched) Houter).
  assert (Hrs : ∀ k v, attrsAndValues !! k = Some v →
            ∃ rk, (retrieveDocuments (inner sched k) s k v).1 = inl rk
                  ∧ rs' !! k = Some rk).
  { intros k v Hv. destruct (Hin k) as (rk & Hret & Hrk).
    - apply Hkeys. eauto.
    - rewrite (lookup_total_correct _ _ _ Hv) in Hret. eauto. }
  split.
  { intros k v Hv. destruct (Hrs k v Hv) as (rk & ? & _). eauto. }
  intros md. rewrite matchAllTerms_elem. split.
  - intros [_ Hall] k v Hv. destruct (Hrs k v Hv) as (rk & Hret & Hrk).
    exists rk. split; [done|].
    rewrite <- (lookup_total_correct _ _ _ Hrk). apply Hall.
    apply (range_of_elem (final sched) Hfinal). eauto.
  - intros Hall. split.
    + apply map_choose in Hne as (k & v & Hv).
      destruct (Hrs k v Hv) as (rk & _ & Hrk). intros Hnil.
      assert (k ∈ final sched rs') as Hk
        by (apply (range_of_elem (final sched) Hfinal); eauto).
      rewrite Hnil in Hk. by apply elem_of_nil in Hk.
    + intros k Hk%(range_of_elem (final sched) Hfinal).
      destruct (decide (k ∈ outer sched attrsAndValues)) as [Hks|Hks].
      * apply Hkeys in Hks as [v Hv].
        destruct (Hall k v Hv) as (rk & Hret & Hmd).
        destruct (Hrs k v Hv) as (rk' & Hret' & Hrk').
        rewrite Hret in Hret'. injection Hret' as <-.
        by rewrite (lookup_total_correct _ _ _ Hrk').
      * rewrite (Hout k Hks), lookup_empty in Hk. by destruct Hk.
Qed.

Lemma LookupMetadata_empty sched s :
  schedule_ok sched → LookupMetadata sched s ∅ = (inl [], []).
Proof.
  intros (Houter & _ & Hfinal). unfold LookupMetadata.
  rewrite (range_of_empty (outer sched) Houter). cbn [LookupMetadata_loop].
  unfold matchAllTerms. by rewrite (range_of_empty (final sched) Hfinal).
Qed.
End LookupFacts.

(** ** Errors of a query (C7) *)

Lemma loop_reads_before `{Imports} (sched : Schedule) (s : index)
    (attrsAndValues : gmap (list Z) (list Z))
    (before : list (list Z)) (k : list Z) (after : list (list Z))
    (rs : gmap (list Z) (list positive)) (a key : list Z) :
  ¬ recognized k →
  (a, key) ∈ (LookupMetadata_loop sched s attrsAndValues
                (before ++ k :: after) rs).2 →
  a ∈ before ∧ recognized a.
Proof.
  intros Hk. revert rs.
  induction before as [|k0 before IH]; intros rs; simpl.
  - rewrite retrieveDocuments_unknown by done. cbn [snd].
    by intros ?%elem_of_nil.
  - pose proof (retrieveDocuments_reads (inner sched k0) s k0
                  (attrsAndValues !!! k0) a key) as Hreads0.
    destruct (retrieveDocuments (inner sched k0) s k0
                (attrsAndValues !!! k0)) as [[r0|e] reads0] eqn:E0;
      cbn [snd] in Hreads0.
    + specialize (IH (<[k0 := r0]> rs)).
      destruct (LookupMetadata_loop sched s attrsAndValues
                  (before ++ k :: after) (<[k0 := r0]> rs))
        as [res reads'] eqn:Eloop.
      cbn [snd] in *. intros [Hin|Hin]%elem_of_app.
      * destruct (Hreads0 Hin) as [-> Hrec]. split; [by left|done].
      * destruct (IH Hin) as [Ha Hrec]. split; [by right|done].
    + cbn [snd]. intros Hin.
      destruct (Hreads0 Hin) as [-> Hrec]. split; [by left|done].
Qed.

(** C7, as amended. A single-field search that names an unknown field
    returns the unknown-attribute error and reads no posting store. A
    lookup that names an unknown field [k] returns an error, the rejection
    of one of its fields, whatever the stores hold; the stores it has read
    by then are those of recognised fields of the query that [range]
    visited before [k], and no other: with [before] the keys that
    [range] yields before it reaches [k], every read is of the store of a
    member of [before]. A search of a recognised field whose query
    normalises (the version field is not normalised) returns no error:
    its list holds the documents that match, and is empty when none
    does. *)
Theorem C7_query_errors `{Imports} :
  (∀ (order : range_order (list positive)) (s : index) (attr q : list Z),
     ¬ recognized attr →
     retrieveDocuments order s attr q = (inr ErrUnknownAttribute, []))
  ∧ (∀ (sched : Schedule) (s : index) (M : gmap (list Z) (list Z))
       (k v : list Z),
       schedule_ok sched → M !! k = Some v → ¬ recognized k →
       ∃ err reads before after,
         LookupMetadata sched s M = (inr err, reads)
         ∧ (∃ k' v', M !! k' = Some v' ∧ query_fails k' v' err)
         ∧ outer sched M = before ++ k :: after
         ∧ (k ∉ before)
         ∧ ∀ a key, (a, key) ∈ reads →
                    recognized a ∧ is_Some (M !! a) ∧ a ∈ before)
  ∧ (∀ (order : range_order (list positive)) (s : index) (attr q : list Z),
       range_of order → recognized attr →
       (attr = Version ∨ ∃ tokens, processText q = inl tokens) →
       ∃ r, (retrieveDocuments order s attr q).1 = inl r
            ∧ (∀ md, md ∈ r ↔ matches s attr q md)
            ∧ ((∀ md, ¬ matches s attr q md) → r = [])).
Proof.
  split; [apply @retrieveDocuments_unknown|]. split.
  - intros sched s M k v Hsched Hv Hunknown.
    destruct (LookupMetadata_fails sched s M k v ErrUnknownAttribute)
      as (err & reads & Hlookup); [done|done|by left|].
    assert (Hin : k ∈ outer sched M).
    { destruct Hsched as (Houter & _).
      apply (range_of_elem (outer sched) Houter). eauto. }
    apply list_elem_of_split_l in Hin as (before & after & Hkeys & Hfirst).
    exists err, reads, before, after. split; [done|]. split.
    { apply (LookupMetadata_inr sched s M err Hsched). by rewrite Hlookup. }
    split; [done|]. split; [done|].
    intros a key Hin. unfold LookupMetadata in Hlookup.
    pose proof (loop_reads_before sched s M before k after ∅ a key Hunknown)
      as Hreads.
    rewrite <- Hkeys in Hreads.
    destruct (LookupMetadata_loop sched s M (outer sched M) ∅)
      as [[rs'|e] reads0]; [done|].
    injection Hlookup as -> ->. cbn [snd] in Hreads.
    destruct (Hreads Hin) as [Hks Hrec]. split; [done|]. split; [|done].
    destruct Hsched as (Houter & _).
    apply (range_of_elem (outer sched) Houter). rewrite Hkeys.
    apply elem_of_app. by left.
  - intros order s attr q Horder Hrec Hnorm.
    destruct (retrieveDocuments order s attr q).1 as [r|e] eqn:Hret.
    + exists r. split; [done|].
      pose proof (retrieveDocuments_inl order s attr q r Horder Hret) as Hiff.
      split; [done|]. intros Hnone. destruct r as [|md r]; [done|].
      destruct (Hnone md). apply Hiff. by left.
    + apply retrieveDocuments_inr in Hret as [[? _]|(f & Hf & Hq)]; [done|].
      destruct Hnorm as [->|[tokens Htokens]].
      * by apply tokenized_fields_not_version in Hf.
      * by rewrite Htokens in Hq.
Qed.

Lemma C7_query_errors_witness :
  schedule_ok (first_schedule Title)
  ∧ title_and_unknown !! str "nope" = Some (str "x")
  ∧ ¬ recognized (str "nope")
  ∧ ∃ err reads before after,
      @LookupMetadata excerpt_imports (first_schedule Title)
        two_documents_store title_and_unknown = (inr err, reads)
      ∧ outer (first_schedule Title) title_and_unknown
        = before ++ str "nope" :: after
      ∧ ∀ a key, (a, key) ∈ reads →
                 recognized a ∧ is_Some (title_and_unknown !! a)
                 ∧ a ∈ before.
Proof.
  assert (Hv : title_and_unknown !! str "nope" = Some (str "x"))
    by (vm_compute; reflexivity).
  assert (Hunknown : ¬ recognized (str "nope")).
  { unfold recognized. intros Hin. apply list_elem_of_fmap in Hin
      as [[a f] [Ha Hin]]. cbn [fst] in Ha. subst a. field_cases Hin. }
  split; [exact (first_schedule_ok Title)|].
  split; [exact Hv|]. split; [exact Hunknown|].
  destruct (proj1 (proj2 (@C7_query_errors excerpt_imports))
              (first_schedule Title) two_documents_store title_and_unknown
              (str "nope") (str "x") (first_schedule_ok Title) Hv Hunknown)
    as (err & reads & before & after & Hlookup & _ & Hkeys & _ & Hreads).
  exists err, reads, before, after.
  split; [exact Hlookup|]. split; [exact Hkeys|exact Hreads].
Defined.

(** C7, the claim as stated fails for a lookup: [range] may visit the
    title before the unknown field, and the call then reads the title
    store before it returns the error. *)
Lemma C7_counterexample :
  schedule_ok (first_schedule Title)
  ∧ bool_decide (recognized (str "nope")) = false
  ∧ @LookupMetadata excerpt_imports (first_schedule Title)
      two_documents_store title_and_unknown
    = (inr ErrUnknownAttribute, [(Title, str "app")]).
Proof.
  split; [apply first_schedule_ok|]. split; vm_compute; reflexivity.
Qed.

(** ** Lookup narrows (C8) *)

(** C8, as amended. For a lookup [M'] that returns a list, and a query [M]
    with at least one field whose entries are all in [M']: the list of
    [M'] holds the documents found in the search result of every entry of
    [M']; the lookup of [M] returns a list too, which holds every document
    of the list of [M']; and an entry of [M'] whose own search returns the
    empty list makes the list of [M'] empty. The orders of [range] in the
    two lookups are independent. *)
Theorem C8_lookup_narrows `{Imports} (sched sched' : Schedule) (s : index)
    (M M' : gmap (list Z) (list Z)) (r' : list positive) :
  schedule_ok sched → schedule_ok sched' →
  M ≠ ∅ → M ⊆ M' →
  (LookupMetadata sched' s M').1 = inl r' →
  (∀ md, md ∈ r'
         ↔ ∀ k v, M' !! k = Some v →
                  ∃ rk, (retrieveDocuments (inner sched' k) s k v).1 = inl rk
                        ∧ md ∈ rk)
  ∧ (∃ r, (LookupMetadata sched s M).1 = inl r ∧ ∀ md, md ∈ r' → md ∈ r)
  ∧ (∀ k v, M' !! k = Some v →
            (retrieveDocuments (inner sched' k) s k v).1 = inl [] →
            r' = []).
Proof.
  intros Hsched Hsched' Hne Hsub Hlookup'.
  assert (Hne' : M' ≠ ∅).
  { intros ->. apply Hne. apply map_eq. intros k. rewrite lookup_empty.
    destruct (M !! k) as [v|] eqn:Hv; [|done].
    apply (lookup_weaken _ _ _ _ Hv) in Hsub. by rewrite lookup_empty in Hsub. }
  destruct (LookupMetadata_inl sched' s M' r' Hsched' Hne' Hlookup')
    as [_ Hr'].
  split; [exact Hr'|]. split.
  - destruct (LookupMetadata sched s M).1 as [r|e] eqn:Hlookup.
    + exists r. split; [done|].
      destruct (LookupMetadata_inl sched s M r Hsched Hne Hlookup)
        as [Hall Hr].
      intros md Hmd. apply Hr. intros k v Hv.
      destruct (Hall k v Hv) as [rk Hrk]. exists rk. split; [done|].
      destruct (proj1 (Hr' md) Hmd k v (lookup_weaken _ _ _ _ Hv Hsub))
        as (rk' & Hrk' & Hin).
      destruct Hsched as (_ & Hinner & _).
      destruct Hsched' as (_ & Hinner' & _).
      apply (retrieveDocuments_inl (inner sched k) s k v rk (Hinner k) Hrk).
      by apply (retrieveDocuments_inl (inner sched' k) s k v rk'
                  (Hinner' k) Hrk').
    + apply (LookupMetadata_inr sched s M e Hsched) in Hlookup
        as (k & v & Hv & Hfail).
      destruct (LookupMetadata_fails sched' s M' k v e Hsched'
                  (lookup_weaken _ _ _ _ Hv Hsub) Hfail)
        as (err' & reads & Heq).
      by rewrite Heq in Hlookup'.
  - intros k v Hv Hempty. destruct r' as [|md r']; [done|].
    destruct (proj1 (Hr' md) (list_elem_of_here md r') k v Hv)
      as (rk & Hrk & Hin).
    rewrite Hempty in Hrk. injection Hrk as <-. by apply elem_of_nil in Hin.
Qed.

Lemma C8_lookup_narrows_witness :
  schedule_ok canonical_schedule
  ∧ title_only ≠ ∅
  ∧ title_only ⊆ <[Description := str "blue"]> title_only
  ∧ (@LookupMetadata excerpt_imports canonical_schedule two_documents_store
       (<[Description := str "blue"]> title_only)).1 = inl [1%positive]
  ∧ (@LookupMetadata excerpt_imports canonical_schedule two_documents_store
       title_only).1 = inl [1%positive; 2%positive]
  ∧ ∃ r, (@LookupMetadata excerpt_imports canonical_schedule
            two_documents_store title_only).1 = inl r
         ∧ ∀ md, md ∈ [1%positive] → md ∈ r.
Proof.
  assert (Hne : title_only ≠ ∅) by (apply insert_non_empty).
  assert (Hsub : title_only ⊆ <[Description := str "blue"]> title_only)
    by (apply insert_subseteq; vm_compute; reflexivity).
  assert (Hlookup :
    (@LookupMetadata excerpt_imports canonical_schedule two_documents_store
       (<[Description := str "blue"]> title_only)).1 = inl [1%positive])
    by (vm_compute; reflexivity).
  split; [exact canonical_schedule_ok|]. split; [exact Hne|].
  split; [exact Hsub|]. split; [exact Hlookup|].
  split; [vm_compute; reflexivity|].
  exact (proj1 (proj2
    (@C8_lookup_narrows excerpt_imports canonical_schedule canonical_schedule
       two_documents_store title_only
       (<[Description := str "blue"]> title_only) [1%positive]
       canonical_schedule_ok canonical_schedule_ok Hne Hsub Hlookup))).
Defined.

(** C8, the claim as stated fails when the smaller query is empty: the
    lookup of the title alone returns both documents, the lookup of no
    field returns none. *)
Lemma C8_counterexample :
  (∅ : gmap (list Z) (list Z)) ⊆ title_only
  ∧ (@LookupMetadata excerpt_imports canonical_schedule two_documents_store
       title_only).1 = inl [1%positive; 2%positive]
  ∧ (@LookupMetadata excerpt_imports canonical_schedule two_documents_store
       ∅).1 = inl [].
Proof.
  split; [apply map_empty_subseteq|]. split; vm_compute; reflexivity.
Qed.

(** ** All-or-nothing indexing (C2) *)

Lemma AddMetadata_never_fails `{Imports} (s : index) (metadata : positive)
    (md : Metadata) :
  (∀ w, ∃ st, snowball_Stem w (str "english") true = inl st) →
  (AddMetadata s metadata md).2 = None.
Proof.
  intros Htotal.
  destruct (AddMetadata s metadata md) as [s' [err|]] eqn:Hadd; [|done].
  rewrite AddMetadata_steps in Hadd.
  apply runSteps_error in Hadd
    as (done & F & f & text & rest & _ & Hq & _);
    [|apply indexing_steps_ok].
  destruct (processText_total text Htotal) as [tokens Htokens].
  by rewrite Htokens in Hq.
Qed.



(** ** When the stemmer never fails (C9) *)

(** C9. The stemmer is called with the language "english" only. If it
    returns a stem for every word in that language, then [processText]
    returns tokens for every text, [AddMetadata] returns no error, a search
    returns an error only for an unknown field, and a lookup returns an
    error only when it names an unknown field. *)
Theorem C9_stem_error_unreachable `{Imports} :
  (∀ w, ∃ st, snowball_Stem w (str "english") true = inl st) →
  (∀ text, ∃ tokens, processText text = inl tokens)
  ∧ (∀ (s : index) (metadata : positive) (md : Metadata),
       (AddMetadata s metadata md).2 = None)
  ∧ (∀ (order : range_order (list positive)) (s : index) (attr q : list Z)
       (err : error),
       (retrieveDocuments order s attr q).1 = inr err →
       err = ErrUnknownAttribute ∧ ¬ recognized attr)
  ∧ (∀ (sched : Schedule) (s : index) (M : gmap (list Z) (list Z))
       (err : error),
       schedule_ok sched →
       (LookupMetadata sched s M).1 = inr err →
       err = ErrUnknownAttribute ∧ ∃ k, is_Some (M !! k) ∧ ¬ recognized k).
Proof.
  intros Htotal.
  assert (Hfail : ∀ attr q err,
            query_fails attr q err →
            err = ErrUnknownAttribute ∧ ¬ recognized attr).
  { intros attr q err [[? ->]|(f & _ & Hq)]; [done|].
    destruct (processText_total q Htotal) as [tokens Htokens].
    by rewrite Htokens in Hq. }
  split; [intros text; by apply processText_total|]. split; [|split].
  - intros s metadata md.
    destruct (AddMetadata s metadata md) as [s' [err|]] eqn:Hadd; [|done].
    rewrite AddMetadata_steps in Hadd.
    apply runSteps_error in Hadd
      as (done & F & f & text & rest & _ & Hq & _);
      [|apply indexing_steps_ok].
    destruct (processText_total text Htotal) as [tokens Htokens].
    by rewrite Htokens in Hq.
  - intros order s attr q err Hret%retrieveDocuments_inr. by eapply Hfail.
  - intros sched s M err Hsched Hlookup.
    apply (LookupMetadata_inr sched s M err Hsched) in Hlookup
      as (k & v & Hv & Hk).
    destruct (Hfail k v err Hk) as [-> ?]. split; [done|].
    exists k. split; [eauto|done].
Qed.

Lemma C9_stem_error_unreachable_witness :
  (∀ w, ∃ st, @snowball_Stem excerpt_imports w (str "english") true = inl st)
  ∧ (∀ text, ∃ tokens, @processText excerpt_imports text = inl tokens)
  ∧ (∀ (s : index) (metadata : positive) (md : Metadata),
       (@AddMetadata excerpt_imports s metadata md).2 = None).
Proof.
  assert (Htotal : ∀ w, ∃ st,
            @snowball_Stem excerpt_imports w (str "english") true = inl st).
  { intros w. cbn [snowball_Stem excerpt_imports]. unfold excerpt_Stem.
    rewrite decide_True by reflexivity. eauto. }
  split; [exact Htotal|].
  split.
  - exact (proj1 (@C9_stem_error_unreachable excerpt_imports Htotal)).
  - exact (proj1 (proj2 (@C9_stem_error_unreachable excerpt_imports Htotal))).
Defined.

(** ** The empty lookup (C10) *)

(** C10. A lookup with no field returns the empty list and no error, and
    reads no posting store, whatever the index holds. *)
Theorem C10_empty_lookup `{Imports} (sched : Schedule) (s : index) :
  schedule_ok sched →
  LookupMetadata sched s ∅ = (inl [], []).
Proof. apply LookupMetadata_empty. Qed.

Lemma C10_empty_lookup_witness :
  schedule_ok canonical_schedule
  ∧ @LookupMetadata excerpt_imports canonical_schedule two_documents_store ∅
    = (inl [], [])
  ∧ title two_documents_store !!! str "app" = [1%positive; 2%positive].
Proof.
  split; [exact canonical_schedule_ok|]. split.
  - exact (@C10_empty_lookup excerpt_imports canonical_schedule
             two_documents_store canonical_schedule_ok).
  - vm_compute. reflexivity.
Defined.

(** * Further properties of the code *)

(** ** [tokenize] *)

Lemma FieldsFunc_from_split (f : Z → bool) (cur a b : list Z) (r : Z) :
  f r = true →
  FieldsFunc_from f cur (a ++ r :: b)
  = FieldsFunc_from f cur a ++ FieldsFunc_from f [] b.
Proof.
  intros Hr. revert cur. induction a as [|x a IH]; intros cur; simpl.
  - rewrite Hr. by destruct cur.
  - destruct (f x); [|apply IH].
    destruct cur; by rewrite IH.
Qed.

Lemma FieldsFunc_from_word (f : Z → bool) (cur w : list Z) :
  Forall (λ r, f r = false) w → cur ++ w ≠ [] →
  FieldsFunc_from f cur w = [cur ++ w].
Proof.
  intros Hw. revert cur.
  induction Hw as [|x w Hx Hw IH]; intros cur Hne; cbn [FieldsFunc_from].
  - rewrite app_nil_r in *. by destruct cur.
  - rewrite Hx. rewrite IH; rewrite <- app_assoc; [done|].
    simpl. by destruct cur.
Qed.

Lemma FieldsFunc_from_fields (f : Z → bool) (cur s : list Z) :
  Forall (λ r, f r = false) cur →
  Forall (λ tok, tok ≠ [] ∧ Forall (λ r, f r = false) tok)
         (FieldsFunc_from f cur s)
  ∧ concat (FieldsFunc_from f cur s) = cur ++ filter (λ r, f r = false) s.
Proof.
  revert cur. induction s as [|x s IH]; intros cur Hcur; cbn [FieldsFunc_from].
  - rewrite filter_nil, app_nil_r. destruct cur as [|c cur]; [by split|].
    split; [|simpl; by rewrite app_nil_r].
    constructor; [by split|constructor].
  - rewrite filter_cons. destruct (f x) eqn:Hx.
    + rewrite decide_False by done.
      destruct (IH [] (Forall_nil_2 _)) as [Hfields Hconcat].
      destruct cur as [|c cur]; [done|]. split.
      * by constructor.
      * simpl. by rewrite Hconcat.
    + rewrite decide_True by done.
      destruct (IH (cur ++ [x])) as [Hfields Hconcat].
      { apply Forall_app_2; [done|]. by repeat constructor. }
      split; [done|]. by rewrite Hconcat, <- app_assoc.
Qed.

(** X1. The tokens of a text are never empty and hold letters and numbers
    only; put end to end they are the text without its separators; a
    separator splits the text into the tokens of what is before it and
    those of what is after; and a word without separator is its own
    token. An empty text, or one of separators only, has no token. *)
Theorem X1_tokenize_fields `{Imports} :
  (∀ text,
     Forall (λ tok, tok ≠ [] ∧ Forall (λ r, separator r = false) tok)
            (tokenize text)
     ∧ concat (tokenize text) = filter (λ r, separator r = false) text)
  ∧ (∀ before r after, separator r = true →
       tokenize (before ++ r :: after) = tokenize before ++ tokenize after)
  ∧ (∀ word, word ≠ [] → Forall (λ r, separator r = false) word →
       tokenize word = [word])
  ∧ (∀ text, Forall (λ r, separator r = true) text → tokenize text = []).
Proof.
  split; [|split; [|split]].
  - intros text. by apply (FieldsFunc_from_fields separator [] text).
  - intros before r after Hr. by apply FieldsFunc_from_split.
  - intros word Hne Hword. by apply (FieldsFunc_from_word separator [] word).
  - intros text Hsep.
    destruct (FieldsFunc_from_fields separator [] text (Forall_nil_2 _))
      as [Hfields Hconcat].
    change (FieldsFunc_from separator [] text) with (tokenize text) in *.
    assert (Hnone : filter (λ r, separator r = false) text = []).
    { clear Hfields Hconcat. induction Hsep as [|x l Hx Hl IH]; [done|].
      rewrite filter_cons, decide_False by (by rewrite Hx). done. }
    rewrite Hnone in Hconcat. simpl in Hconcat.
    destruct (tokenize text) as [|tok toks]; [done|].
    apply Forall_cons in Hfields as [[Hne _] _].
    simpl in Hconcat. apply app_eq_nil in Hconcat as [? _]. done.
Qed.

Lemma X1_tokenize_fields_witness :
  @separator excerpt_imports 64 = true
  ∧ @tokenize excerpt_imports (str "Mail" ++ 64%Z :: str "Gmail.com")
    = @tokenize excerpt_imports (str "Mail")
      ++ @tokenize excerpt_imports (str "Gmail.com")
  ∧ @tokenize excerpt_imports (str "Mail@Gmail.com")
    = [str "Mail"; str "Gmail"; str "com"].
Proof.
  assert (Hsep : @separator excerpt_imports 64 = true)
    by (vm_compute; reflexivity).
  split; [exact Hsep|]. split; [|vm_compute; reflexivity].
  exact (proj1 (proj2 (@X1_tokenize_fields excerpt_imports))
           (str "Mail") 64%Z (str "Gmail.com") Hsep).
Defined.

(** ** [toLowercase] and [removeCommonWords] *)

Section FilterFacts.
Context `{Imports}.

Lemma ToLower_rune_ascii (r : Z) :
  (r < 128)%Z →
  ToLower_rune (ToLower_rune r) = ToLower_rune r
  ∧ ¬ (65 ≤ ToLower_rune r ≤ 90)%Z
  ∧ separator (ToLower_rune r) = separator r.
Proof.
  intros Hr. unfold separator, IsLetter, IsNumber, ToLower_rune.
  rewrite (bool_decide_eq_true_2 (r < 128)%Z) by done.
  destruct (decide (65 ≤ r ≤ 90)%Z) as [Hup|Hlow].
  - rewrite (bool_decide_eq_true_2 (65 ≤ r ≤ 90)%Z) by done.
    rewrite (bool_decide_eq_true_2 (r + 32 < 128)%Z) by lia.
    rewrite (bool_decide_eq_false_2 (65 ≤ r + 32 ≤ 90)%Z) by lia.
    rewrite (bool_decide_eq_true_2 (0 ≤ r + 32 < 128)%Z) by lia.
    rewrite (bool_decide_eq_true_2 (0 ≤ r < 128)%Z) by lia.
    rewrite (bool_decide_eq_true_2 (97 ≤ r + 32 ≤ 122)%Z) by lia.
    rewrite (bool_decide_eq_false_2 (48 ≤ r + 32 ≤ 57)%Z) by lia.
    rewrite (bool_decide_eq_false_2 (48 ≤ r ≤ 57)%Z) by lia.
    split; [done|]. split; [lia|done].
  - rewrite (bool_decide_eq_false_2 (65 ≤ r ≤ 90)%Z) by done.
    rewrite (bool_decide_eq_true_2 (r < 128)%Z) by done.
    rewrite (bool_decide_eq_false_2 (65 ≤ r ≤ 90)%Z) by done.
    done.
Qed.

Lemma removeCommonWords_app a b :
  removeCommonWords (a ++ b) = removeCommonWords a ++ removeCommonWords b.
Proof. by rewrite !removeCommonWords_filter, filter_app. Qed.

Lemma removeCommonWords_elem tokens t :
  t ∈ removeCommonWords tokens ↔ t ∈ tokens ∧ commonWords !! t = None.
Proof. rewrite removeCommonWords_filter, list_elem_of_filter. tauto. Qed.

Lemma removeCommonWords_idemp tokens :
  removeCommonWords (removeCommonWords tokens) = removeCommonWords tokens.
Proof.
  rewrite !removeCommonWords_filter, list_filter_filter.
  apply list_filter_iff. tauto.
Qed.
End FilterFacts.

Lemma FieldsFunc_from_fmap (f : Z → bool) (g : Z → Z) (cur s : list Z) :
  Forall (λ r, f (g r) = f r) s →
  FieldsFunc_from f (g <$> cur) (g <$> s)
  = (λ tok : list Z, g <$> tok) <$> FieldsFunc_from f cur s.
Proof.
  intros Hs. revert cur.
  induction Hs as [|x s Hx Hs IH]; intros cur; csimpl.
  - by destruct cur.
  - rewrite Hx. destruct (f x).
    + pose proof (IH []) as IHnil. csimpl in IHnil.
      destruct cur; csimpl; by rewrite IHnil.
    + rewrite <- (IH (cur ++ [x])). by rewrite fmap_app.
Qed.

Section CaseFacts.
Context `{Imports}.

Lemma tokenize_runes text tok r :
  tok ∈ tokenize text → r ∈ tok → r ∈ text.
Proof.
  intros Htok Hr.
  destruct (FieldsFunc_from_fields separator [] text (Forall_nil_2 _))
    as [_ Hconcat].
  change (FieldsFunc_from separator [] text) with (tokenize text) in Hconcat.
  assert (r ∈ concat (tokenize text)) as Hin.
  { apply list_elem_of_In, in_concat. exists tok.
    by rewrite <- !list_elem_of_In. }
  rewrite Hconcat in Hin. simpl in Hin.
  by apply list_elem_of_filter in Hin as [_ ?].
Qed.

Lemma toLowercase_tokenize_ToLower text :
  Forall (λ r, (r < 128)%Z) text →
  toLowercase (tokenize (ToLower text)) = toLowercase (tokenize text).
Proof.
  intros Hascii. rewrite !toLowercase_fmap. unfold tokenize, FieldsFunc.
  change (λ r, negb (IsLetter r) && negb (IsNumber r)) with separator.
  unfold ToLower at 2.
  rewrite (FieldsFunc_from_fmap separator ToLower_rune [] text).
  - rewrite <- list_fmap_compose. apply Forall_fmap_ext_1, Forall_forall.
    intros tok Htok. unfold compose, ToLower. rewrite <- list_fmap_compose.
    apply Forall_fmap_ext_1, Forall_forall. intros r Hr. unfold compose.
    apply ToLower_rune_ascii.
    apply (proj1 (Forall_forall _ _) Hascii).
    by apply (tokenize_runes text tok).
  - eapply Forall_impl; [exact Hascii|]. intros r Hr.
    by apply ToLower_rune_ascii.
Qed.

Lemma processText_ToLower text :
  Forall (λ r, (r < 128)%Z) text →
  processText (ToLower text) = processText text.
Proof.
  intros Hascii. unfold processText.
  by rewrite toLowercase_tokenize_ToLower.
Qed.
End CaseFacts.

(** X2. Normalisation does not see the case of ASCII letters: an ASCII
    text and its lower-case form have the same tokens (or the same error),
    so they are indexed alike and, as queries on a tokenised field, return
    the same result. *)
Theorem X2_case_insensitive `{Imports} (text : list Z) :
  Forall (λ r, (r < 128)%Z) text →
  processText (ToLower text) = processText text
  ∧ (∀ (field : gmap (list Z) (list positive)) (metadata : positive),
       indexField (ToLower text) field metadata true
       = indexField text field metadata true)
  ∧ (∀ (order : range_order (list positive)) (s : index) (F : list Z)
       (f : field_of_index),
       (F, f) ∈ tokenized_fields →
       retrieveDocuments order s F (ToLower text)
       = retrieveDocuments order s F text).
Proof.
  intros Hascii. pose proof (processText_ToLower text Hascii) as Hsame.
  split; [done|]. split.
  - intros field metadata. unfold indexField. by rewrite Hsame.
  - intros order s F f Hf.
    rewrite !(retrieveDocuments_tokenized order s F f) by done.
    by rewrite Hsame.
Qed.

Lemma X2_case_insensitive_witness :
  Forall (λ r, (r < 128)%Z) (str "Quick FOX")
  ∧ @ToLower excerpt_imports (str "Quick FOX") = str "quick fox"
  ∧ @processText excerpt_imports (str "quick fox")
    = @processText excerpt_imports (str "Quick FOX")
  ∧ @processText excerpt_imports (str "Quick FOX")
    = inl [str "quick"; str "fox"].
Proof.
  assert (Hascii : Forall (λ r, (r < 128)%Z) (str "Quick FOX"))
    by (vm_compute; repeat constructor).
  split; [exact Hascii|]. split; [vm_compute; reflexivity|].
  split; [|vm_compute; reflexivity].
  exact (proj1 (@X2_case_insensitive excerpt_imports (str "Quick FOX")
                  Hascii)).
Defined.

(** X3. Stopword removal keeps the order of the tokens it keeps: its
    result is a sublist of the tokens, made of the tokens that are not in
    the table, with their repetitions; it distributes over concatenation,
    and removing twice removes nothing more. *)
Theorem X3_removeCommonWords_filter `{Imports} :
  (∀ tokens, removeCommonWords tokens `sublist_of` tokens)
  ∧ (∀ tokens t, t ∈ removeCommonWords tokens
                 ↔ t ∈ tokens ∧ commonWords !! t = None)
  ∧ (∀ a b, removeCommonWords (a ++ b)
            = removeCommonWords a ++ removeCommonWords b)
  ∧ (∀ tokens, removeCommonWords (removeCommonWords tokens)
               = removeCommonWords tokens).
Proof.
  split; [|split; [|split]].
  - intros tokens. rewrite removeCommonWords_filter. apply sublist_filter.
  - apply @removeCommonWords_elem.
  - apply @removeCommonWords_app.
  - apply @removeCommonWords_idemp.
Qed.

(** ** [stem] and [processText] *)

Section StemFacts.
Context `{Imports}.

Lemma stem_loop_outcome (acc tokens : list (list Z)) :
  match stem_loop acc tokens with
  | inl stemmed =>
      ∃ new, stemmed = acc ++ new
             ∧ Forall2 (λ w st, snowball_Stem w (str "english") true = inl st)
                       tokens new
  | inr err =>
      ∃ before w after msg,
        tokens = before ++ w :: after
        ∧ Forall (λ w', ∃ st, snowball_Stem w' (str "english") true = inl st)
                 before
        ∧ snowball_Stem w (str "english") true = inr msg
        ∧ err = ErrStem msg
  end.
Proof.
  revert acc. induction tokens as [|t l IH]; intros acc; cbn [stem_loop].
  - exists []. by rewrite app_nil_r.
  - destruct (snowball_Stem t (str "english") true) as [st|msg] eqn:E.
    + specialize (IH (acc ++ [st])).
      destruct (stem_loop (acc ++ [st]) l) as [stemmed|err].
      * destruct IH as (new & -> & Hnew). exists (st :: new).
        rewrite <- app_assoc. split; [done|]. by constructor.
      * destruct IH as (before & w & after & msg & -> & Hbefore & Hw & ->).
        exists (t :: before), w, after, msg. repeat split; try done.
        constructor; eauto.
    + exists [], t, l, msg. by repeat split.
Qed.

Lemma processText_outcome text :
  match processText text with
  | inl tokens =>
      Forall2 (λ w st, snowball_Stem w (str "english") true = inl st)
              (surviving text) tokens
  | inr err =>
      ∃ before w after msg,
        surviving text = before ++ w :: after
        ∧ Forall (λ w', ∃ st, snowball_Stem w' (str "english") true = inl st)
                 before
        ∧ snowball_Stem w (str "english") true = inr msg
        ∧ err = ErrStem msg
  end.
Proof.
  unfold processText, stem. fold (surviving text).
  pose proof (stem_loop_outcome [] (surviving text)) as Hloop.
  destruct (stem_loop [] (surviving text)) as [stemmed|err]; [|done].
  by destruct Hloop as (new & -> & Hnew).
Qed.

Lemma processText_no_token text :
  surviving text = [] → processText text = inl [].
Proof.
  intros Hnone. unfold processText, stem. fold (surviving text).
  by rewrite Hnone.
Qed.
End StemFacts.

(** X4. The outcome of normalisation. When [processText] returns tokens,
    there is one for each token that survives stopword removal, in the
    same order, and it is the stem of that token. When it returns an
    error, the error carries the message of the stemmer on the first
    surviving token it rejects, the tokens before that one having been
    stemmed. *)
Theorem X4_processText_outcome `{Imports} (text : list Z) :
  match processText text with
  | inl tokens =>
      Forall2 (λ w st, snowball_Stem w (str "english") true = inl st)
              (surviving text) tokens
  | inr err =>
      ∃ before w after msg,
        surviving text = before ++ w :: after
        ∧ Forall (λ w', ∃ st, snowball_Stem w' (str "english") true = inl st)
                 before
        ∧ snowball_Stem w (str "english") true = inr msg
        ∧ err = ErrStem msg
  end.
Proof. apply processText_outcome. Qed.

(** ** What one call of [indexField] changes *)

Lemma ensure_key_lookup (field : gmap (list Z) (list positive))
    (key k : list Z) :
  k ≠ key →
  match field !! key with
  | Some _ => field
  | None => <[key := []]> field
  end !! k = field !! k.
Proof.
  intros Hne. destruct (field !! key); [done|]. by rewrite lookup_insert_ne.
Qed.

Lemma indexToken_lookup_other (metadata : positive)
    (field : gmap (list Z) (list positive)) (token k : list Z) :
  k ≠ token → indexToken metadata field token !! k = field !! k.
Proof.
  intros Hne. unfold indexToken.
  destruct (bool_decide _ && bool_decide _).
  - by apply ensure_key_lookup.
  - rewrite lookup_insert_ne by done. by apply ensure_key_lookup.
Qed.

Lemma indexToken_lookup_same (metadata : positive)
    (field : gmap (list Z) (list positive)) (token : list Z) :
  indexToken metadata field token !! token
  = Some (indexToken metadata field token !!! token).
Proof.
  rewrite lookup_total_alt. unfold indexToken.
  destruct (bool_decide _ && bool_decide _) eqn:E.
  - destruct (field !! token) as [l|] eqn:El.
    + by rewrite El.
    + by rewrite lookup_insert_eq.
  - by rewrite lookup_insert_eq.
Qed.

Lemma indexToken_present (metadata : positive)
    (field : gmap (list Z) (list positive)) (token : list Z) (l : list positive) :
  field !! token = Some l → last l = Some metadata →
  indexToken metadata field token = field.
Proof.
  intros Hl Hlast. unfold indexToken. rewrite Hl.
  rewrite (lookup_total_correct _ _ _ Hl).
  by rewrite (proj2 (last_test l metadata) Hlast).
Qed.

Lemma indexTokens_lookup_other (metadata : positive)
    (field : gmap (list Z) (list positive)) (tokens : list (list Z))
    (k : list Z) :
  k ∉ tokens → foldl (indexToken metadata) field tokens !! k = field !! k.
Proof.
  revert field. induction tokens as [|t l IH]; intros field Hk; simpl;
    [done|].
  apply not_elem_of_cons in Hk as [? ?].
  rewrite IH by done. by apply indexToken_lookup_other.
Qed.

Lemma indexTokens_lookup_same (metadata : positive)
    (field : gmap (list Z) (list positive)) (tokens : list (list Z))
    (T : list Z) :
  T ∈ tokens →
  foldl (indexToken metadata) field tokens !! T
  = Some (foldl (indexToken metadata) field tokens !!! T).
Proof.
  revert field. induction tokens as [|t l IH]; intros field HT; simpl.
  - by apply elem_of_nil in HT.
  - destruct (decide (T ∈ l)) as [Hl|Hl]; [by apply IH|].
    apply elem_of_cons in HT as [->|?]; [|done].
    rewrite lookup_total_alt, indexTokens_lookup_other by done.
    by rewrite indexToken_lookup_same.
Qed.

Lemma indexTokens_settled (metadata : positive)
    (field : gmap (list Z) (list positive)) (tokens : list (list Z)) :
  (∀ t, t ∈ tokens →
        ∃ l, field !! t = Some l ∧ last l = Some metadata) →
  foldl (indexToken metadata) field tokens = field.
Proof.
  induction tokens as [|t l IH]; intros Hall; simpl; [done|].
  destruct (Hall t) as (lt & Hlt & Hlast); [by left|].
  rewrite (indexToken_present metadata field t lt) by done.
  apply IH. intros t' Ht'. apply Hall. by right.
Qed.

Section StepDelta.
Context `{Imports}.

Lemma indexField_again (text : list Z)
    (field field' : gmap (list Z) (list positive)) (metadata : positive) :
  indexField text field metadata true = (field', None) →
  indexField text field' metadata true = (field', None).
Proof.
  intros (tokens & Hq & ->)%indexField_tokens.
  unfold indexField. rewrite Hq. f_equal.
  apply indexTokens_settled. intros t Ht.
  exists (foldl (indexToken metadata) field tokens !!! t).
  split; [by apply indexTokens_lookup_same|].
  rewrite indexTokens_same by done. apply last_snoc_decide.
Qed.

(** The posting list of a key after a call, against the one before. *)
Lemma indexField_delta (text : list Z)
    (field field' : gmap (list Z) (list positive)) (metadata : positive)
    (tokenize_ : bool) (err : option error) (k : list Z) :
  indexField text field metadata tokenize_ = (field', err) →
  field' !!! k = field !!! k
  ∨ (field' !!! k = field !!! k ++ [metadata]
     ∧ (tokenize_ = true → last (field !!! k) ≠ Some metadata)).
Proof.
  destruct err as [e|].
  - intros (-> & _ & _)%indexField_error. by left.
  - destruct tokenize_.
    + intros (tokens & Hq & ->)%indexField_tokens.
      destruct (decide (k ∈ tokens)) as [Hk|Hk].
      * rewrite indexTokens_same by done. case_decide; [by left|by right].
      * left. by apply indexTokens_other.
    + destruct (indexField_exact text field metadata)
        as (f' & -> & Hsame & Hother).
      intros [= <-]. destruct (decide (k = text)) as [->|Hne].
      * right. by rewrite Hsame.
      * left. by apply Hother.
Qed.

Lemma indexField_provenance (text : list Z)
    (field field' : gmap (list Z) (list positive)) (metadata x : positive)
    (T : list Z) :
  indexField text field metadata true = (field', None) →
  x ∈ field' !!! T →
  x ∈ field !!! T
  ∨ (x = metadata ∧ ∃ tokens, processText text = inl tokens ∧ T ∈ tokens).
Proof.
  intros (tokens & Hq & ->)%indexField_tokens.
  destruct (decide (T ∈ tokens)) as [HT|HT].
  - rewrite indexTokens_same by done. case_decide; [by left|].
    intros [?|Hx]%elem_of_app; [by left|].
    apply list_elem_of_singleton in Hx as ->.
    right. split; [done|]. eauto.
  - rewrite indexTokens_other by done. by left.
Qed.

Lemma indexField_nonempty (text : list Z)
    (field field' : gmap (list Z) (list positive)) (metadata : positive)
    (tokenize_ : bool) (err : option error) :
  indexField text field metadata tokenize_ = (field', err) →
  (∀ k l, field !! k = Some l → l ≠ []) →
  ∀ k l, field' !! k = Some l → l ≠ [].
Proof.
  intros Hcall Hfield. destruct err as [e|].
  { apply indexField_error in Hcall as (-> & _ & _). done. }
  destruct tokenize_.
  - apply indexField_tokens in Hcall as (tokens & Hq & ->).
    intros k l. destruct (decide (k ∈ tokens)) as [Hk|Hk].
    + rewrite indexTokens_lookup_same by done. intros [= <-].
      rewrite indexTokens_same by done. case_decide as Hlast.
      * intros Hnil. by rewrite Hnil in Hlast.
      * by intros [_ ?]%app_eq_nil.
    + rewrite indexTokens_lookup_other by done. apply Hfield.
  - unfold indexField in Hcall. injection Hcall as <-. intros k l.
    destruct (decide (k = text)) as [->|Hne].
    + rewrite lookup_insert_eq. intros [= <-]. by intros [_ ?]%app_eq_nil.
    + rewrite lookup_insert_ne by done.
      rewrite ensure_key_lookup by done. apply Hfield.
Qed.
End StepDelta.

(** ** What one call of [AddMetadata] changes *)

Section CallDelta.
Context `{Imports}.

Lemma step_on_tokenized a f text tok b g :
  step_ok (a, f, text, tok) → (b, g) ∈ tokenized_fields → a = b →
  f = g ∧ tok = true.
Proof.
  intros [Hf Htok] Hg <-. cbn [fst snd] in *. split.
  - apply (all_fields_functional a); [done|by apply tokenized_fields_all].
  - destruct tok; [done|].
    destruct (tokenized_fields_not_version a g Hg). by apply Htok.
Qed.

Lemma runSteps_delta metadata steps s s' err b g (k : list Z) :
  Forall step_ok steps → (b, g) ∈ tokenized_fields →
  runSteps metadata steps s = (s', err) →
  fld_get g s' !!! k = fld_get g s !!! k
  ∨ (fld_get g s' !!! k = fld_get g s !!! k ++ [metadata]
     ∧ last (fld_get g s !!! k) ≠ Some metadata).
Proof.
  intros Hok Hg. revert s.
  induction Hok as [|[[[a f] text] tok] steps Hstep Hok IH]; intros s; simpl.
  - intros [= <- <-]. by left.
  - unfold andThen.
    destruct (indexInto f text metadata tok s) as [s1 e1] eqn:E.
    assert (Hfirst :
      fld_get g s1 !!! k = fld_get g s !!! k
      ∨ (fld_get g s1 !!! k = fld_get g s !!! k ++ [metadata]
         ∧ last (fld_get g s !!! k) ≠ Some metadata)).
    { apply indexInto_eq in E as (field' & Hfield & ->).
      pose proof Hstep as [Hf _]. cbn [fst snd] in Hf.
      destruct (decide (a = b)) as [Hab|Hab].
      - destruct (step_on_tokenized a f text tok b g Hstep Hg Hab)
          as [-> ->].
        rewrite (fld_get_set_same a) by done.
        destruct (indexField_delta text (fld_get g s) field' metadata true
                    e1 k Hfield) as [?|[? Hlast]]; [by left|right].
        split; [done|by apply Hlast].
      - left. rewrite (fld_get_set_other a f b g);
          [done|done|by apply tokenized_fields_all|done]. }
    destruct e1 as [e|]; [by intros [= <- <-]|].
    intros Hrest. destruct (IH s1 Hrest) as [Hsame|[Hgrow Hlast]].
    + rewrite Hsame. exact Hfirst.
    + destruct Hfirst as [Hsame1|[Hgrow1 Hlast1]].
      * right. by rewrite Hgrow, Hsame1 in *.
      * rewrite Hgrow1, last_snoc in Hlast. done.
Qed.

Lemma AddMetadata_version_delta s metadata md s' err (q : list Z) :
  AddMetadata s metadata md = (s', err) →
  version s' !!! q = version s !!! q
  ∨ version s' !!! q = version s !!! q ++ [metadata].
Proof.
  rewrite AddMetadata_steps. unfold indexing_steps. cbn [app runSteps].
  unfold andThen at 1.
  destruct (indexInto f_title _ metadata true s) as [s1 e1] eqn:E1.
  apply indexInto_eq in E1 as (field1 & _ & ->).
  destruct e1 as [e|]; [intros [= <- <-]; by left|].
  unfold andThen at 1.
  destruct (indexInto f_version _ metadata false _) as [s2 e2] eqn:E2.
  apply indexInto_eq in E2 as (field2 & Hfield2 & ->).
  cbn [fld_get fld_set f_version f_title version set_version set_title] in *.
  assert (Hstep : field2 !!! q = version s !!! q
                  ∨ field2 !!! q = version s !!! q ++ [metadata]).
  { destruct (indexField_delta _ _ _ _ _ _ q Hfield2) as [?|[? _]]; auto. }
  destruct e2 as [e|]; [by intros [= <- <-]|].
  intros Hrest.
  apply runSteps_version_untouched in Hrest;
    [|apply steps_after_version_tokenized].
  by rewrite Hrest.
Qed.

Lemma AddMetadata_delta s metadata md s' err b g (k : list Z) :
  (b, g) ∈ all_fields →
  AddMetadata s metadata md = (s', err) →
  fld_get g s' !!! k = fld_get g s !!! k
  ∨ fld_get g s' !!! k = fld_get g s !!! k ++ [metadata].
Proof.
  intros [[-> ->]|Hg]%all_fields_cases Hadd.
  - by apply (AddMetadata_version_delta s metadata md s' err k).
  - rewrite AddMetadata_steps in Hadd.
    destruct (runSteps_delta metadata (indexing_steps md) s s' err b g k
                (indexing_steps_ok md) Hg Hadd) as [?|[? _]]; auto.
Qed.

Lemma runSteps_provenance metadata steps s s' err b g
    (T : list Z) (x : positive) :
  Forall step_ok steps → (b, g) ∈ tokenized_fields →
  runSteps metadata steps s = (s', err) →
  x ∈ fld_get g s' !!! T →
  x ∈ fld_get g s !!! T
  ∨ (x = metadata
     ∧ ∃ V tokens, (b, g, V, true) ∈ steps
                   ∧ processText V = inl tokens ∧ T ∈ tokens).
Proof.
  intros Hok Hg. revert s.
  induction Hok as [|[[[a f] text] tok] steps Hstep Hok IH]; intros s; simpl.
  - intros [= <- <-]. by left.
  - unfold andThen.
    destruct (indexInto f text metadata tok s) as [s1 e1] eqn:E.
    apply indexInto_eq in E as (field' & Hfield & ->).
    pose proof Hstep as [Hf _]. cbn [fst snd] in Hf.
    destruct e1 as [e|].
    + intros [= <- <-].
      apply indexField_error in Hfield as (-> & _ & _).
      rewrite (fld_set_get a) by done. by left.
    + intros Hrest Hx.
      destruct (IH _ Hrest Hx) as [Hmid|(-> & V & tokens & Hin & HV & HT)].
      * destruct (decide (a = b)) as [Hab|Hab].
        -- destruct (step_on_tokenized a f text tok b g Hstep Hg Hab)
             as [-> ->]. subst a.
           rewrite (fld_get_set_same b) in Hmid by done.
           destruct (indexField_provenance text _ _ _ _ T Hfield Hmid)
             as [?|(-> & tokens & HV & HT)]; [by left|right].
           split; [done|]. exists text, tokens. split; [by left|done].
        -- left. by rewrite (fld_get_set_other a f b g) in Hmid
             by (done || by apply tokenized_fields_all).
      * right. split; [done|]. exists V, tokens. split; [by right|done].
Qed.

Lemma runSteps_nonempty metadata steps s s' err :
  Forall step_ok steps →
  runSteps metadata steps s = (s', err) →
  (∀ b g k l, (b, g) ∈ all_fields → fld_get g s !! k = Some l → l ≠ []) →
  ∀ b g k l, (b, g) ∈ all_fields → fld_get g s' !! k = Some l → l ≠ [].
Proof.
  intros Hok. revert s.
  induction Hok as [|[[[a f] text] tok] steps [Hf _] Hok IH]; intros s; simpl.
  - by intros [= <- <-].
  - unfold andThen. cbn [fst snd] in *.
    destruct (indexInto f text metadata tok s) as [s1 e1] eqn:E.
    apply indexInto_eq in E as (field' & Hfield & ->).
    intros Hrest Hinv.
    assert (Hinv1 : ∀ b g k l, (b, g) ∈ all_fields →
              fld_get g (fld_set f field' s) !! k = Some l → l ≠ []).
    { intros b g k l Hg. destruct (decide (a = b)) as [<-|Hab].
      - rewrite (all_fields_functional a g f) by done.
        rewrite (fld_get_set_same a) by done.
        apply (indexField_nonempty _ _ _ _ _ _ Hfield).
        intros k' l'. by apply (Hinv a).
      - rewrite (fld_get_set_other a f b g) by done. by apply (Hinv b). }
    destruct e1 as [e|]; [by injection Hrest as <- <-|].
    by apply (IH _ Hrest).
Qed.

Lemma AddUntilError_AddAll s docs s' :
  AddUntilError s docs = (s', None) → s' = AddAll s docs.
Proof.
  revert s. induction docs as [|d docs IH]; intros s; simpl.
  - by intros [= <-].
  - destruct (AddMetadata s d.1 d.2) as [s1 [e|]] eqn:E; [done|].
    cbn [fst]. apply IH.
Qed.

Lemma AddAll_app s docs1 docs2 :
  AddAll s (docs1 ++ docs2) = AddAll (AddAll s docs1) docs2.
Proof. unfold AddAll. apply foldl_app. Qed.

Lemma AddAll_sublist s docs (L : list positive) :
  (∀ b g k, (b, g) ∈ all_fields → fld_get g s !!! k `sublist_of` L) →
  ∀ b g k, (b, g) ∈ all_fields →
           fld_get g (AddAll s docs) !!! k `sublist_of` L ++ docs.*1.
Proof.
  revert s L. induction docs as [|d docs IH]; intros s L Hs b g k Hg.
  - rewrite app_nil_r. by apply (Hs b).
  - replace (L ++ (d :: docs).*1) with ((L ++ [d.1]) ++ docs.*1)
      by (by rewrite <- app_assoc).
    apply (IH (AddMetadata s d.1 d.2).1 (L ++ [d.1])) with (b := b); [|done].
    intros b' g' k' Hg'.
    destruct (AddMetadata s d.1 d.2) as [s1 e] eqn:E. cbn [fst].
    destruct (AddMetadata_delta s d.1 d.2 s1 e b' g' k' Hg' E) as [->| ->].
    + apply sublist_inserts_r. by apply (Hs b').
    + apply sublist_app; [by apply (Hs b')|done].
Qed.

Lemma AddAll_provenance s docs b g (T : list Z) (x : positive) :
  (b, g) ∈ tokenized_fields →
  x ∈ fld_get g (AddAll s docs) !!! T →
  x ∈ fld_get g s !!! T ∨ ∃ md, (x, md) ∈ docs ∧ field_token md b g T.
Proof.
  intros Hg. revert s. induction docs as [|d docs IH]; intros s; simpl.
  - by left.
  - intros [Hmid|(md & Hin & Htok)]%IH.
    + destruct (AddMetadata s d.1 d.2) as [s1 e] eqn:E. cbn [fst] in Hmid.
      rewrite AddMetadata_steps in E.
      destruct (runSteps_provenance d.1 (indexing_steps d.2) s s1 e b g T x
                  (indexing_steps_ok d.2) Hg E Hmid)
        as [?|(-> & V & tokens & Hstep & HV & HT)]; [by left|right].
      exists d.2. split; [destruct d; by left|]. by exists V, tokens.
    + right. exists md. split; [by right|done].
Qed.

Lemma AddUntilError_complete s docs s' metadata md F f (T : list Z) :
  AddUntilError s docs = (s', None) →
  (metadata, md) ∈ docs → field_token md F f T →
  metadata ∈ fld_get f s' !!! T.
Proof.
  intros Hadd Hin (V & tokens & Hstep & HV & HT).
  pose proof (step_tokenized_field md F f V Hstep) as Hf.
  revert s Hadd. induction docs as [|d docs IH]; intros s; simpl.
  - by apply elem_of_nil in Hin.
  - destruct (AddMetadata s d.1 d.2) as [s1 [e|]] eqn:E; [done|].
    intros Hrest. apply elem_of_cons in Hin as [<-|Hin].
    + rewrite (AddUntilError_AddAll _ _ _ Hrest).
      apply (AddAll_mono s1 docs F f); [by apply tokenized_fields_all|].
      cbn [fst snd] in E. rewrite AddMetadata_steps in E.
      by eapply runSteps_elem; [apply indexing_steps_ok|..].
    + by apply (IH Hin s1).
Qed.
End CallDelta.

(** ** Lists in the order of submission *)

Lemma sublist_NoDup_ext (L l1 l2 : list positive) :
  NoDup L → l1 `sublist_of` L → l2 `sublist_of` L →
  (∀ x, x ∈ l1 ↔ x ∈ l2) → l1 = l2.
Proof.
  intros HL. revert l1 l2.
  induction HL as [|y L Hy HL IH]; intros l1 l2 H1 H2 Hsame.
  - apply sublist_nil_r in H1 as ->. by apply sublist_nil_r in H2 as ->.
  - assert (Hhead : ∀ l, l `sublist_of` (y :: L) →
              ((y ∉ l) ∧ (l `sublist_of` L))
              ∨ ∃ l', l = y :: l' ∧ (l' `sublist_of` L) ∧ y ∉ l').
    { intros l [Hl|(l' & -> & Hl')]%sublist_cons_r.
      - left. split; [|done]. intros Hin. apply Hy.
        by apply (sublist_subseteq l L).
      - right. exists l'. repeat split; [done|]. intros Hin. apply Hy.
        by apply (sublist_subseteq l' L). }
    destruct (Hhead l1 H1) as [[Hn1 Hl1]|(l1' & -> & Hl1 & Hn1)];
      destruct (Hhead l2 H2) as [[Hn2 Hl2]|(l2' & -> & Hl2 & Hn2)].
    + by apply IH.
    + destruct Hn1. apply Hsame. by left.
    + destruct Hn2. apply Hsame. by left.
    + f_equal. apply IH; [done|done|]. intros x. split; intros Hx.
      * assert (x ∈ y :: l2') as [->|?]%elem_of_cons
          by (apply Hsame; by right); done.
      * assert (x ∈ y :: l1') as [->|?]%elem_of_cons
          by (apply Hsame; by right); done.
Qed.

Lemma NoDup_fst_functional {B} (l : list (positive * B)) x (y1 y2 : B) :
  NoDup l.*1 → (x, y1) ∈ l → (x, y2) ∈ l → y1 = y2.
Proof.
  induction l as [|[x0 y0] l IH]; intros Hnd H1 H2.
  - by apply elem_of_nil in H1.
  - rewrite fmap_cons in Hnd. apply NoDup_cons in Hnd as [Hx0 Hnd].
    cbn [fst] in Hx0.
    assert (Hfst : ∀ y, (x0, y) ∈ l → False).
    { intros y Hy. apply Hx0. apply list_elem_of_fmap. by exists (x0, y). }
    apply elem_of_cons in H1 as [H1|H1];
      apply elem_of_cons in H2 as [H2|H2]; simplify_eq.
    + done.
    + by destruct (Hfst y2).
    + by destruct (Hfst y1).
    + by apply IH.
Qed.

Lemma intersection_sublist slice1 slice2 :
  intersection slice1 slice2 `sublist_of` slice2.
Proof. rewrite intersection_filter. apply sublist_filter. Qed.

Lemma matchAllTerms_sublist (order : range_order (list positive))
    (resultSet : gmap (list Z) (list positive)) (L : list positive) :
  (∀ k, resultSet !!! k `sublist_of` L) →
  matchAllTerms order resultSet `sublist_of` L.
Proof.
  intros Hrs. unfold matchAllTerms.
  destruct (order resultSet) as [|k0 [|k1 rest]].
  - apply sublist_nil_l.
  - apply Hrs.
  - assert (Hfirst : intersection (resultSet !!! k0) (resultSet !!! k1)
                     `sublist_of` L)
      by (etrans; [apply intersection_sublist|apply Hrs]).
    revert Hfirst. generalize (intersection (resultSet !!! k0)
                                            (resultSet !!! k1)).
    induction rest as [|k rest IH]; intros r Hr; simpl; [done|].
    apply IH. etrans; [apply intersection_sublist|apply Hrs].
Qed.

Lemma matchAllTerms_elem_valid (order : range_order (list positive))
    (resultSet : gmap (list Z) (list positive)) (md : positive) :
  range_of order →
  md ∈ matchAllTerms order resultSet
  ↔ resultSet ≠ ∅ ∧ ∀ k l, resultSet !! k = Some l → md ∈ l.
Proof.
  intros Horder. rewrite matchAllTerms_elem. split.
  - intros [Hne Hall]. split.
    + intros ->. by rewrite (range_of_empty order Horder) in Hne.
    + intros k l Hl. rewrite <- (lookup_total_correct _ _ _ Hl).
      apply Hall. apply (range_of_elem order Horder). eauto.
  - intros [Hne Hall]. split.
    + apply map_choose in Hne as (k & l & Hl). intros Hnil.
      assert (k ∈ order resultSet) as Hk
        by (apply (range_of_elem order Horder); eauto).
      rewrite Hnil in Hk. by apply elem_of_nil in Hk.
    + intros k [l Hl]%(range_of_elem order Horder).
      rewrite (lookup_total_correct _ _ _ Hl). by apply (Hall k).
Qed.

Lemma matchAllTerms_deterministic (order1 order2 : range_order (list positive))
    (resultSet : gmap (list Z) (list positive)) (L : list positive) :
  NoDup L → (∀ k, resultSet !!! k `sublist_of` L) →
  range_of order1 → range_of order2 →
  matchAllTerms order1 resultSet = matchAllTerms order2 resultSet.
Proof.
  intros HL Hrs H1 H2. apply (sublist_NoDup_ext L); [done|..].
  - by apply matchAllTerms_sublist.
  - by apply matchAllTerms_sublist.
  - intros md. by rewrite !matchAllTerms_elem_valid.
Qed.

Lemma resultSet_of_sublist (field : gmap (list Z) (list positive))
    (tokens : list (list Z)) (L : list positive) (k : list Z) :
  (∀ k', field !!! k' `sublist_of` L) →
  resultSet_of field tokens !!! k `sublist_of` L.
Proof.
  intros Hfield. rewrite lookup_total_alt, resultSet_of_lookup.
  case_decide; [apply Hfield|apply sublist_nil_l].
Qed.

Lemma singleton_sublist (key k : list Z) (l L : list positive) :
  l `sublist_of` L →
  ({[key := l]} : gmap (list Z) (list positive)) !!! k `sublist_of` L.
Proof.
  intros Hl. rewrite lookup_total_alt, lookup_singleton.
  case_decide; [done|apply sublist_nil_l].
Qed.

Section OrderFacts.
Context `{Imports}.

Lemma NewStorage_empty b g : (b, g) ∈ all_fields → fld_get g NewStorage = ∅.
Proof. intros Hg. field_cases Hg; reflexivity. Qed.

Lemma AddAll_new_sublist docs b g (k : list Z) :
  (b, g) ∈ all_fields →
  fld_get g (AddAll NewStorage docs) !!! k `sublist_of` docs.*1.
Proof.
  intros Hg.
  apply (AddAll_sublist NewStorage docs [] ) with (b := b); [|done].
  intros b' g' k' Hg'. rewrite (NewStorage_empty b' g' Hg').
  by rewrite lookup_total_empty.
Qed.

Lemma retrieveDocuments_deterministic
    (order1 order2 : range_order (list positive)) s attr q
    (L : list positive) :
  NoDup L →
  (∀ b g k, (b, g) ∈ all_fields → fld_get g s !!! k `sublist_of` L) →
  range_of order1 → range_of order2 →
  retrieveDocuments order1 s attr q = retrieveDocuments order2 s attr q.
Proof.
  intros HL Hs H1 H2. destruct (decide (recognized attr)) as [Hrec|Hrec].
  - apply recognized_cases in Hrec as [->|[f Hf]].
    + rewrite !retrieveDocuments_version. f_equal. f_equal.
      apply (matchAllTerms_deterministic _ _ _ L); [done| |done|done].
      intros k. apply singleton_sublist.
      apply (Hs Version f_version). by left.
    + rewrite !(retrieveDocuments_tokenized _ s attr f) by done.
      destruct (processText q) as [tokens|e]; [|done]. f_equal. f_equal.
      apply (matchAllTerms_deterministic _ _ _ L); [done| |done|done].
      intros k. apply resultSet_of_sublist. intros k'.
      apply (Hs attr f). by apply tokenized_fields_all.
  - by rewrite !retrieveDocuments_unknown.
Qed.

Lemma retrieveDocuments_sublist (order : range_order (list positive))
    s attr q r (L : list positive) :
  (∀ b g k, (b, g) ∈ all_fields → fld_get g s !!! k `sublist_of` L) →
  (retrieveDocuments order s attr q).1 = inl r → r `sublist_of` L.
Proof.
  intros Hs. destruct (decide (recognized attr)) as [Hrec|Hrec].
  - apply recognized_cases in Hrec as [->|[f Hf]].
    + rewrite retrieveDocuments_version. cbn [fst]. intros [= <-].
      apply matchAllTerms_sublist. intros k. apply singleton_sublist.
      apply (Hs Version f_version). by left.
    + rewrite (retrieveDocuments_tokenized _ s attr f) by done.
      destruct (processText q) as [tokens|e]; [|done]. cbn [fst].
      intros [= <-]. apply matchAllTerms_sublist. intros k.
      apply resultSet_of_sublist. intros k'.
      apply (Hs attr f). by apply tokenized_fields_all.
  - by rewrite retrieveDocuments_unknown.
Qed.

Lemma LookupMetadata_deterministic (sched1 sched2 : Schedule) (s : index)
    (M : gmap (list Z) (list Z)) (r : list positive) (L : list positive) :
  NoDup L →
  (∀ b g k, (b, g) ∈ all_fields → fld_get g s !!! k `sublist_of` L) →
  schedule_ok sched1 → schedule_ok sched2 →
  (LookupMetadata sched1 s M).1 = inl r →
  (LookupMetadata sched2 s M).1 = inl r.
Proof.
  intros HL Hs Hok1 Hok2 Hr1.
  destruct (LookupMetadata sched2 s M).1 as [r2|e] eqn:Hr2.
  - f_equal. pose proof Hok1 as (Houter1 & Hinner1 & Hfinal1).
    pose proof Hok2 as (Houter2 & Hinner2 & Hfinal2).
    unfold LookupMetadata in Hr1, Hr2.
    destruct (LookupMetadata_loop sched1 s M (outer sched1 M) ∅)
      as [[rs1|e1] reads1] eqn:E1; [|done].
    destruct (LookupMetadata_loop sched2 s M (outer sched2 M) ∅)
      as [[rs2|e2] reads2] eqn:E2; [|done].
    cbn [fst] in *. injection Hr1 as <-. injection Hr2 as <-.
    apply loop_inl in E1 as [Hin1 Hout1].
    apply loop_inl in E2 as [Hin2 Hout2].
    assert (Hsame : rs2 = rs1).
    { apply map_eq. intros k.
      destruct (decide (k ∈ outer sched1 M)) as [Hk1|Hk1].
      - assert (Hk2 : k ∈ outer sched2 M).
        { apply (range_of_elem _ Houter2).
          by apply (range_of_elem _ Houter1). }
        destruct (Hin1 k Hk1) as (rk1 & Hret1 & ->).
        destruct (Hin2 k Hk2) as (rk2 & Hret2 & ->).
        rewrite (retrieveDocuments_deterministic (inner sched2 k)
                   (inner sched1 k) s k (M !!! k) L HL Hs
                   (Hinner2 k) (Hinner1 k)) in Hret2.
        rewrite Hret1 in Hret2. by injection Hret2 as ->.
      - assert (Hk2 : k ∉ outer sched2 M).
        { intros Hk2. apply Hk1. apply (range_of_elem _ Houter1).
          by apply (range_of_elem _ Houter2). }
        by rewrite Hout1, Hout2. }
    rewrite Hsame.
    apply (matchAllTerms_deterministic _ _ _ L); [done| |done|done].
    intros k. rewrite lookup_total_alt.
    destruct (rs1 !! k) as [rk|] eqn:Hrk; [|apply sublist_nil_l]. cbn.
    destruct (decide (k ∈ outer sched1 M)) as [Hk1|Hk1].
    + destruct (Hin1 k Hk1) as (rk1 & Hret1 & Hrk1).
      rewrite Hrk in Hrk1. injection Hrk1 as <-.
      by apply (retrieveDocuments_sublist _ _ _ _ _ L Hs Hret1).
    + by rewrite (Hout1 k Hk1), lookup_empty in Hrk.
  - apply (LookupMetadata_inr sched2 s M e Hok2) in Hr2
      as (k & v & Hv & Hfail).
    destruct (LookupMetadata_fails sched1 s M k v e Hok1 Hv Hfail)
      as (e' & reads & Heq).
    by rewrite Heq in Hr1.
Qed.

Lemma AddAll_nonempty docs b g (k : list Z) (l : list positive) :
  (b, g) ∈ all_fields →
  fld_get g (AddAll NewStorage docs) !! k = Some l → l ≠ [].
Proof.
  enough (Hgen : ∀ s,
            (∀ b g k l, (b, g) ∈ all_fields →
                        fld_get g s !! k = Some l → l ≠ []) →
            ∀ b g k l, (b, g) ∈ all_fields →
                       fld_get g (AddAll s docs) !! k = Some l → l ≠ []).
  { apply Hgen. intros b' g' k' l' Hg'.
    by rewrite (NewStorage_empty b' g' Hg'), lookup_empty. }
  induction docs as [|d docs IH]; intros s Hs; simpl; [done|].
  apply IH. destruct (AddMetadata s d.1 d.2) as [s1 e] eqn:E. cbn [fst].
  rewrite AddMetadata_steps in E.
  by apply (runSteps_nonempty d.1 (indexing_steps d.2) s s1 e
              (indexing_steps_ok d.2) E).
Qed.
End OrderFacts.

(** ** Properties of indexing *)

(** X5. A text none of whose tokens survives stopword removal (the empty
    text, separators, stopwords) is normalised to no token and no error,
    whatever the stemmer does: indexing it leaves the posting store as it
    was, and as a query on a tokenised field it returns the empty list, no
    error, and reads nothing. *)
Theorem X5_text_without_token `{Imports} (text : list Z) :
  surviving text = [] →
  processText text = inl []
  ∧ (∀ (field : gmap (list Z) (list positive)) (metadata : positive),
       indexField text field metadata true = (field, None))
  ∧ (∀ (order : range_order (list positive)) (s : index) (F : list Z)
       (f : field_of_index),
       range_of order → (F, f) ∈ tokenized_fields →
       retrieveDocuments order s F text = (inl [], [])).
Proof.
  intros Hnone. pose proof (processText_no_token text Hnone) as Hq.
  split; [done|]. split.
  - intros field metadata. unfold indexField. by rewrite Hq.
  - intros order s F f Horder Hf.
    rewrite (retrieveDocuments_tokenized order s F f) by done.
    rewrite Hq, resultSet_of_nil. unfold matchAllTerms.
    by rewrite (range_of_empty order Horder).
Qed.

Lemma X5_text_without_token_witness :
  @surviving rejecting_imports (str "The, of -- and!") = []
  ∧ @processText rejecting_imports (str "The, of -- and!") = inl []
  ∧ @indexField rejecting_imports (str "The, of -- and!")
      (title two_documents_store) 3%positive true
    = (title two_documents_store, None).
Proof.
  assert (Hnone : @surviving rejecting_imports (str "The, of -- and!") = [])
    by (vm_compute; reflexivity).
  split; [exact Hnone|]. split.
  - exact (proj1 (@X5_text_without_token rejecting_imports _ Hnone)).
  - exact (proj1 (proj2 (@X5_text_without_token rejecting_imports _ Hnone))
             (title two_documents_store) 3%positive).
Defined.

(** X6. Indexing the same text for the same document twice in a row in a
    tokenised field changes nothing the second time: the second call
    returns the store of the first, key for key. *)
Theorem X6_indexField_again `{Imports} (text : list Z)
    (field field' : gmap (list Z) (list positive)) (metadata : positive) :
  indexField text field metadata true = (field', None) →
  indexField text field' metadata true = (field', None).
Proof. apply indexField_again. Qed.

Lemma X6_indexField_again_witness :
  @indexField excerpt_imports (str "App title app") ∅ 1%positive true
  = ({[ str "app" := [1%positive]; str "title" := [1%positive] ]}, None)
  ∧ @indexField excerpt_imports (str "App title app")
      {[ str "app" := [1%positive]; str "title" := [1%positive] ]}
      1%positive true
    = ({[ str "app" := [1%positive]; str "title" := [1%positive] ]}, None).
Proof.
  assert (Hfirst :
    @indexField excerpt_imports (str "App title app") ∅ 1%positive true
    = ({[ str "app" := [1%positive]; str "title" := [1%positive] ]}, None))
    by (vm_compute; reflexivity).
  split; [exact Hfirst|].
  exact (@X6_indexField_again excerpt_imports _ _ _ _ Hfirst).
Defined.

(** X7. One call of [AddMetadata], whether it returns an error or not,
    leaves each posting list of each of the nine stores as it was or with
    the document appended once at its end; in a tokenised store the
    document is appended only to a list that does not end with it. *)
Theorem X7_AddMetadata_appends_once `{Imports} (s s' : index)
    (metadata : positive) (md : Metadata) (err : option error) :
  AddMetadata s metadata md = (s', err) →
  (∀ b g (k : list Z), (b, g) ∈ all_fields →
     fld_get g s' !!! k = fld_get g s !!! k
     ∨ fld_get g s' !!! k = fld_get g s !!! k ++ [metadata])
  ∧ (∀ b g (k : list Z), (b, g) ∈ tokenized_fields →
       fld_get g s' !!! k ≠ fld_get g s !!! k →
       last (fld_get g s !!! k) ≠ Some metadata).
Proof.
  intros Hadd. split.
  - intros b g k Hg. by apply (AddMetadata_delta s metadata md s' err b g).
  - intros b g k Hg Hchanged. rewrite AddMetadata_steps in Hadd.
    by destruct (runSteps_delta metadata (indexing_steps md) s s' err b g k
                   (indexing_steps_ok md) Hg Hadd) as [?|[_ ?]].
Qed.

Lemma X7_AddMetadata_appends_once_witness :
  @AddMetadata excerpt_imports
    (@AddMetadata excerpt_imports NewStorage 1%positive app_title_1).1
    2%positive app_title_2
  = (two_documents_store, None)
  ∧ (Title, f_title) ∈ all_fields
  ∧ title two_documents_store !!! str "app" = [1%positive; 2%positive]
  ∧ (title two_documents_store !!! str "app"
     = title (@AddMetadata excerpt_imports NewStorage 1%positive
                app_title_1).1 !!! str "app"
     ∨ title two_documents_store !!! str "app"
       = title (@AddMetadata excerpt_imports NewStorage 1%positive
                  app_title_1).1 !!! str "app" ++ [2%positive]).
Proof.
  assert (Hadd :
    @AddMetadata excerpt_imports
      (@AddMetadata excerpt_imports NewStorage 1%positive app_title_1).1
      2%positive app_title_2
    = (two_documents_store, None)) by (vm_compute; reflexivity).
  assert (Hf : (Title, f_title) ∈ all_fields) by (right; left).
  split; [exact Hadd|]. split; [exact Hf|].
  split; [vm_compute; reflexivity|].
  exact (proj1 (@X7_AddMetadata_appends_once excerpt_imports _ _ _ _ _ Hadd)
           Title f_title (str "app") Hf).
Defined.

(** X8. In a store built from [NewStorage] by submissions no key holds an
    empty posting list: a key is present in a store only with a document
    posted under it. *)
Theorem X8_no_empty_posting_list `{Imports}
    (docs : list (positive * Metadata)) (b : list Z) (g : field_of_index)
    (k : list Z) (l : list positive) :
  (b, g) ∈ all_fields →
  fld_get g (AddAll NewStorage docs) !! k = Some l → l ≠ [].
Proof. apply AddAll_nonempty. Qed.

Lemma X8_no_empty_posting_list_witness :
  (Version, f_version) ∈ all_fields
  ∧ version two_documents_store !! str "2.0.1" = Some [2%positive]
  ∧ [2%positive] ≠ [].
Proof.
  assert (Hf : (Version, f_version) ∈ all_fields) by left.
  assert (Hl : version two_documents_store !! str "2.0.1" = Some [2%positive])
    by (vm_compute; reflexivity).
  split; [exact Hf|]. split; [exact Hl|].
  exact (@X8_no_empty_posting_list excerpt_imports two_documents
           Version f_version (str "2.0.1") [2%positive] Hf Hl).
Defined.

(** X9. In a store built from [NewStorage] by submissions, every posting
    list of every store is a sublist of the sequence of the pointers
    submitted: the documents are in the order of their submission. When
    the pointers submitted are distinct, no posting list holds a document
    twice. *)
Theorem X9_submission_order `{Imports}
    (docs : list (positive * Metadata)) (b : list Z) (g : field_of_index)
    (k : list Z) :
  (b, g) ∈ all_fields →
  fld_get g (AddAll NewStorage docs) !!! k `sublist_of` docs.*1
  ∧ (NoDup docs.*1 → NoDup (fld_get g (AddAll NewStorage docs) !!! k)).
Proof.
  intros Hg. pose proof (AddAll_new_sublist docs b g k Hg) as Hsub.
  split; [done|]. intros Hnd. by apply (sublist_NoDup _ docs.*1).
Qed.

Lemma X9_submission_order_witness :
  (Description, f_description) ∈ all_fields
  ∧ description two_documents_store !!! str "fox" = [1%positive; 2%positive]
  ∧ description two_documents_store !!! str "fox"
    `sublist_of` two_documents.*1.
Proof.
  assert (Hf : (Description, f_description) ∈ all_fields)
    by (unfold all_fields, tokenized_fields;
        repeat (first [by left | right])).
  split; [exact Hf|]. split; [vm_compute; reflexivity|].
  exact (proj1 (@X9_submission_order excerpt_imports two_documents
                  Description f_description (str "fox") Hf)).
Defined.

(** ** Properties of searching *)

(** X10. What a search finds. Documents with distinct pointers have been
    submitted to a new store, all without error. A search of a tokenised
    field whose query normalises to one token at least returns a list that
    holds a document if and only if every token of the query is a token of
    that document in that field. *)
Theorem X10_search_is_exact `{Imports} (order : range_order (list positive))
    (docs : list (positive * Metadata)) (s : index)
    (F : list Z) (f : field_of_index) (q : list Z)
    (qtokens : list (list Z)) :
  NoDup docs.*1 →
  AddUntilError NewStorage docs = (s, None) →
  (F, f) ∈ tokenized_fields →
  processText q = inl qtokens → qtokens ≠ [] →
  range_of order →
  ∃ r, (retrieveDocuments order s F q).1 = inl r
       ∧ ∀ p, p ∈ r
              ↔ ∃ md, (p, md) ∈ docs
                      ∧ ∀ t, t ∈ qtokens → field_token md F f t.
Proof.
  intros Hnd Hadd Hf Hq Hne Horder.
  destruct (retrieveDocuments_elem order s F f q qtokens 1%positive
              Hf Hq Horder Hne) as (r & Hr & _).
  exists r. split; [done|]. intros p.
  destruct (retrieveDocuments_elem order s F f q qtokens p
              Hf Hq Horder Hne) as (r' & Hr' & Hiff).
  rewrite Hr in Hr'. injection Hr' as <-. rewrite Hiff. split.
  - intros Hall. rewrite (AddUntilError_AddAll _ _ _ Hadd) in Hall.
    assert (Hmd : ∀ t, t ∈ qtokens →
              ∃ md, (p, md) ∈ docs ∧ field_token md F f t).
    { intros t Ht.
      destruct (AddAll_provenance NewStorage docs F f t p Hf (Hall t Ht))
        as [Hnew|?]; [|done].
      rewrite (NewStorage_empty F f) in Hnew
        by (by apply tokenized_fields_all).
      rewrite lookup_total_empty in Hnew. by apply elem_of_nil in Hnew. }
    destruct qtokens as [|t0 qtokens]; [done|].
    destruct (Hmd t0) as (md & Hin & _); [by left|].
    exists md. split; [done|]. intros t Ht.
    destruct (Hmd t Ht) as (md' & Hin' & Htok).
    by rewrite (NoDup_fst_functional docs p md md' Hnd Hin Hin').
  - intros (md & Hin & Hall) t Ht.
    apply (AddUntilError_complete NewStorage docs s p md F f t);
      [done|done|]. by apply Hall.
Qed.

Lemma X10_search_is_exact_witness :
  NoDup two_documents.*1
  ∧ @AddUntilError excerpt_imports NewStorage two_documents
    = (two_documents_store, None)
  ∧ (Description, f_description) ∈ tokenized_fields
  ∧ @processText excerpt_imports (str "quick blue fox")
    = inl [str "quick"; str "blue"; str "fox"]
  ∧ range_of (@canonical_order (list positive))
  ∧ ∃ r, (@retrieveDocuments excerpt_imports canonical_order
            two_documents_store Description (str "quick blue fox")).1 = inl r
         ∧ ∀ p, p ∈ r
                ↔ ∃ md, (p, md) ∈ two_documents
                        ∧ ∀ t, t ∈ [str "quick"; str "blue"; str "fox"] →
                               @field_token excerpt_imports md Description
                                 f_description t.
Proof.
  assert (Hnd : NoDup two_documents.*1)
    by (apply (bool_decide_unpack _); vm_compute; exact I).
  assert (Hadd : @AddUntilError excerpt_imports NewStorage two_documents
                 = (two_documents_store, None))
    by (vm_compute; reflexivity).
  assert (Hf : (Description, f_description) ∈ tokenized_fields)
    by (unfold tokenized_fields; repeat (first [by left | right])).
  assert (Hq : @processText excerpt_imports (str "quick blue fox")
               = inl [str "quick"; str "blue"; str "fox"])
    by (vm_compute; reflexivity).
  split; [exact Hnd|]. split; [exact Hadd|]. split; [exact Hf|].
  split; [exact Hq|]. split; [exact canonical_order_ok|].
  refine (@X10_search_is_exact excerpt_imports canonical_order two_documents
            two_documents_store Description f_description
            (str "quick blue fox") [str "quick"; str "blue"; str "fox"]
            Hnd Hadd Hf Hq _ canonical_order_ok).
  discriminate.
Defined.

(** X11. The result does not depend on the order of [range] when the
    pointers are distinct. In a store built from [NewStorage] by the
    submission of documents with distinct pointers, a search returns the
    same list, the same error and makes the same reads under every order;
    and a lookup that returns a list under one schedule returns that very
    list under every schedule. *)
Theorem X11_result_is_deterministic `{Imports}
    (docs : list (positive * Metadata)) :
  NoDup docs.*1 →
  (∀ (order1 order2 : range_order (list positive)) (attr q : list Z),
     range_of order1 → range_of order2 →
     retrieveDocuments order1 (AddAll NewStorage docs) attr q
     = retrieveDocuments order2 (AddAll NewStorage docs) attr q)
  ∧ (∀ (sched1 sched2 : Schedule) (M : gmap (list Z) (list Z))
       (r : list positive),
       schedule_ok sched1 → schedule_ok sched2 →
       (LookupMetadata sched1 (AddAll NewStorage docs) M).1 = inl r →
       (LookupMetadata sched2 (AddAll NewStorage docs) M).1 = inl r).
Proof.
  intros Hnd.
  assert (Hs : ∀ b g k, (b, g) ∈ all_fields →
            fld_get g (AddAll NewStorage docs) !!! k `sublist_of` docs.*1).
  { intros b g k Hg. by apply (AddAll_new_sublist docs b g k). }
  split.
  - intros order1 order2 attr q H1 H2.
    by apply (retrieveDocuments_deterministic _ _ _ _ _ docs.*1).
  - intros sched1 sched2 M r H1 H2.
    by apply (LookupMetadata_deterministic _ _ _ _ _ docs.*1).
Qed.

Lemma X11_result_is_deterministic_witness :
  NoDup two_documents.*1
  ∧ range_of (@canonical_order (list positive))
  ∧ range_of (@first_order (list positive) (str "fox"))
  ∧ @retrieveDocuments excerpt_imports canonical_order two_documents_store
      Description (str "quick fox")
    = @retrieveDocuments excerpt_imports (first_order (str "fox"))
        two_documents_store Description (str "quick fox").
Proof.
  assert (Hnd : NoDup two_documents.*1)
    by (apply (bool_decide_unpack _); vm_compute; exact I).
  split; [exact Hnd|]. split; [exact canonical_order_ok|].
  split; [exact (first_order_ok (str "fox"))|].
  exact (proj1 (@X11_result_is_deterministic excerpt_imports two_documents
                  Hnd)
           canonical_order (first_order (str "fox")) Description
           (str "quick fox") canonical_order_ok
           (first_order_ok (str "fox"))).
Defined.

(** X12. [intersection] returns the documents of its second list that are
    in the first, in the order and with the repetitions of the second
    list; it holds a document exactly when both lists do; a list
    intersected with itself is that list, and the empty list on either
    side gives the empty list. *)
Theorem X12_intersection_of_lists :
  (∀ slice1 slice2, intersection slice1 slice2 `sublist_of` slice2)
  ∧ (∀ slice1 slice2 md,
       md ∈ intersection slice1 slice2 ↔ md ∈ slice1 ∧ md ∈ slice2)
  ∧ (∀ slice1 slice2 md,
       md ∈ slice1 →
       length (filter (λ x, x = md) (intersection slice1 slice2))
       = length (filter (λ x, x = md) slice2))
  ∧ (∀ slice, intersection slice slice = slice)
  ∧ (∀ slice, intersection [] slice = [] ∧ intersection slice [] = []).
Proof.
  split; [apply intersection_sublist|].
  split; [intros; apply elem_of_intersection|].
  split; [|split].
  - intros slice1 slice2 md Hmd. rewrite intersection_filter.
    rewrite list_filter_filter. f_equal. apply list_filter_iff.
    intros x. split; [tauto|]. by intros ->.
  - intros slice. rewrite intersection_filter.
    assert (Hall : ∀ l : list positive,
              (∀ x, x ∈ l → x ∈ slice) → filter (λ md, md ∈ slice) l = l).
    { induction l as [|x l IH]; intros Hl; [done|].
      rewrite filter_cons, decide_True by (apply Hl; by left).
      f_equal. apply IH. intros y Hy. apply Hl. by right. }
    by apply Hall.
  - intros slice. split; [apply intersection_nil_l|].
    by rewrite intersection_filter.
Qed.

Section MoreSearchFacts.
Context `{Imports}.

Lemma LookupMetadata_singleton (sched : Schedule) (s : index) (k v : list Z) :
  schedule_ok sched →
  LookupMetadata sched s {[k := v]} = retrieveDocuments (inner sched k) s k v.
Proof.
  intros (Houter & _ & Hfinal). unfold LookupMetadata.
  rewrite (range_of_singleton (outer sched) Houter).
  cbn [LookupMetadata_loop]. rewrite lookup_total_singleton_eq.
  destruct (retrieveDocuments (inner sched k) s k v) as [[r|e] reads];
    [|done].
  rewrite app_nil_r, insert_empty. unfold matchAllTerms.
  rewrite (range_of_singleton (final sched) Hfinal).
  by rewrite lookup_total_singleton_eq.
Qed.

Lemma retrieveDocuments_same_reads
    (order1 order2 : range_order (list positive)) s attr q :
  (retrieveDocuments order1 s attr q).2 = (retrieveDocuments order2 s attr q).2.
Proof.
  destruct (decide (recognized attr)) as [Hrec|Hrec].
  - apply recognized_cases in Hrec as [->|[f Hf]].
    + by rewrite !retrieveDocuments_version.
    + rewrite !(retrieveDocuments_tokenized _ s attr f) by done.
      by destruct (processText q).
  - by rewrite !retrieveDocuments_unknown.
Qed.
End MoreSearchFacts.

(** X13. A lookup of one field is the search of that field: same list or
    error, same reads. *)
Theorem X13_lookup_of_one_field `{Imports} (sched : Schedule) (s : index)
    (k v : list Z) :
  schedule_ok sched →
  LookupMetadata sched s {[k := v]} = retrieveDocuments (inner sched k) s k v.
Proof. apply LookupMetadata_singleton. Qed.

Lemma X13_lookup_of_one_field_witness :
  schedule_ok canonical_schedule
  ∧ @LookupMetadata excerpt_imports canonical_schedule two_documents_store
      {[ License := str "mit" ]}
    = @retrieveDocuments excerpt_imports canonical_order two_documents_store
        License (str "mit")
  ∧ (@retrieveDocuments excerpt_imports canonical_order two_documents_store
       License (str "mit")).1 = inl [1%positive; 2%positive].
Proof.
  split; [exact canonical_schedule_ok|]. split; [|vm_compute; reflexivity].
  exact (@X13_lookup_of_one_field excerpt_imports canonical_schedule
           two_documents_store License (str "mit") canonical_schedule_ok).
Defined.

(** X14. In any store, the order of [range] changes neither the error of a
    search, nor its reads, nor the documents its list holds; the list
    itself can change when a pointer has been submitted twice: after the
    submissions of [fox_hen_documents] the search of the title for "fox
    hen" returns the first document once or twice, by the order. *)
Theorem X14_order_of_range `{Imports} :
  (∀ (order1 order2 : range_order (list positive)) (s : index)
     (attr q : list Z),
     range_of order1 → range_of order2 →
     (retrieveDocuments order1 s attr q).2
     = (retrieveDocuments order2 s attr q).2
     ∧ match (retrieveDocuments order1 s attr q).1,
             (retrieveDocuments order2 s attr q).1 with
       | inl r1, inl r2 => ∀ md, md ∈ r1 ↔ md ∈ r2
       | inr err1, inr err2 => err1 = err2
       | _, _ => False
       end)
  ∧ range_of (@first_order (list positive) (str "fox"))
  ∧ range_of (@first_order (list positive) (str "hen"))
  ∧ (@retrieveDocuments excerpt_imports (first_order (str "fox"))
       (@AddAll excerpt_imports NewStorage fox_hen_documents)
       Title (str "fox hen")).1 = inl [1%positive]
  ∧ (@retrieveDocuments excerpt_imports (first_order (str "hen"))
       (@AddAll excerpt_imports NewStorage fox_hen_documents)
       Title (str "fox hen")).1 = inl [1%positive; 1%positive].
Proof.
  split; [|split; [apply first_order_ok|split; [apply first_order_ok|]]].
  - intros order1 order2 s attr q H1 H2.
    split; [apply retrieveDocuments_same_reads|].
    destruct (retrieveDocuments order1 s attr q).1 as [r1|e1] eqn:E1;
      destruct (retrieveDocuments order2 s attr q).1 as [r2|e2] eqn:E2.
    + intros md.
      rewrite (retrieveDocuments_inl order1 s attr q r1 H1 E1).
      by rewrite (retrieveDocuments_inl order2 s attr q r2 H2 E2).
    + apply retrieveDocuments_inr in E2.
      apply (retrieveDocuments_inr order1 s) in E2. by rewrite E1 in E2.
    + apply retrieveDocuments_inr in E1.
      apply (retrieveDocuments_inr order2 s) in E1. by rewrite E2 in E1.
    + apply retrieveDocuments_inr in E1.
      apply (retrieveDocuments_inr order2 s) in E1. rewrite E2 in E1.
      by injection E1.
  - split; vm_compute; reflexivity.
Qed.

(** ** Pieces of a text *)

Lemma Split_without (s : list Z) (sep : Z) : sep ∉ s → Split s sep = [s].
Proof.
  induction s as [|r rest IH]; intros Hs; simpl; [done|].
  rewrite not_elem_of_cons in Hs. destruct Hs as [Hr Hrest].
  rewrite bool_decide_eq_false_2 by done. by rewrite IH.
Qed.

Lemma Split_at_first (l rest : list Z) (sep : Z) :
  sep ∉ l → Split (l ++ sep :: rest) sep = l :: Split rest sep.
Proof.
  induction l as [|r l IH]; intros Hl; simpl.
  - by rewrite bool_decide_eq_true_2.
  - rewrite not_elem_of_cons in Hl. destruct Hl as [Hr Hl].
    rewrite bool_decide_eq_false_2 by done. by rewrite IH.
Qed.

(** ** The regular expression of the email addresses *)

Lemma nullable_sound (re : regexp) : nullable re = true → lang re [].
Proof.
  induction re as [| |c|ranges chars|r1 IH1 r2 IH2|r1 IH1 r2 IH2|r IH|r IH
                   |r IH|n r IH]; simpl; try done; try by constructor.
  - intros [H1 H2]%andb_true_iff.
    apply (lang_Cat r1 r2 [] []); [by apply IH1|by apply IH2].
  - intros [H1|H2]%orb_true_iff.
    + apply lang_Alt_l. by apply IH1.
    + apply lang_Alt_r. by apply IH2.
  - intros Hr. apply (lang_Plus r [] []); [by apply IH|constructor].
Qed.

Lemma nullable_complete (re : regexp) (s : list Z) :
  lang re s → s = [] → nullable re = true.
Proof.
  induction 1 as [|c|ranges chars c Hc|r1 r2 s1 s2 H1 IH1 H2 IH2
                  |r1 r2 s H1 IH1|r1 r2 s H2 IH2| |r s1 s2 H1 IH1 H2 IH2
                  |r s1 s2 H1 IH1 H2 IH2| |r s H1 IH1|
                  |n r s1 s2 H1 IH1 H2 IH2]; simpl; try done.
  - intros [-> ->]%app_eq_nil. by rewrite IH1, IH2.
  - intros ->. by rewrite IH1.
  - intros ->. rewrite IH2 by done. by rewrite orb_true_r.
  - intros [-> ->]%app_eq_nil. by apply IH1.
Qed.

Lemma lang_Repeat0_mono (n : nat) (r : regexp) (s : list Z) :
  lang (Repeat0 n r) s → lang (Repeat0 (S n) r) s.
Proof.
  revert s. induction n as [|n IH]; intros s Hs.
  - inversion Hs; subst. constructor.
  - inversion Hs as [| | | | | | | | | | | |n' r' s1 s2 H1 H2]; subst.
    + constructor.
    + constructor; [done|]. by apply IH.
Qed.

Lemma deriv_sound (c : Z) (re : regexp) (s : list Z) :
  lang (deriv c re) s → lang re (c :: s).
Proof.
  revert s.
  induction re as [| |c'|ranges chars|r1 IH1 r2 IH2|r1 IH1 r2 IH2|r IH|r IH
                   |r IH|n r IH]; intros s; simpl.
  - inversion 1.
  - inversion 1.
  - case_bool_decide as Hc; inversion 1; subst. constructor.
  - destruct (in_class ranges chars c) eqn:Hc; inversion 1; subst.
    by constructor.
  - destruct (nullable r1) eqn:Hn.
    + inversion 1 as [| | | |? ? ? Hl|? ? ? Hr| | | | | | |]; subst.
      * inversion Hl as [| | |? ? s1 s2 H1 H2| | | | | | | | |]; subst.
        apply (lang_Cat r1 r2 (c :: s1) s2); [by apply IH1|done].
      * apply (lang_Cat r1 r2 [] (c :: s));
          [by apply nullable_sound|by apply IH2].
    + inversion 1 as [| | |? ? s1 s2 H1 H2| | | | | | | | |]; subst.
      apply (lang_Cat r1 r2 (c :: s1) s2); [by apply IH1|done].
  - inversion 1; subst.
    + apply lang_Alt_l. by apply IH1.
    + apply lang_Alt_r. by apply IH2.
  - inversion 1 as [| | |? ? s1 s2 H1 H2| | | | | | | | |]; subst.
    apply (lang_Star_cons r (c :: s1) s2); [by apply IH|done].
  - inversion 1 as [| | |? ? s1 s2 H1 H2| | | | | | | | |]; subst.
    apply (lang_Plus r (c :: s1) s2); [by apply IH|done].
  - intros Hs. apply lang_Quest_one. by apply IH.
  - destruct n as [|n]; [inversion 1|].
    inversion 1 as [| | |? ? s1 s2 H1 H2| | | | | | | | |]; subst.
    apply (lang_Repeat0_cons n r (c :: s1) s2); [by apply IH|done].
Qed.

Lemma deriv_complete (c : Z) (re : regexp) (s' : list Z) :
  lang re s' → ∀ s, s' = c :: s → lang (deriv c re) s.
Proof.
  induction 1 as [|c'|ranges chars c' Hc|r1 r2 s1 s2 H1 IH1 H2 IH2
                  |r1 r2 s0 H1 IH1|r1 r2 s0 H2 IH2| |r s1 s2 H1 IH1 H2 IH2
                  |r s1 s2 H1 IH1 H2 IH2| |r s0 H1 IH1|
                  |n r s1 s2 H1 IH1 H2 IH2]; intros s Hs; simpl; try done.
  - injection Hs as <- <-. rewrite bool_decide_eq_true_2 by done. constructor.
  - injection Hs as <- <-. rewrite Hc. constructor.
  - destruct s1 as [|c1 s1]; simpl in Hs.
    + rewrite (nullable_complete r1 [] H1 eq_refl).
      apply lang_Alt_r. by apply IH2.
    + injection Hs as -> <-.
      assert (lang (Cat (deriv c r1) r2) (s1 ++ s2))
        by (constructor; [by apply IH1|done]).
      destruct (nullable r1); [by apply lang_Alt_l|done].
  - apply lang_Alt_l. by apply IH1.
  - apply lang_Alt_r. by apply IH2.
  - destruct s1 as [|c1 s1]; simpl in Hs.
    + by apply IH2.
    + injection Hs as -> <-. constructor; [by apply IH1|done].
  - destruct s1 as [|c1 s1]; simpl in Hs.
    + by apply IH2.
    + injection Hs as -> <-. constructor; [by apply IH1|done].
  - by apply IH1.
  - destruct s1 as [|c1 s1]; simpl in Hs.
    + specialize (IH2 s Hs). destruct n as [|n]; simpl in IH2.
      * inversion IH2.
      * inversion IH2 as [| | |? ? t1 t2 Ht1 Ht2| | | | | | | | |]; subst.
        constructor; [done|]. by apply lang_Repeat0_mono.
    + injection Hs as -> <-. constructor; [by apply IH1|done].
Qed.

Lemma MatchString_lang (re : regexp) (s : list Z) :
  MatchString re s = true ↔ lang re s.
Proof.
  unfold MatchString. revert re.
  induction s as [|c s IH]; intros re; cbn [foldl].
  - split; [apply nullable_sound|]. intros Hs.
    by apply (nullable_complete re []).
  - rewrite IH. split; [apply deriv_sound|].
    intros Hs. by apply (deriv_complete c re (c :: s)).
Qed.

Lemma lang_runes (re : regexp) (s : list Z) :
  lang re s → Forall (λ c, rune_of_pattern re c = true) s.
Proof.
  induction 1 as [|c'|ranges chars c' Hc|r1 r2 s1 s2 H1 IH1 H2 IH2
                  |r1 r2 s0 H1 IH1|r1 r2 s0 H2 IH2| |r s1 s2 H1 IH1 H2 IH2
                  |r s1 s2 H1 IH1 H2 IH2| |r s0 H1 IH1|
                  |n r s1 s2 H1 IH1 H2 IH2]; simpl in *;
    try done; try by apply Forall_app.
  - constructor; [by apply bool_decide_eq_true_2|done].
  - by constructor.
  - apply Forall_app. split.
    + eapply Forall_impl; [exact IH1|]. intros c ->. done.
    + eapply Forall_impl; [exact IH2|]. intros c ->. by rewrite orb_true_r.
  - eapply Forall_impl; [exact IH1|]. intros c ->. done.
  - eapply Forall_impl; [exact IH2|]. intros c ->. by rewrite orb_true_r.
Qed.

(** The shape of an address that [emailRegex] matches. *)
Lemma emailRegex_shape (e : list Z) :
  MatchString emailRegex e = true →
  ∃ loc domain,
    e = loc ++ at_sign :: domain
    ∧ loc ≠ [] ∧ domain ≠ []
    ∧ Forall (λ c, rune_of_pattern emailRegex_local c = true) loc
    ∧ Forall (λ c, rune_of_pattern emailRegex_domain c = true) domain.
Proof.
  intros He%MatchString_lang. unfold emailRegex in He.
  inversion He as [| | |? ? loc rest Hloc Hrest| | | | | | | | |]; subst.
  inversion Hrest as [| | |? ? at_ domain Hat Hdomain| | | | | | | | |];
    subst.
  inversion Hat; subst.
  exists loc, domain. split; [done|].
  split; [|split; [|split]].
  - intros ->. by apply (nullable_complete _ []) in Hloc.
  - intros ->. by apply (nullable_complete _ []) in Hdomain.
  - by apply lang_runes.
  - by apply lang_runes.
Qed.

Lemma emailRegex_no_at (re : regexp) (s : list Z) :
  rune_of_pattern re at_sign = false →
  Forall (λ c, rune_of_pattern re c = true) s → at_sign ∉ s.
Proof.
  intros Hre Hs Hin. rewrite Forall_forall in Hs.
  specialize (Hs at_sign Hin). congruence.
Qed.

Lemma emailRegex_one_at (e : list Z) :
  MatchString emailRegex e = true →
  ∃ loc domain,
    e = loc ++ at_sign :: domain
    ∧ loc ≠ [] ∧ domain ≠ [] ∧ (at_sign ∉ loc) ∧ (at_sign ∉ domain).
Proof.
  intros (loc & domain & -> & Hloc & Hdomain & Hl & Hd)%emailRegex_shape.
  exists loc, domain. repeat split; try done.
  - by apply (emailRegex_no_at emailRegex_local).
  - by apply (emailRegex_no_at emailRegex_domain).
Qed.


Lemma lang_Class_inv ranges chars (s : list Z) :
  lang (Class ranges chars) s ↔ ∃ c, s = [c] ∧ in_class ranges chars c = true.
Proof.
  split.
  - inversion 1; subst. eauto.
  - intros (c & -> & Hc). by constructor.
Qed.

Lemma lang_Lit_inv (c : ascii) (s : list Z) :
  lang (Lit c) s ↔ s = [rune_of c].
Proof. split; [by inversion 1|intros ->; constructor]. Qed.

Lemma lang_Cat_inv (r1 r2 : regexp) (s : list Z) :
  lang (Cat r1 r2) s ↔ ∃ s1 s2, s = s1 ++ s2 ∧ lang r1 s1 ∧ lang r2 s2.
Proof.
  split.
  - inversion 1; subst. eauto.
  - intros (s1 & s2 & -> & H1 & H2). by constructor.
Qed.

Lemma lang_Quest_inv (r : regexp) (s : list Z) :
  lang (Quest r) s ↔ s = [] ∨ lang r s.
Proof.
  split.
  - inversion 1; subst; eauto.
  - intros [->|Hs]; by constructor.
Qed.

Lemma lang_Star_inv (r : regexp) (s : list Z) :
  lang (Star r) s ↔ ∃ pieces, s = concat pieces ∧ Forall (lang r) pieces.
Proof.
  split.
  - intros Hs. remember (Star r) as re eqn:Ere.
    induction Hs as [| | | | | | |r' s1 s2 H1 _ H2 IH2| | | | |];
      try discriminate; injection Ere as ->.
    + by exists [].
    + destruct (IH2 eq_refl) as (pieces & -> & Hpieces).
      exists (s1 :: pieces). split; [done|by constructor].
  - intros (pieces & -> & Hpieces).
    induction Hpieces as [|piece pieces Hpiece _ IH]; simpl;
      by constructor.
Qed.

Lemma lang_Plus_inv (r : regexp) (s : list Z) :
  lang (Plus r) s ↔ ∃ s1 s2, s = s1 ++ s2 ∧ lang r s1 ∧ lang (Star r) s2.
Proof.
  split.
  - inversion 1; subst. eauto.
  - intros (s1 & s2 & -> & H1 & H2). by constructor.
Qed.

Lemma lang_Star_Class ranges chars (s : list Z) :
  lang (Star (Class ranges chars)) s
  ↔ Forall (λ c, in_class ranges chars c = true) s.
Proof.
  rewrite lang_Star_inv. split.
  - intros (pieces & -> & Hpieces).
    induction Hpieces as [|piece pieces Hpiece _ IH]; simpl; [done|].
    apply lang_Class_inv in Hpiece as (c & -> & Hc). by constructor.
  - intros Hs. exists ((λ c, [c]) <$> s). split.
    + induction s as [|c s IH]; [done|]. csimpl. f_equal.
      apply IH. by inversion Hs.
    + apply Forall_fmap. eapply Forall_impl; [exact Hs|].
      intros c Hc. by constructor.
Qed.

Lemma lang_Repeat0_Class (n : nat) ranges chars (s : list Z) :
  lang (Repeat0 n (Class ranges chars)) s
  ↔ (length s ≤ n)%nat ∧ Forall (λ c, in_class ranges chars c = true) s.
Proof.
  split.
  - revert s. induction n as [|n IH]; intros s Hs.
    + inversion Hs; subst. by split.
    + inversion Hs as [| | | | | | | | | | | |? ? s1 s2 H1 H2]; subst.
      * split; [simpl; lia|done].
      * apply lang_Class_inv in H1 as (c & -> & Hc).
        destruct (IH s2 H2) as [Hlen Hall].
        split; [simpl; lia|by constructor].
  - revert n. induction s as [|c s IH]; intros n [Hlen Hall].
    + constructor.
    + destruct n as [|n]; [simpl in Hlen; lia|].
      apply (lang_Repeat0_cons n _ [c] s).
      * constructor. by inversion Hall.
      * apply IH. split; [simpl in Hlen; lia|by inversion Hall].
Qed.

Lemma in_class_hyphen (c : Z) :
  in_class [a_z; A_Z; zero_nine] "-" c = true
  ↔ alnum c = true ∨ c = hyphen.
Proof.
  unfold alnum, in_class.
  replace (bool_decide (c ∈ str EmptyString)) with false
    by (symmetry; apply bool_decide_eq_false_2; apply not_elem_of_nil).
  rewrite orb_false_r, orb_true_iff, bool_decide_eq_true.
  change (str "-") with [hyphen]. by rewrite list_elem_of_singleton.
Qed.

Lemma lang_label (l : list Z) : lang emailRegex_label l ↔ dns_label l.
Proof.
  unfold emailRegex_label, dns_label.
  rewrite lang_Cat_inv. split.
  - intros (s1 & s2 & -> & (a & -> & Ha)%lang_Class_inv & Hq%lang_Quest_inv).
    fold (alnum a) in Ha.
    destruct Hq as [->|Hq].
    + rewrite app_nil_r. split; [simpl; lia|].
      split; [constructor; [by left|constructor]|].
      split; by exists a.
    + apply lang_Cat_inv in Hq
        as (mid & s3 & -> & [Hlen Hmid]%lang_Repeat0_Class
            & (z & -> & Hz)%lang_Class_inv).
      fold (alnum z) in Hz.
      split; [simpl; rewrite length_app; simpl; lia|].
      split; [|split].
      * constructor; [by left|]. apply Forall_app. split.
        -- eapply Forall_impl; [exact Hmid|]. intros c.
           apply in_class_hyphen.
        -- constructor; [by left|constructor].
      * by exists a.
      * exists z. split; [|done].
        change ([a] ++ mid ++ [z]) with ((a :: mid) ++ [z]).
        by rewrite last_snoc.
  - intros (Hlen & Hall & (a & Hhead & Ha) & (z & Hlast & Hz)).
    destruct l as [|a' rest]; [done|]. injection Hhead as ->.
    exists [a], rest. split; [done|].
    split; [by constructor|]. apply lang_Quest_inv.
    destruct (decide (rest = [])) as [->|Hrest]; [by left|right].
    destruct (exists_last Hrest) as (mid & z' & ->).
    change (a :: mid ++ [z']) with ((a :: mid) ++ [z']) in Hlast.
    rewrite last_snoc in Hlast. injection Hlast as ->.
    apply lang_Cat_inv. exists mid, [z]. split; [done|].
    split; [|by constructor].
    apply lang_Repeat0_Class. split.
    + simpl in Hlen. rewrite length_app in Hlen. simpl in Hlen. lia.
    + inversion Hall as [|? ? _ Hrest']; subst.
      apply Forall_app in Hrest' as [Hmid _].
      eapply Forall_impl; [exact Hmid|]. intros c.
      apply in_class_hyphen.
Qed.

Lemma dns_label_no_dot (l : list Z) : dns_label l → dot ∉ l.
Proof.
  intros (_ & Hall & _) Hin. rewrite Forall_forall in Hall.
  by destruct (Hall dot Hin) as [Hd|Hd]; vm_compute in Hd.
Qed.

Lemma Split_join (s : list Z) (sep : Z) :
  ∃ piece pieces,
    Split s sep = piece :: pieces
    ∧ s = piece ++ concat ((λ p, sep :: p) <$> pieces).
Proof.
  induction s as [|r s (piece & pieces & Hsplit & Hs)]; simpl.
  - by exists [], [].
  - case_bool_decide as Hr.
    + subst r. exists [], (piece :: pieces). rewrite Hsplit.
      split; [done|]. csimpl. by rewrite <- Hs.
    + rewrite Hsplit. exists (r :: piece), pieces.
      split; [done|]. simpl. by rewrite <- Hs.
Qed.

Lemma Split_of_join (piece : list Z) (pieces : list (list Z)) (sep : Z) :
  sep ∉ piece → Forall (λ p, sep ∉ p) pieces →
  Split (piece ++ concat ((λ p, sep :: p) <$> pieces)) sep
  = piece :: pieces.
Proof.
  intros Hpiece Hpieces. revert piece Hpiece.
  induction Hpieces as [|p pieces Hp _ IH]; intros piece Hpiece; csimpl.
  - rewrite app_nil_r. by apply Split_without.
  - rewrite Split_at_first by done. by rewrite IH.
Qed.

Lemma lang_domain (d : list Z) :
  lang emailRegex_domain d ↔ Forall dns_label (Split d dot).
Proof.
  unfold emailRegex_domain. rewrite lang_Cat_inv. split.
  - intros (l & s & -> & Hl%lang_label & (pieces & -> & Hpieces)%lang_Star_inv).
    assert (∃ labels, pieces = (λ p, dot :: p) <$> labels
                      ∧ Forall dns_label labels) as (labels & -> & Hlabels).
    { induction Hpieces as [|piece pieces Hpiece _ (labels & -> & IH)].
      - by exists [].
      - apply lang_Cat_inv in Hpiece
          as (s1 & l' & -> & ->%lang_Lit_inv & Hl'%lang_label).
        exists (l' :: labels). split; [done|by constructor]. }
    rewrite Split_of_join.
    + by constructor.
    + by apply dns_label_no_dot.
    + eapply Forall_impl; [exact Hlabels|]. apply dns_label_no_dot.
  - intros Hall.
    destruct (Split_join d dot) as (l & labels & Hsplit & ->).
    rewrite Hsplit in Hall. inversion Hall as [|? ? Hl Hlabels]; subst.
    exists l, (concat ((λ p, dot :: p) <$> labels)). split; [done|].
    split; [by apply lang_label|]. apply lang_Star_inv.
    exists ((λ p, dot :: p) <$> labels). split; [done|].
    apply Forall_fmap. eapply Forall_impl; [exact Hlabels|].
    intros l' Hl'. apply lang_Cat_inv. exists [dot], l'.
    split; [done|]. split; [by apply lang_Lit_inv|by apply lang_label].
Qed.

(** X15. The addresses that [emailRegex] matches are exactly the texts
    [local@domain] with a non-empty local part made of the runes of the
    first class of the pattern, and a domain whose pieces between dots are
    all labels: one to 63 letters, digits and hyphens, neither beginning
    nor ending with a hyphen. *)
Theorem X15_accepted_addresses (e : list Z) :
  MatchString emailRegex e = true
  ↔ ∃ loc domain,
      e = loc ++ at_sign :: domain
      ∧ loc ≠ []
      ∧ Forall (λ c, local_rune c = true) loc
      ∧ Forall dns_label (Split domain dot).
Proof.
  rewrite MatchString_lang. unfold emailRegex, emailRegex_local.
  rewrite lang_Cat_inv. split.
  - intros (loc & rest & -> & Hloc & Hrest).
    apply lang_Cat_inv in Hrest
      as (s1 & domain & -> & ->%lang_Lit_inv & Hdomain%lang_domain).
    apply lang_Plus_inv in Hloc
      as (s1 & s2 & -> & (c & -> & Hc)%lang_Class_inv & Hs2%lang_Star_Class).
    exists ([c] ++ s2), domain. split; [done|]. split; [done|].
    split; [by constructor|done].
  - intros (loc & domain & -> & Hne & Hloc & Hdomain).
    exists loc, (at_sign :: domain). split; [done|]. split.
    + destruct loc as [|c loc]; [done|].
      apply lang_Plus_inv. exists [c], loc. split; [done|].
      inversion Hloc; subst.
      split; [by constructor|by apply lang_Star_Class].
    + apply lang_Cat_inv. exists [at_sign], domain. split; [done|].
      split; [by apply lang_Lit_inv|by apply lang_domain].
Qed.

(** ** Validation *)

Section ValidationFacts.
Context `{ValidationImports}.

Lemma validateEmail_format (e : list Z) :
  validateEmail e
  = if MatchString emailRegex e
    then match Split e at_sign !! 1%nat with
         | None => Panic
         | Some domain =>
             if bool_decide ((net_LookupMX domain).2 ≠ None)
                || bool_decide ((net_LookupMX domain).1 = 0%nat)
             then Return (Some "email must be a valid email address"%string)
             else Return None
         end
    else Return (Some "email must be a properly formatted email address"%string).
Proof.
  unfold validateEmail.
  assert (bool_decide (len e < 3)%Z && bool_decide (len e > 254)%Z = false)
    as ->.
  { apply andb_false_iff.
    destruct (decide (len e < 3)%Z) as [Hlt|Hge].
    - right. apply bool_decide_eq_false_2. lia.
    - left. by apply bool_decide_eq_false_2. }
  cbn [orb]. destruct (MatchString emailRegex e); cbn [negb]; [|done].
  destruct (Split e at_sign !! 1%nat) as [domain|]; [|done].
  by destruct (net_LookupMX domain) as [mx err].
Qed.

Lemma validateEmail_message (e : list Z) (msg : string) :
  validateEmail e = Return (Some msg) →
  (msg = "email must be a properly formatted email address"%string
   ∧ MatchString emailRegex e = false)
  ∨ (msg = "email must be a valid email address"%string
     ∧ MatchString emailRegex e = true).
Proof.
  rewrite validateEmail_format.
  destruct (MatchString emailRegex e).
  - destruct (Split e at_sign !! 1%nat) as [domain|]; [|done].
    case_match; [|done]. intros [= <-]. by right.
  - intros [= <-]. by left.
Qed.

Lemma validateEmail_domain (loc domain : list Z) :
  at_sign ∉ loc → at_sign ∉ domain →
  Split (loc ++ at_sign :: domain) at_sign !! 1%nat = Some domain.
Proof.
  intros Hloc Hdomain. rewrite Split_at_first by done.
  by rewrite Split_without.
Qed.

Lemma validateEmail_no_panic (e : list Z) : validateEmail e ≠ Panic.
Proof.
  rewrite validateEmail_format.
  destruct (MatchString emailRegex e) eqn:He; [|done].
  apply emailRegex_one_at in He
    as (loc & domain & -> & _ & _ & Hloc & Hdomain).
  rewrite validateEmail_domain by done. by case_match.
Qed.

Lemma validateMaintainers_accepts (ms : list Maintainer) :
  validateMaintainers ms = Return None
  ↔ ∀ m, m ∈ ms →
         Maintainer_Name m ≠ [] ∧ Maintainer_Email m ≠ []
         ∧ validateEmail (Maintainer_Email m) = Return None.
Proof.
  induction ms as [|m ms IH]; simpl.
  - split; [|done]. intros _ m Hm. by apply elem_of_nil in Hm.
  - repeat case_bool_decide.
    + split; [done|]. intros Hall.
      by destruct (Hall m (list_elem_of_here _ _)) as [? _].
    + split; [done|]. intros Hall.
      by destruct (Hall m (list_elem_of_here _ _)) as (_ & ? & _).
    + destruct (validateEmail (Maintainer_Email m)) as [[msg|]|] eqn:E.
      * split; [done|]. intros Hall.
        destruct (Hall m (list_elem_of_here _ _)) as (_ & _ & ?). congruence.
      * rewrite IH. split.
        -- intros Hall m' [->|Hm']%elem_of_cons; [done|by apply Hall].
        -- intros Hall m' Hm'. apply Hall. by right.
      * split; [done|]. intros Hall.
        destruct (Hall m (list_elem_of_here _ _)) as (_ & _ & ?). congruence.
Qed.

Lemma validateMaintainers_message (ms : list Maintainer) (msg : string) :
  validateMaintainers ms = Return (Some msg) →
  ∃ m, m ∈ ms
       ∧ ((msg = "maintainer must have a name"%string
           ∧ Maintainer_Name m = [])
          ∨ (msg = "maintainer must have an email"%string
             ∧ Maintainer_Email m = [])
          ∨ (Maintainer_Email m ≠ []
             ∧ validateEmail (Maintainer_Email m) = Return (Some msg))).
Proof.
  induction ms as [|m ms IH]; simpl; [done|].
  repeat case_bool_decide.
  - intros [= <-]. exists m. split; [by left|]. by left.
  - intros [= <-]. exists m. split; [by left|]. right. by left.
  - destruct (validateEmail (Maintainer_Email m)) as [[msg'|]|] eqn:E.
    + intros [= <-]. exists m. split; [by left|]. right. by right.
    + intros (m' & Hm' & Hcase)%IH. exists m'. split; [by right|done].
    + done.
Qed.

Lemma validateMaintainers_no_panic (ms : list Maintainer) :
  validateMaintainers ms ≠ Panic.
Proof.
  induction ms as [|m ms IH]; simpl; [done|].
  repeat case_bool_decide; [done|done|].
  pose proof (validateEmail_no_panic (Maintainer_Email m)) as Hm.
  by destruct (validateEmail (Maintainer_Email m)) as [[msg|]|].
Qed.

Lemma ValidateMetadata_no_panic (md : Metadata) :
  ValidateMetadata md ≠ Panic.
Proof.
  unfold ValidateMetadata.
  pose proof (validateMaintainers_no_panic (Metadata_Maintainers md)).
  repeat (case_bool_decide; [done|]).
  destruct (semver_NewVersion _); cbn [negb]; [|done].
  case_bool_decide; [done|].
  destruct (validateMaintainers _) as [[msg|]|]; [done| |done].
  repeat first [ case_bool_decide; [done|]
               | destruct (url_ParseRequestURI _); cbn [negb]; [|done] ].
  done.
Qed.
End ValidationFacts.

(** X16. [validateEmail] never tests the length of the address: it reports
    a badly formatted address exactly when [emailRegex] does not match,
    whatever [len(e)] is. It accepts exactly the addresses [local@domain]
    that [emailRegex] matches and whose domain, the whole text after the
    ["@"], has at least one MX record and no lookup error. *)
Theorem X16_email_length_unchecked `{ValidationImports} (e : list Z) :
  (validateEmail e
   = Return (Some "email must be a properly formatted email address"%string)
   ↔ MatchString emailRegex e = false)
  ∧ (validateEmail e = Return None
     ↔ MatchString emailRegex e = true
       ∧ ∃ loc domain n, e = loc ++ at_sign :: domain
                         ∧ (at_sign ∉ loc) ∧ (at_sign ∉ domain)
                         ∧ net_LookupMX domain = (S n, None)).
Proof.
  split.
  - rewrite validateEmail_format.
    destruct (MatchString emailRegex e); [|done].
    split; [|done].
    destruct (Split e at_sign !! 1%nat) as [domain|]; [|done].
    by case_match.
  - rewrite validateEmail_format.
    destruct (MatchString emailRegex e) eqn:He;
      [|split; [done|by intros [? _]]].
    apply emailRegex_one_at in He
      as (loc & domain & -> & _ & _ & Hloc & Hdomain).
    rewrite validateEmail_domain by done.
    destruct (net_LookupMX domain) as [mx err] eqn:E. cbn [fst snd].
    split.
    + case_bool_decide as Herr; [done|]. cbn [orb].
      case_bool_decide as Hmx; [done|]. intros _.
      split; [done|]. exists loc, domain.
      destruct mx as [|n]; [done|]. exists n. repeat split; try done.
      rewrite E. destruct err; [by destruct Herr|done].
    + intros (_ & loc' & domain' & n & Heq & Hloc' & Hdomain' & Hmx).
      assert (domain' = domain) as ->.
      { pose proof (validateEmail_domain loc' domain' Hloc' Hdomain') as Hd.
        rewrite <- Heq in Hd. rewrite validateEmail_domain in Hd by done.
        congruence. }
      rewrite E in Hmx. injection Hmx as -> ->.
      rewrite bool_decide_eq_false_2 by (by intros []).
      by rewrite bool_decide_eq_false_2.
Qed.

(** X17. [parts[1]] is always in range: an address that [emailRegex]
    matches has an ["@"], so [validateEmail] and [ValidateMetadata] never
    panic, and neither does the POST handler. *)
Theorem X17_validation_never_panics
    `{Imports} `{ValidationImports} `{ServerImports} :
  (∀ e, validateEmail e ≠ Panic)
  ∧ (∀ md, ValidateMetadata md ≠ Panic)
  ∧ (∀ (s : index) (metadata : positive) (body : list Z + string),
       (handlePostMetadata s metadata body).2 ≠ handler_panic).
Proof.
  split; [|split].
  - intros e. apply validateEmail_no_panic.
  - intros md. apply ValidateMetadata_no_panic.
  - intros s metadata body. unfold handlePostMetadata.
    destruct body as [yamlBytes|err]; [|done].
    destruct (yaml_Unmarshal yamlBytes) as [md|err]; [|done].
    pose proof (ValidateMetadata_no_panic md) as Hmd.
    destruct (ValidateMetadata md) as [[msg|]|]; [done| |done].
    by destruct (AddMetadata s metadata md) as [s' [err|]].
Qed.

(** X18. [ValidateMetadata] returns nil exactly for the documents with a
    non-empty title, a non-empty version that [semver.NewVersion] parses,
    at least one maintainer, every maintainer with a non-empty name and a
    non-empty email that [validateEmail] accepts, a non-empty company, a
    non-empty website and source that [url.ParseRequestURI] parses, a
    non-empty license and a non-empty description. *)
Theorem X18_accepted_documents `{ValidationImports} (md : Metadata) :
  ValidateMetadata md = Return None
  ↔ Metadata_Title md ≠ []
    ∧ Metadata_Version md ≠ []
    ∧ semver_NewVersion (Metadata_Version md) = true
    ∧ Metadata_Maintainers md ≠ []
    ∧ (∀ m, m ∈ Metadata_Maintainers md →
            Maintainer_Name m ≠ [] ∧ Maintainer_Email m ≠ []
            ∧ validateEmail (Maintainer_Email m) = Return None)
    ∧ Metadata_Company md ≠ []
    ∧ Metadata_Website md ≠ []
    ∧ url_ParseRequestURI (Metadata_Website md) = true
    ∧ Metadata_Source md ≠ []
    ∧ url_ParseRequestURI (Metadata_Source md) = true
    ∧ Metadata_License md ≠ []
    ∧ Metadata_Description md ≠ [].
Proof.
  rewrite <- validateMaintainers_accepts. unfold ValidateMetadata.
  case_bool_decide as Htitle; [split; [done|]; by intros [? _]|].
  case_bool_decide as Hversion; [split; [done|]; by intros (_ & ? & _)|].
  destruct (semver_NewVersion (Metadata_Version md)); cbn [negb];
    [|split; [done|]; by intros (_ & _ & ? & _)].
  case_bool_decide as Hlen.
  { split; [done|]. intros (_ & _ & _ & Hms & _).
    by destruct (Metadata_Maintainers md). }
  assert (Hms : Metadata_Maintainers md ≠ []).
  { intros E. by rewrite E in Hlen. }
  destruct (validateMaintainers (Metadata_Maintainers md)) as [[msg|]|];
    [split; [done|]; by intros (_ & _ & _ & _ & ? & _)|
    |split; [done|]; by intros (_ & _ & _ & _ & ? & _)].
  case_bool_decide as Hcompany;
    [split; [done|]; by intros (_ & _ & _ & _ & _ & ? & _)|].
  case_bool_decide as Hwebsite;
    [split; [done|]; by intros (_ & _ & _ & _ & _ & _ & ? & _)|].
  destruct (url_ParseRequestURI (Metadata_Website md)); cbn [negb];
    [|split; [done|]; by intros (_ & _ & _ & _ & _ & _ & _ & ? & _)].
  case_bool_decide as Hsource;
    [split; [done|]; by intros (_ & _ & _ & _ & _ & _ & _ & _ & ? & _)|].
  destruct (url_ParseRequestURI (Metadata_Source md)); cbn [negb];
    [|split; [done|];
      by intros (_ & _ & _ & _ & _ & _ & _ & _ & _ & ? & _)].
  case_bool_decide as Hlicense;
    [split; [done|];
     by intros (_ & _ & _ & _ & _ & _ & _ & _ & _ & _ & ? & _)|].
  case_bool_decide as Hdescription;
    [split; [done|];
     by intros (_ & _ & _ & _ & _ & _ & _ & _ & _ & _ & _ & ?)|].
  split; [|done]. intros _. repeat split; done.
Qed.

(** X19. The error of [ValidateMetadata] names a defect the document has:
    each of its fifteen messages is returned only for a document with the
    defect it states (an empty field, a version or URL the parser rejects,
    a maintainer without name or email, an address the regular expression
    or the MX lookup rejects), and no other message is returned. The title
    is tested first: a document with an empty title gets the title message
    whatever else it holds. *)
Theorem X19_error_names_defect `{ValidationImports}
    (md : Metadata) (msg : string) :
  ValidateMetadata md = Return (Some msg) →
  ((msg = "metadata must have a title"%string ∧ Metadata_Title md = [])
   ∨ (msg = "metadata must have a version"%string
      ∧ Metadata_Version md = [])
   ∨ (msg = "version must follow the semantic versioning scheme: https://semver.org"%string
      ∧ semver_NewVersion (Metadata_Version md) = false)
   ∨ (msg = "metadata must have a list of maintainers, each of which has a name and email attribute"%string
      ∧ Metadata_Maintainers md = [])
   ∨ (msg = "maintainer must have a name"%string
      ∧ ∃ m, m ∈ Metadata_Maintainers md ∧ Maintainer_Name m = [])
   ∨ (msg = "maintainer must have an email"%string
      ∧ ∃ m, m ∈ Metadata_Maintainers md ∧ Maintainer_Email m = [])
   ∨ (msg = "email must be a properly formatted email address"%string
      ∧ ∃ m, m ∈ Metadata_Maintainers md
             ∧ MatchString emailRegex (Maintainer_Email m) = false)
   ∨ (msg = "email must be a valid email address"%string
      ∧ ∃ m, m ∈ Metadata_Maintainers md
             ∧ MatchString emailRegex (Maintainer_Email m) = true
             ∧ validateEmail (Maintainer_Email m) ≠ Return None)
   ∨ (msg = "metadata must have a company"%string
      ∧ Metadata_Company md = [])
   ∨ (msg = "metadata must have a website"%string
      ∧ Metadata_Website md = [])
   ∨ (msg = "metadata must have a website with a valid URL"%string
      ∧ url_ParseRequestURI (Metadata_Website md) = false)
   ∨ (msg = "metadata must have a source"%string
      ∧ Metadata_Source md = [])
   ∨ (msg = "metadata must have a source with a valid URL"%string
      ∧ url_ParseRequestURI (Metadata_Source md) = false)
   ∨ (msg = "metadata must have a license"%string
      ∧ Metadata_License md = [])
   ∨ (msg = "metadata must have a description"%string
      ∧ Metadata_Description md = []))
  ∧ (Metadata_Title md = [] → msg = "metadata must have a title"%string).
Proof.
  unfold ValidateMetadata.
  case_bool_decide as Htitle.
  { intros [= <-]. split; [by left|done]. }
  intros Hret. split; [|done]. revert Hret.
  case_bool_decide as Hversion.
  { intros [= <-]. right. by left. }
  destruct (semver_NewVersion (Metadata_Version md)); cbn [negb];
    [|intros [= <-]; do 2 right; by left].
  case_bool_decide as Hlen.
  { intros [= <-]. do 3 right. left. split; [done|].
    by destruct (Metadata_Maintainers md). }
  destruct (validateMaintainers (Metadata_Maintainers md)) as [[msg'|]|]
    eqn:Hms; [| |done].
  { intros [= <-].
    apply validateMaintainers_message in Hms
      as (m & Hm & [[-> Hname]|[[-> Hemail]|[Hemail Hvalid]]]).
    - do 4 right. left. split; [done|]. by exists m.
    - do 5 right. left. split; [done|]. by exists m.
    - destruct (validateEmail_message _ _ Hvalid) as [[-> Hre]|[-> Hre]].
      + do 6 right. left. split; [done|]. by exists m.
      + do 7 right. left. split; [done|]. exists m.
        split; [done|]. split; [done|]. by rewrite Hvalid. }
  case_bool_decide as Hcompany; [intros [= <-]; do 8 right; by left|].
  case_bool_decide as Hwebsite; [intros [= <-]; do 9 right; by left|].
  destruct (url_ParseRequestURI (Metadata_Website md)); cbn [negb];
    [|intros [= <-]; do 10 right; by left].
  case_bool_decide as Hsource; [intros [= <-]; do 11 right; by left|].
  destruct (url_ParseRequestURI (Metadata_Source md)); cbn [negb];
    [|intros [= <-]; do 12 right; by left].
  case_bool_decide as Hlicense; [intros [= <-]; do 13 right; by left|].
  case_bool_decide as Hdescription; [intros [= <-]; do 14 right; done|].
  done.
Qed.

Lemma X19_error_names_defect_witness :
  @ValidateMetadata example_validation (document "App" "1.0.0" "")
  = Return (Some "metadata must have a description"%string)
  ∧ Metadata_Description (document "App" "1.0.0" "") = [].
Proof.
  assert (Hret : @ValidateMetadata example_validation
                   (document "App" "1.0.0" "")
                 = Return (Some "metadata must have a description"%string))
    by (vm_compute; reflexivity).
  split; [exact Hret|].
  destruct (proj1 (@X19_error_names_defect example_validation _ _ Hret))
    as [[E _]|[[E _]|[[E _]|[[E _]|[[E _]|[[E _]|[[E _]|[[E _]|[[E _]|
        [[E _]|[[E _]|[[E _]|[[E _]|[[E _]|[_ Hd]]]]]]]]]]]]]]];
    first [discriminate E | exact Hd].
Defined.

(** ** The POST handler *)

Section ServerFacts.
Context `{Imports} `{ValidationImports} `{ServerImports}.

Lemma validated_pointer (request : positive * (list Z + string))
    (d : positive * Metadata) :
  validated request = Some d →
  d.1 = request.1 ∧ ValidateMetadata d.2 = Return None.
Proof.
  unfold validated. destruct (request.2) as [yamlBytes|err]; [|done].
  destruct (yaml_Unmarshal yamlBytes) as [md|err]; [|done].
  destruct (ValidateMetadata md) as [[msg|]|] eqn:E; [done| |done].
  by intros [= <-].
Qed.

Lemma handlePostMetadata_validated (s : index) (metadata : positive)
    (body : list Z + string) :
  match validated (metadata, body) with
  | None =>
      (handlePostMetadata s metadata body).1 = s
      ∧ ∃ msg, (handlePostMetadata s metadata body).2
               = http_Error msg StatusBadRequest
  | Some d =>
      handlePostMetadata s metadata body
      = ((AddMetadata s metadata d.2).1,
         match (AddMetadata s metadata d.2).2 with
         | None => no_write
         | Some err => http_Error (Error err) StatusInternalServerError
         end)
  end.
Proof.
  unfold validated, handlePostMetadata. cbn [fst snd].
  destruct body as [yamlBytes|err]; [|split; [done|eauto]].
  destruct (yaml_Unmarshal yamlBytes) as [md|err]; [|split; [done|eauto]].
  pose proof (ValidateMetadata_no_panic md) as Hmd.
  destruct (ValidateMetadata md) as [[msg|]|]; [split; [done|eauto]| |done].
  cbn [snd]. by destruct (AddMetadata s metadata md) as [s' [err|]].
Qed.

Lemma servePosts_store (s : index)
    (requests : list (positive * (list Z + string))) :
  (servePosts s requests).1 = AddAll s (omap validated requests).
Proof.
  revert s. induction requests as [|[metadata body] rest IH]; intros s;
    [done|].
  cbn [servePosts fst snd].
  destruct (handlePostMetadata s metadata body) as [s1 r] eqn:E1.
  specialize (IH s1).
  destruct (servePosts s1 rest) as [s2 rs] eqn:E2. cbn [fst] in *.
  rewrite IH. cbn [omap list_omap].
  pose proof (handlePostMetadata_validated s metadata body) as Hv.
  destruct (validated (metadata, body)) as [d|] eqn:Ed.
  - rewrite E1 in Hv. injection Hv as -> _.
    destruct (validated_pointer _ _ Ed) as [Hd _]. cbn [fst] in Hd.
    cbn [omap list_omap]. unfold AddAll at 2. cbn [foldl].
    by rewrite Hd.
  - rewrite E1 in Hv. cbn [fst] in Hv. by destruct Hv as [-> _].
Qed.

Lemma servePosts_length (s : index)
    (requests : list (positive * (list Z + string))) :
  length (servePosts s requests).2 = length requests.
Proof.
  revert s. induction requests as [|[metadata body] rest IH]; intros s;
    [done|].
  cbn [servePosts fst snd].
  destruct (handlePostMetadata s metadata body) as [s1 r].
  specialize (IH s1). destruct (servePosts s1 rest) as [s2 rs].
  cbn [snd length] in *. by rewrite IH.
Qed.

Lemma validated_sublist (requests : list (positive * (list Z + string))) :
  (omap validated requests).*1 `sublist_of` requests.*1.
Proof.
  induction requests as [|request rest IH]; [done|].
  cbn [omap list_omap].
  destruct (validated request) as [d|] eqn:Ed; csimpl.
  - destruct (validated_pointer _ _ Ed) as [-> _]. by apply sublist_skip.
  - by apply sublist_cons.
Qed.
End ServerFacts.

(** X20. Rejected requests leave no trace. After POST requests served one
    after the other, the store is the one [AddMetadata] builds from the
    documents of the requests that passed [ValidateMetadata], in order;
    there is one response per request; every document found in a posting
    list is the document of a request that was read, decoded and accepted
    by validation; and when the [Metadata] objects of the accepted
    requests are distinct (the handler allocates one per request), no
    posting list holds a document twice. *)
Theorem X20_rejected_requests_leave_no_trace
    `{Imports} `{ValidationImports} `{ServerImports}
    (requests : list (positive * (list Z + string))) :
  NoDup (omap validated requests).*1 →
  (servePosts NewStorage requests).1
  = AddAll NewStorage (omap validated requests)
  ∧ length (servePosts NewStorage requests).2 = length requests
  ∧ ∀ (b : list Z) (g : field_of_index) (k : list Z),
      (b, g) ∈ all_fields →
      NoDup (fld_get g (servePosts NewStorage requests).1 !!! k)
      ∧ ∀ x, x ∈ fld_get g (servePosts NewStorage requests).1 !!! k →
             ∃ body md, (x, body) ∈ requests
                        ∧ validated (x, body) = Some (x, md)
                        ∧ ValidateMetadata md = Return None.
Proof.
  intros Hnd. split; [apply servePosts_store|].
  split; [apply servePosts_length|].
  intros b g k Hg. rewrite servePosts_store.
  pose proof (AddAll_new_sublist (omap validated requests) b g k Hg) as Hsub.
  split.
  - by apply (sublist_NoDup _ (omap validated requests).*1).
  - intros x Hx. apply (sublist_subseteq _ _ Hsub) in Hx.
    apply list_elem_of_fmap in Hx as ([x' md] & -> & Hd). cbn [fst].
    apply list_elem_of_omap in Hd as ([p body] & Hreq & Hval).
    destruct (validated_pointer _ _ Hval) as [Hp Hmd]. cbn [fst snd] in *.
    subst p. by exists body, md.
Qed.

Lemma X20_rejected_requests_leave_no_trace_witness :
  NoDup (@omap list _ _ _ (@validated example_validation example_server)
           example_requests).*1
  ∧ (@servePosts excerpt_imports example_validation example_server
       NewStorage example_requests).2
    = [ no_write;
        http_Error "metadata must have a title" StatusBadRequest;
        http_Error (Sprintf_nl_v "request does not contain valid YAML:"
                      "yaml: unmarshal errors") StatusBadRequest;
        no_write ]
  ∧ (@servePosts excerpt_imports example_validation example_server
       NewStorage example_requests).1
    = @AddAll excerpt_imports NewStorage
        [ (1%positive, app_title_1); (4%positive, app_title_2) ].
Proof.
  assert (Hnd : NoDup (@omap list _ _ _
                         (@validated example_validation example_server)
                         example_requests).*1)
    by (apply (bool_decide_unpack _); vm_compute; exact I).
  split; [exact Hnd|]. split; [vm_compute; reflexivity|].
  rewrite (proj1 (@X20_rejected_requests_leave_no_trace
                    excerpt_imports example_validation example_server
                    example_requests Hnd)).
  vm_compute. reflexivity.
Defined.

(** X21. Status of a POST request. A request that is not read, is not
    YAML or fails validation is answered by one [http.Error] of status 400
    and leaves the store as it was; when it is validation that fails, the
    message is the one [ValidateMetadata] returned. A request that passes
    validation is answered by what [AddMetadata] returns: nothing written
    (200) on nil, 500 with the message of the error otherwise, the store
    being the one [AddMetadata] left in both cases. When the stemmer
    accepts every word, no request is answered 500. *)
Theorem X21_post_status `{Imports} `{ValidationImports} `{ServerImports}
    (s : index) (metadata : positive) (body : list Z + string) :
  match validated (metadata, body) with
  | None =>
      (handlePostMetadata s metadata body).1 = s
      ∧ ∃ msg, (handlePostMetadata s metadata body).2
               = http_Error msg StatusBadRequest
  | Some d =>
      handlePostMetadata s metadata body
      = ((AddMetadata s metadata d.2).1,
         match (AddMetadata s metadata d.2).2 with
         | None => no_write
         | Some err => http_Error (Error err) StatusInternalServerError
         end)
  end
  ∧ (∀ yamlBytes md msg,
       body = inl yamlBytes → yaml_Unmarshal yamlBytes = inl md →
       ValidateMetadata md = Return (Some msg) →
       handlePostMetadata s metadata body
       = (s, http_Error msg StatusBadRequest))
  ∧ ((∀ w, ∃ st, snowball_Stem w (str "english") true = inl st) →
     ∀ msg, (handlePostMetadata s metadata body).2
            ≠ http_Error msg StatusInternalServerError).
Proof.
  pose proof (handlePostMetadata_validated s metadata body) as Hv.
  split; [exact Hv|]. split.
  - intros yamlBytes md msg -> Hyaml Hmd. unfold handlePostMetadata.
    by rewrite Hyaml, Hmd.
  - intros Htotal msg.
    destruct (validated (metadata, body)) as [d|].
    + rewrite Hv. cbn [snd].
      by rewrite (AddMetadata_never_fails s metadata d.2 Htotal).
    + destruct Hv as [_ [msg' ->]]. by intros [=].
Qed.
